(** * Earring segmentation and placement geometry

    A shallow embedding of [src/get_earring.py], [src/compute_points.py]
    and [src/effect.py] (flood fill, contour extraction, contour filling,
    left/right routing, centroid and anchor points, crop adjustment, the
    coloured shadow) and the properties of the specification that concern
    them.

    Conventions.
    - A pixel coordinate is a pair of Python integers, here [Z * Z].  The
      first component indexes rows, the second columns, as numpy does.
    - A numpy array of shape (rows, cols, channels) is a list of rows, each
      row a list of pixels, each pixel a list of channel values.  The
      two-dimensional array that [cv2.imread] returns for a grey file is
      the array whose pixels hold one value; its shape has no third entry.
    - A Python [set] of pixel coordinates is a [gset (Z * Z)].
    - A Python exception is a value [Raise e] of the [result] type. *)

From Stdlib Require Import ZArith Zquot Lia.
From stdpp Require Import base option list sets fin_sets gmap strings relations.

Local Open Scope Z_scope.

(** ** Python values and exceptions *)

Inductive exn : Type :=
  | IndexError
  | TypeError
  | ValueError
  | ZeroDivisionError
  | AttributeError
  | AssertionError
  | FileNotFoundError
  | OSError.

(** The outcome of a call: a value, an exception, or [Diverge] when a loop
    of the model ran out of fuel (no call below does: see
    [flood_fill_terminates]). *)
Inductive result (A : Type) : Type :=
  | Return (a : A)
  | Raise (e : exn)
  | Diverge.
Arguments Return {A} a.
Arguments Raise {A} e.
Arguments Diverge {A}.

#[global] Instance result_ret : MRet result := fun A a => Return a.
#[global] Instance result_bind : MBind result := fun A B k m =>
  match m with
  | Return a => k a
  | Raise e => Raise e
  | Diverge => Diverge
  end.

#[global] Instance result_fmap : FMap result := fun A B f m =>
  match m with
  | Return a => Return (f a)
  | Raise e => Raise e
  | Diverge => Diverge
  end.

Definition run_loop {A : Type} (o : option A) : result A :=
  match o with
  | Some a => Return a
  | None => Diverge
  end.

Abbreviation pixel := (Z * Z)%type.

(** ** numpy arrays *)

Abbreviation ndarray := (list (list (list Z))).

(** [a.shape[0]], [a.shape[1]], [a.shape[2]] and [a.shape[:2]]. *)
Definition shape0 (a : ndarray) : nat := length a.
Definition shape1 (a : ndarray) : nat := length (hd [] a).
Definition shape2 (a : ndarray) : nat := length (hd [] (hd [] a)).
Definition shape_2d (a : ndarray) : nat * nat := (shape0 a, shape1 a).

(** [a[r, c][k]] for indices already known to be within the shape. *)
Definition item (a : ndarray) (r c : Z) (k : nat) : Z :=
  nth k (nth (Z.to_nat c) (nth (Z.to_nat r) a []) []) 0.

(** [0 <= nx < rows and 0 <= ny < cols]. *)
Definition in_bounds (shape : nat * nat) (q : pixel) : bool :=
  (0 <=? q.1) && (q.1 <? Z.of_nat shape.1) &&
  (0 <=? q.2) && (q.2 <? Z.of_nat shape.2).

(** All index pairs of a (rows, cols) grid in row-major order, the order of
    [np.argwhere] and [np.where]. *)
Definition grid (shape : nat * nat) : list pixel :=
  r ← seqZ 0 (Z.of_nat shape.1); c ← seqZ 0 (Z.of_nat shape.2); [(r, c)].

(** Index normalisation along an axis of length [n]: a negative index
    counts from the end, an index outside [-n, n) raises. *)
Definition np_index (n : nat) (i : Z) : result Z :=
  if (0 <=? i) && (i <? Z.of_nat n) then Return i
  else if (- Z.of_nat n <=? i) && (i <? 0) then Return (i + Z.of_nat n)
  else Raise IndexError.

(** A boolean array of a given 2-d shape is the set of its [True]
    positions.  [mask[p] = True]: *)
Definition mask_set (shape : nat * nat) (mask : gset pixel) (p : pixel)
    : result (gset pixel) :=
  r ← np_index shape.1 p.1;
  c ← np_index shape.2 p.2;
  mret ({[(r, c)]} ∪ mask).

(** [for p in ps: mask[p] = True]. *)
Fixpoint mask_set_all (shape : nat * nat) (mask : gset pixel)
    (ps : list pixel) : result (gset pixel) :=
  match ps with
  | [] => Return mask
  | p :: ps' => mask' ← mask_set shape mask p; mask_set_all shape mask' ps'
  end.

(** ** get_earring.py *)

(** The eight neighbours of a pixel, in the order of the two nested loops
    [for dx in [-1, 0, 1]: for dy in [-1, 0, 1]] that skip [dx == dy == 0]. *)
Definition neighbors8 (p : pixel) : list pixel :=
  dx ← [-1; 0; 1]; dy ← [-1; 0; 1];
  if (dx =? 0) && (dy =? 0) then [] else [(p.1 + dx, p.2 + dy)].

(** The guard of [flood_fill]:
    [0 <= nx < rows and 0 <= ny < cols and image[nx, ny][0] > 10]. *)
Definition grows (img : ndarray) (q : pixel) : bool :=
  in_bounds (shape_2d img) q && (10 <? item img q.1 q.2 0).

(** The neighbours that one iteration of the loop appends to the stack. *)
Definition grown_neighbors (img : ndarray) (p : pixel) : list pixel :=
  filter (fun q => grows img q = true) (neighbors8 p).

(** The [while stack:] loop.  The Python list [stack] is kept with its last
    element (the one [stack.pop()] takes) at the head; [stack.append] in
    loop order therefore reverses the appended run.  [None] is fuel
    exhaustion. *)
Fixpoint flood_loop (fuel : nat) (img : ndarray)
    (stack : list pixel) (visited_pixels : gset pixel) : option (gset pixel) :=
  match fuel with
  | O => None
  | S fuel' =>
      match stack with
      | [] => Some visited_pixels
      | p :: stack' =>
          if decide (p ∈ visited_pixels)
          then flood_loop fuel' img stack' visited_pixels
          else flood_loop fuel' img
                 (reverse (grown_neighbors img p) ++ stack')
                 ({[p]} ∪ visited_pixels)
      end
  end.

(** Each pixel is added to the visited set at most once and pushes at most
    eight neighbours, so this many iterations always suffice. *)
Definition flood_fuel (img : ndarray) : nat :=
  9 * (length (grid (shape_2d img)) + 1) + 2.

(** [flood_fill(image, start, visited_pixels=None)]. *)
Definition flood_fill (img : ndarray) (start : pixel)
    (visited_pixels : option (gset pixel)) : option (gset pixel) :=
  flood_loop (flood_fuel img) img [start] (default ∅ visited_pixels).

(** *** What [flood_fill] is meant to compute *)

(** Pixels reachable from [start] by steps to 8-neighbours that pass the
    guard of the loop.  The start pixel itself is not tested. *)
Inductive reach (img : ndarray) (start : pixel) : pixel -> Prop :=
  | reach_start : reach img start start
  | reach_grow p q :
      reach img start p -> q ∈ neighbors8 p -> grows img q = true ->
      reach img start q.

(** An 8-connected chain that stays inside the set [S]. *)
Definition chain (S : gset pixel) : relation pixel :=
  rtc (fun a b => b ∈ neighbors8 a ∧ b ∈ S).

(** [S] contains [seed], all its members pass the growth test, and each is
    linked to [seed] by a chain inside [S]. *)
Definition region (img : ndarray) (seed : pixel) (S : gset pixel) : Prop :=
  seed ∈ S ∧
  (∀ p, p ∈ S -> grows img p = true) ∧
  (∀ p, p ∈ S -> chain S seed p).

Definition maximal_region (img : ndarray) (seed : pixel) (S : gset pixel) : Prop :=
  region img seed S ∧ ∀ S', region img seed S' -> S' ⊆ S.

(** The work list processed in any order: any entry may be taken next. *)
Inductive pick_step (img : ndarray) :
    relation (list pixel * gset pixel) :=
  | pick_seen l1 p l2 V :
      p ∈ V -> pick_step img (l1 ++ p :: l2, V) (l1 ++ l2, V)
  | pick_new l1 p l2 V :
      p ∉ V ->
      pick_step img (l1 ++ p :: l2, V)
                    (l1 ++ l2 ++ grown_neighbors img p, {[p]} ∪ V).

Definition any_order_run (img : ndarray) (start : pixel) (V : gset pixel) : Prop :=
  rtc (pick_step img) ([start], ∅) ([], V).

(** The image holds one 8-connected blob [B] of pixels passing the growth
    test and nothing else passes it. *)
Definition single_blob (img : ndarray) (B : gset pixel) : Prop :=
  (∀ p, p ∈ B <-> grows img p = true) ∧
  (∀ p q, p ∈ B -> q ∈ B -> chain B p q).

(** The property of [flood_fill] at one image and seed. *)
Definition flood_fill_spec (img : ndarray) (seed : pixel) : Prop :=
  ∃ V, flood_fill img seed None = Some V ∧
       maximal_region img seed V ∧
       (∀ S, maximal_region img seed S -> S = V) ∧
       (∀ V', any_order_run img seed V' -> V' = V) ∧
       (∀ B, single_blob img B -> seed ∈ B -> V = B).

(** The invariant of the work-list loop, in any order: the work list and
    the visited set hold reachable pixels only, the start pixel is in one of
    them, and every growing neighbour of a visited pixel is in one of them. *)
Definition flood_inv (img : ndarray) (start : pixel)
    (st : list pixel * gset pixel) : Prop :=
  (∀ p, p ∈ st.1 -> reach img start p) ∧
  (∀ p, p ∈ st.2 -> reach img start p) ∧
  (start ∈ st.1 ∨ start ∈ st.2) ∧
  (∀ p q, p ∈ st.2 -> q ∈ neighbors8 p -> grows img q = true ->
          q ∈ st.1 ∨ q ∈ st.2).

(** *** get_contour *)

(** The test of the two nested loops of [get_contour] with their [break]s:
    some neighbour is within the shape and not set in [mask]. *)
Definition is_edge (shape : nat * nat) (mask : gset pixel) (p : pixel) : bool :=
  existsb (fun q => in_bounds shape q && negb (bool_decide (q ∈ mask)))
          (neighbors8 p).

(** [get_contour(visited_pixels, image_shape)].  The Boolean [mask] array is
    written at each member with numpy's index rules, then every member with
    an edge neighbour is added to the [contour] set. *)
Definition get_contour (visited_pixels : gset pixel) (image_shape : nat * nat)
    : result (gset pixel) :=
  let visited_list := elements visited_pixels in
  mask ← mask_set_all image_shape ∅ visited_list;
  mret (list_to_set
          (filter (fun p => is_edge image_shape mask p = true) visited_list)).

(** *** fill_contour *)

(** The four neighbours of scipy's default structuring element (a cross). *)
Definition neighbors4 (p : pixel) : list pixel :=
  [(p.1 - 1, p.2); (p.1, p.2 - 1); (p.1, p.2 + 1); (p.1 + 1, p.2)].

(** One dilation of the set [outside] by the cross, with everything beyond
    the array counted as set (border value 1) and only positions that are
    not set in [mask] allowed to change. *)
Definition dilate_outside (shape : nat * nat) (mask outside : gset pixel)
    : gset pixel :=
  list_to_set
    (filter (fun p => (p ∉ mask) ∧
                      ((p ∈ outside) ∨
                       Exists (fun q => in_bounds shape q = false ∨ q ∈ outside)
                              (neighbors4 p)))
            (grid shape)).

(** Modelled from the spec: [scipy.ndimage.binary_fill_holes], which the
    repository imports; "any pixel not reachable from outside the shape is
    set true".  The background reachable from beyond the array border is
    grown by repeated dilation, one position at least per round until
    nothing changes, so as many rounds as the array has positions reach the
    fixed point; the result is its complement. *)
Definition binary_fill_holes (shape : nat * nat) (mask : gset pixel)
    : gset pixel :=
  let outside :=
    Nat.iter (length (grid shape)) (dilate_outside shape mask) ∅ in
  list_to_set (filter (fun p => p ∉ outside) (grid shape)).

(** The background reachable from beyond the array border through
    4-connected background positions. *)
Inductive exterior (shape : nat * nat) (mask : gset pixel) : pixel -> Prop :=
  | exterior_border p q :
      in_bounds shape p = true -> p ∉ mask ->
      q ∈ neighbors4 p -> in_bounds shape q = false ->
      exterior shape mask p
  | exterior_step p q :
      in_bounds shape p = true -> p ∉ mask ->
      q ∈ neighbors4 p -> exterior shape mask q ->
      exterior shape mask p.

(** [fill_contour(contour, image_shape)]; [image_shape] stands for
    [image_shape[:2]], the only part the function reads. *)
Definition fill_contour (contour : gset pixel) (image_shape : nat * nat)
    : result (gset pixel) :=
  mask ← mask_set_all image_shape ∅ (elements contour);
  mret (binary_fill_holes image_shape mask).

(** A solid filled rectangle of rows [r0..r1] and columns [c0..c1], and its
    perimeter. *)
Definition rectangle (r0 r1 c0 c1 : Z) : gset pixel :=
  list_to_set (r ← seqZ r0 (r1 - r0 + 1); c ← seqZ c0 (c1 - c0 + 1); [(r, c)]).

Definition perimeter (r0 r1 c0 c1 : Z) : gset pixel :=
  filter (fun p => p.1 = r0 ∨ p.1 = r1 ∨ p.2 = c0 ∨ p.2 = c1)
         (rectangle r0 r1 c0 c1).

(** A rectangle that leaves a margin of one pixel to every border of the
    image, and one that is merely within the image. *)
Definition inside_margin (shape : nat * nat) (r0 r1 c0 c1 : Z) : Prop :=
  0 < r0 ∧ r1 + 1 < Z.of_nat shape.1 ∧ 0 < c0 ∧ c1 + 1 < Z.of_nat shape.2.

Definition within_bounds (shape : nat * nat) (r0 r1 c0 c1 : Z) : Prop :=
  (0 <= r0 <= r1 ∧ r1 < Z.of_nat shape.1) ∧
  (0 <= c0 <= c1 ∧ c1 < Z.of_nat shape.2).

(** The property of [get_contour] at one cluster and image shape. *)
Definition get_contour_spec (cluster : gset pixel) (shape : nat * nat) : Prop :=
  ∃ C, get_contour cluster shape = Return C ∧
       (∀ p, p ∈ C <->
             p ∈ cluster ∧
             ∃ q, q ∈ neighbors8 p ∧ in_bounds shape q = true ∧ q ∉ cluster) ∧
       C ⊆ cluster ∧
       (∀ r0 r1 c0 c1,
          cluster = rectangle r0 r1 c0 c1 -> C = perimeter r0 r1 c0 c1).

(** Extracting the contour of a cluster and filling it gives the cluster
    back. *)
Definition round_trip_spec (cluster : gset pixel) (shape : nat * nat) : Prop :=
  ∃ C, get_contour cluster shape = Return C ∧
       fill_contour C shape = Return cluster.

(** ** compute_points.py *)

(** *** adjust_crop_area *)

(** The inner function [adjust(start, end, size, min_size)]; [//] is floor
    division. *)
Definition adjust (start end_ size min_size : Z) : Z * Z :=
  if size <? min_size then
    let extra := min_size - size in
    (start - extra / 2, end_ + (extra - extra / 2))
  else if min_size <? size then
    let extra := size - min_size in
    (start + extra / 2, end_ - (extra - extra / 2))
  else (start, end_).

(** [adjust_crop_area(x, y, w, h, min_size)]; returns
    [(x, y, x_end, y_end)]. *)
Definition adjust_crop_area (x y w h min_size : Z) : Z * Z * Z * Z :=
  let x_end := x + w in
  let y_end := y + h in
  let '(x, x_end) := adjust x x_end w min_size in
  let '(y, y_end) := adjust y y_end h min_size in
  (x, y, x_end, y_end).

(** The default value of the parameter [min_size]. *)
Definition default_min_size : Z := 224.

(** *** Image files and moments *)

(** A file system maps a path to the pixel array stored in the image file
    there, in the channel order it was saved with. *)
Abbreviation files := (gmap string ndarray).

(** [cv2.imread(path, cv2.IMREAD_UNCHANGED)]: [None] when there is no such
    file.  A colour file is read with its colour channels in blue-green-red
    order and the alpha channel, when there is one, kept as the fourth; a
    grey file with an alpha channel is read with four channels as well, the
    grey value repeated for the three colours.  A grey file without alpha
    channel is read as a two-dimensional array: it is the array whose pixels
    hold one value, and it has no third axis (see [shape_third]). *)
Definition to_bgr (px : list Z) : list Z :=
  match px with
  | [v; alpha] => [v; v; v; alpha]
  | r :: g :: b :: rest => b :: g :: r :: rest
  | _ => px
  end.

Definition bgr_order (a : ndarray) : ndarray :=
  (fun row : list (list Z) => to_bgr <$> row) <$> a.

Definition cv2_imread (fs : files) (path : string) : option ndarray :=
  bgr_order <$> fs !! path.

(** [a.shape[2]] on an array that [cv2.imread] returned: the shape of the
    two-dimensional array of a grey file has two entries only, and the
    subscript raises. *)
Definition shape_third (a : ndarray) : result nat :=
  if decide (shape2 a = 1%nat) then Raise IndexError else Return (shape2 a).

(** [a[:, :, k]]. *)
Definition channel (k : nat) (a : ndarray) : list (list Z) :=
  (fun row : list (list Z) => (fun px => nth k px 0) <$> row) <$> a.

(** [cv2.threshold(src, thresh, maxval, cv2.THRESH_BINARY)]:
    [maxval] where [src > thresh], 0 elsewhere. *)
Definition threshold_binary (thresh maxval : Z) (src : list (list Z))
    : list (list Z) :=
  (fun row : list Z => (fun v => if thresh <? v then maxval else 0) <$> row)
  <$> src.

Definition sum_list (l : list Z) : Z := foldr Z.add 0 l.

(** The raw image moment that weighs the value at row [r] and column [c]
    with [wt r c]. *)
Definition moment (wt : Z -> Z -> Z) (a : list (list Z)) : Z :=
  sum_list (imap (fun r row =>
    sum_list (imap (fun c v => wt (Z.of_nat r) (Z.of_nat c) * v) row)) a).

(** The entries ["m00"], ["m10"] and ["m01"] of [cv2.moments]: [x] is the
    column and [y] the row. *)
Definition m00 : list (list Z) -> Z := moment (fun _ _ => 1).
Definition m10 : list (list Z) -> Z := moment (fun _ c => c).
Definition m01 : list (list Z) -> Z := moment (fun r _ => r).

(** [int(a / b)] on moments, which are integers held in floats: the
    quotient truncated towards zero; a zero divisor raises. *)
Definition int_div (a b : Z) : result Z :=
  if b =? 0 then Raise ZeroDivisionError else Return (Z.quot a b).

(** [np.where(a > 0)[0]]: the row index of every positive entry, in
    row-major order. *)
Definition where_rows (a : list (list Z)) : list Z :=
  mjoin (imap (fun r row =>
    omap (fun v => if 0 <? v then Some (Z.of_nat r) else None) row) a).

(** [np.where(a > 0)[1]]: the column index of every positive entry. *)
Definition where_cols (a : list (list Z)) : list Z :=
  mjoin (imap (fun _ row =>
    mjoin (imap (fun c v => if 0 <? v then [Z.of_nat c] else []) row)) a).

(** [np.min] and [np.max] of a one-dimensional array; they raise on an
    empty one. *)
Definition np_min (l : list Z) : result Z :=
  match l with
  | [] => Raise ValueError
  | x :: l' => Return (foldr Z.min x l')
  end.

Definition np_max (l : list Z) : result Z :=
  match l with
  | [] => Raise ValueError
  | x :: l' => Return (foldr Z.max x l')
  end.

(** [jewel_center(jewel_path)]; [Return None] is the Python value [None]. *)
Definition jewel_center (fs : files) (jewel_path : string)
    : result (option (Z * Z)) :=
  match cv2_imread fs jewel_path with
  | None => Raise AttributeError
  | Some jewel_center_image =>
      channels ← shape_third jewel_center_image;
      if decide (channels = 4%nat) then
        let jewel_alpha_channel := channel 3 jewel_center_image in
        let jewel_binary_mask := threshold_binary 1 255 jewel_alpha_channel in
        if decide (m00 jewel_binary_mask ≠ 0) then
          cX ← int_div (m10 jewel_binary_mask) (m00 jewel_binary_mask);
          cY ← int_div (m01 jewel_binary_mask) (m00 jewel_binary_mask);
          mret (Some (cX, cY))
        else mret None
      else mret None
  end.

(** [jewel_anchor_point(jewel_path)]. *)
Definition jewel_anchor_point (fs : files) (jewel_path : string)
    : result (option (Z * Z)) :=
  match cv2_imread fs jewel_path with
  | None => Raise AttributeError
  | Some jewel_image =>
      channels ← shape_third jewel_image;
      if decide (channels = 4%nat) then
        let jewel_alpha_channel := channel 3 jewel_image in
        let jewel_binary_mask := threshold_binary 1 255 jewel_alpha_channel in
        if decide (m00 jewel_binary_mask ≠ 0) then
          cX ← int_div (m10 jewel_binary_mask) (m00 jewel_binary_mask);
          let jewel_ys := where_rows jewel_binary_mask in
          if decide (length jewel_ys = 0%nat) then mret None
          else
            highest_y ← np_min jewel_ys;
            lowest_y ← np_max jewel_ys;
            let target_y := highest_y + (lowest_y - highest_y) / 11 in
            mret (Some (cX, target_y))
        else mret None
      else mret None
  end.

(** The binary mask both functions compute from the alpha channel, and
    its foreground: the pixels whose alpha exceeds the threshold 1. *)
Definition binary_mask (img : ndarray) : list (list Z) :=
  threshold_binary 1 255 (channel 3 img).

Definition foreground (img : ndarray) (r c : nat) : Prop :=
  ∃ px, img !! r ≫= (.!! c) = Some px ∧ 1 < nth 3 px 0.

(** A positive entry of a mask. *)
Definition mask_fg (a : list (list Z)) (r c : nat) : Prop :=
  ∃ v, a !! r ≫= (.!! c) = Some v ∧ 0 < v.

(** Every entry of a mask row is 0 or [maxval]. *)
Definition two_valued (maxval : Z) (row : list Z) : Prop :=
  Forall (fun v => v = 0 ∨ v = maxval) row.

(** The horizontal centroid of a mask, truncated: the mean column of its
    positive entries. *)
Definition centroid_x (mask : list (list Z)) : Z :=
  Z.quot (sum_list (where_cols mask)) (Z.of_nat (length (where_cols mask))).

(** *** model_anchor_point *)

(** [Image.crop((x, y, x_end, y_end))]: the region may extend beyond the
    image; what lies outside is filled with zeros. *)
Definition pil_crop (a : ndarray) (box : Z * Z * Z * Z) : ndarray :=
  let '(x, y, x_end, y_end) := box in
  (fun r =>
     (fun c =>
        if in_bounds (shape_2d a) (r, c)
        then nth (Z.to_nat c) (nth (Z.to_nat r) a []) []
        else replicate (shape2 a) 0) <$> seqZ x (x_end - x))
  <$> seqZ y (y_end - y).

Section model_anchor_point.
(** The earlobe detector ([Detector(EARLOBE_CLF_PATH).detect]) is an opaque
    capability: from an image it gives a list of boxes [(x, y, w, h)]. *)
Variable detect_earlobe : ndarray -> list (Z * Z * Z * Z).

(** [model_anchor_point(model_path, x, y, w, h)], on the image stored at
    [model_path].  [int(box_x + box_w / 2)] truncates a half-integer
    towards zero. *)
Definition model_anchor_point (model_image : ndarray) (x y w h : Z)
    : result (Z * Z) :=
  let '(x, y, x_end, y_end) := adjust_crop_area x y w h default_min_size in
  let model_crop_image := pil_crop model_image (x, y, x_end, y_end) in
  let detected_loc := detect_earlobe model_crop_image in
  if decide (length detected_loc ≠ 0%nat) then
    match detected_loc with
    | (box_x, box_y, box_w, box_h) :: _ =>
        let box_x_end := Z.quot (2 * box_x + box_w) 2 in
        let box_y_end := Z.quot (2 * box_y + box_h) 2 in
        Return (x + box_x_end, y + box_y_end)
    | [] => Raise IndexError
    end
  else Raise AssertionError.

End model_anchor_point.

(** *** The splitting pipeline *)

(** [np.argwhere(jewel_image[:, :, 0] > 0)]. *)
Definition nonzero_indices (jewel_image : ndarray) : list pixel :=
  filter (fun p => 0 < item jewel_image p.1 p.2 0) (grid (shape_2d jewel_image)).

(** [find_nonzero_pixel(jewel_image)]; [choice] is the outcome of
    [random.choice] as a function of the candidates. *)
Definition find_nonzero_pixel (choice : list pixel -> pixel)
    (jewel_image : ndarray) : option pixel :=
  let jewel_nonzero_indices := nonzero_indices jewel_image in
  if decide (length jewel_nonzero_indices = 0%nat) then None
  else Some (choice jewel_nonzero_indices).

(** An array with each pixel transformed according to its position. *)
Definition map_pixels (f : pixel -> list Z -> list Z) (a : ndarray) : ndarray :=
  imap (fun r (row : list (list Z)) =>
          imap (fun c px => f (Z.of_nat r, Z.of_nat c) px) row) a.

(** [Image.getpixel((x, y))]: column [x] of row [y]. *)
Definition getpixel (a : ndarray) (x y : nat) : result (list Z) :=
  match a !! y ≫= (.!! x) with
  | Some px => Return px
  | None => Raise IndexError
  end.

(** [extract_one_earring(jewel_nobg_image_array, filled_mask, path)] on an
    RGB array: the masked image gets an opaque alpha channel, every pixel
    equal to the one at (0, 0) is made transparent, and the result is saved
    when a path is given. *)
Definition extract_one_earring (jewel_nobg_image_array : ndarray)
    (filled_mask : gset pixel) (earring_save_path : string) (fs : files)
    : result files :=
  let masked_image :=
    map_pixels (fun p px =>
                  (fun v => v * (if decide (p ∈ filled_mask) then 1 else 0)) <$> px)
               jewel_nobg_image_array in
  let masked_image_rgb := map_pixels (fun _ px => px ++ [255]) masked_image in
  background_color ← getpixel masked_image_rgb 0 0;
  let transparent_image :=
    map_pixels (fun _ current_color =>
                  if decide (current_color ≠ background_color)
                  then current_color else [0; 0; 0; 0])
               masked_image_rgb in
  if decide (earring_save_path ≠ ""%string)
  then Return (<[earring_save_path := transparent_image]> fs)
  else Return fs.

(** [os.rename(src, dst)] with POSIX semantics: an existing file at [dst]
    is replaced silently. *)
Definition os_rename (fs : files) (src dst : string) : result files :=
  match fs !! src with
  | Some f => Return (<[dst := f]> (delete src fs))
  | None => Raise FileNotFoundError
  end.

(** [v[0]] on the value returned by [jewel_center]: subscripting [None]
    raises. *)
Definition subscript0 (v : option (Z * Z)) : result Z :=
  match v with
  | Some (cX, _) => Return cX
  | None => Raise TypeError
  end.

Section get_earring_pipeline.
(** The constants of [src/constants.py], which is not part of the sources
    at hand, are parameters. *)
Variables JEWEL_LEFT_PATH JEWEL_RIGHT_PATH : string.
(** The outcome of the n-th call of [random.choice]. *)
Variable random_choice : nat -> list pixel -> pixel.

(** [extract_the_other(jewel_nobg_image_array, filled_mask, path)]. *)
Definition extract_the_other (jewel_nobg_image_array : ndarray)
    (filled_mask : gset pixel) (earring_save_path : string) (fs : files)
    : result files :=
  let masked_image :=
    map_pixels (fun p px =>
                  imap (fun i v =>
                          if decide (i < 3)%nat
                          then v * (if decide (p ∈ filled_mask) then 0 else 1)
                          else 0) px)
               jewel_nobg_image_array in
  let start_pixel := find_nonzero_pixel (random_choice 1) masked_image in
  visited_pixels ←
    match start_pixel with
    | Some start => run_loop (flood_fill masked_image start None)
    | None => Return ∅
    end;
  contour_pixels ← get_contour visited_pixels (shape_2d masked_image);
  filled_mask ← fill_contour contour_pixels (shape_2d masked_image);
  extract_one_earring masked_image filled_mask earring_save_path fs.

(** [left_and_right(earring1_path, earring2_path)]. *)
Definition left_and_right (earring1_path earring2_path : string) (fs : files)
    : result files :=
  c1 ← jewel_center fs earring1_path;
  cX1 ← subscript0 c1;
  c2 ← jewel_center fs earring2_path;
  cX2 ← subscript0 c2;
  let '(left_earring_path, right_earring_path) :=
    if cX1 <? cX2 then (earring1_path, earring2_path)
    else (earring2_path, earring1_path) in
  fs ← os_rename fs left_earring_path JEWEL_LEFT_PATH;
  os_rename fs right_earring_path JEWEL_RIGHT_PATH.

(** [main()], from the RGB array of the background-removed jewelry image
    on. *)
Definition main (jewel_nobg_image_array : ndarray) (fs : files) : result files :=
  let start_pixel := find_nonzero_pixel (random_choice 0) jewel_nobg_image_array in
  visited_pixels ←
    match start_pixel with
    | Some start => run_loop (flood_fill jewel_nobg_image_array start None)
    | None => Return ∅
    end;
  contour_pixels ← get_contour visited_pixels (shape_2d jewel_nobg_image_array);
  filled_mask ← fill_contour contour_pixels (shape_2d jewel_nobg_image_array);
  fs ← extract_one_earring jewel_nobg_image_array filled_mask JEWEL_LEFT_PATH fs;
  fs ← extract_the_other jewel_nobg_image_array filled_mask JEWEL_RIGHT_PATH fs;
  left_and_right JEWEL_LEFT_PATH JEWEL_RIGHT_PATH fs.

End get_earring_pipeline.

(** An RGB array (three channels per pixel) with at least one pixel, and an
    RGBA array all of whose pixels are transparent black. *)
Definition rgb_image (a : ndarray) : Prop :=
  (∃ px, a !! 0%nat ≫= (.!! 0%nat) = Some px) ∧
  ∀ r c px, a !! r ≫= (.!! c) = Some px -> length px = 3%nat.

Definition transparent_image (a : ndarray) : Prop :=
  (∃ px, a !! 0%nat ≫= (.!! 0%nat) = Some px) ∧
  ∀ r c px, a !! r ≫= (.!! c) = Some px -> px = [0; 0; 0; 0].

(** Two cutouts of one row: an opaque pixel in column 3, and one in
    column 0. *)
Definition cutout_right : ndarray :=
  [ [ [0; 0; 0; 0]; [0; 0; 0; 0]; [0; 0; 0; 0]; [9; 9; 9; 255] ] ].

Definition cutout_left : ndarray :=
  [ [ [9; 9; 9; 255]; [0; 0; 0; 0]; [0; 0; 0; 0]; [0; 0; 0; 0] ] ].

(** A jewelry image with a bright pixel in column 1 and one in column 3. *)
Definition two_earrings : ndarray :=
  [ [ [0; 0; 0]; [0; 0; 0];    [0; 0; 0]; [0; 0; 0];    [0; 0; 0] ];
    [ [0; 0; 0]; [90; 90; 90]; [0; 0; 0]; [80; 80; 80]; [0; 0; 0] ];
    [ [0; 0; 0]; [0; 0; 0];    [0; 0; 0]; [0; 0; 0];    [0; 0; 0] ] ].

(** A cutout of 110 rows and one column, every pixel opaque. *)
Definition tall_cutout : ndarray := replicate 110 [ [9; 9; 9; 255] ].

Definition img_small : ndarray :=
  [ [ [0;0;0]; [200;1;1]; [0;0;0] ];
    [ [0;0;0]; [0;0;0];   [50;2;2] ];
    [ [5;0;0]; [0;0;0];   [0;0;0] ] ].

(** ** Further definitions for the remaining code *)

(** A valid index along an axis of length [n], negative indices included. *)
Definition np_valid (n : nat) (i : Z) : Prop := - Z.of_nat n <= i < Z.of_nat n.

(** The first stage of [main] and of [extract_the_other]: seed selection,
    flood fill, contour and fill. *)
Definition segment (choice : list pixel -> pixel) (img : ndarray)
    : result (gset pixel) :=
  let start_pixel := find_nonzero_pixel choice img in
  visited_pixels ←
    match start_pixel with
    | Some start => run_loop (flood_fill img start None)
    | None => Return ∅
    end;
  contour_pixels ← get_contour visited_pixels (shape_2d img);
  fill_contour contour_pixels (shape_2d img).

(** An outcome of [random.choice]: an element of the list it is given. *)
Definition picks (choice : list pixel -> pixel) : Prop :=
  ∀ l, l ≠ [] -> choice l ∈ l.

(** [a[r, c]] when the position exists. *)
Definition pixel_at (a : ndarray) (r c : nat) : option (list Z) :=
  a !! r ≫= (.!! c).

(** The image that [extract_the_other] searches: the channels of the pixels
    in the first mask set to zero. *)
Definition mask_out (jewel_nobg_image_array : ndarray)
    (filled_mask : gset pixel) : ndarray :=
  map_pixels (fun p px =>
                imap (fun i v =>
                        if decide (i < 3)%nat
                        then v * (if decide (p ∈ filled_mask) then 0 else 1)
                        else 0) px)
             jewel_nobg_image_array.

(** The cluster that [extract_the_other] grows in it. *)
Definition second_cluster (choice : list pixel -> pixel) (img : ndarray)
    (filled_mask : gset pixel) : result (gset pixel) :=
  match find_nonzero_pixel choice (mask_out img filled_mask) with
  | Some start => run_loop (flood_fill (mask_out img filled_mask) start None)
  | None => Return ∅
  end.


(** The vertical centroid of a mask, truncated: the mean row of its positive
    entries. *)
Definition centroid_y (mask : list (list Z)) : Z :=
  Z.quot (sum_list (where_rows mask)) (Z.of_nat (length (where_rows mask))).

(** *** ear_ring_place *)

(** What [ear_ring_place] can raise: a built-in exception, or the plain
    [Exception] with its message. *)
Inductive raised : Type :=
  | Builtin (e : exn)
  | PlainException (msg : string).

Abbreviation box := (Z * Z * Z * Z)%type.

(** The body of the loop [for i in range(min(len(detected_locations), 2))]
    for one index. *)
Definition place_ear (detected_locations : list box) (detected_keys : list string)
    (ear_dict : gmap string box) (i : nat) : raised + gmap string box :=
  match detected_locations !! i with
  | None => inl (Builtin IndexError)
  | Some b =>
      match detected_keys !! i with
      | None => inl (Builtin IndexError)
      | Some key =>
          if decide (key = "leftears"%string)
          then inr (<["left"%string := b]> ear_dict)
          else inr (<["right"%string := b]> ear_dict)
      end
  end.

Fixpoint place_ears (detected_locations : list box) (detected_keys : list string)
    (ear_dict : gmap string box) (indices : list nat)
    : raised + gmap string box :=
  match indices with
  | [] => inr ear_dict
  | i :: rest =>
      match place_ear detected_locations detected_keys ear_dict i with
      | inl e => inl e
      | inr d => place_ears detected_locations detected_keys d rest
      end
  end.

Section ear_ring_place.
(** The ear detector ([Detector(EAR_CLF_PATH).detect]) is an opaque
    capability: from a path it gives the boxes and their labels. *)
Variable detect_ear : string -> list box * list string.

(** [ear_ring_place(model_path)]; [cv2.imread] gives [None] when there is
    no image at the path. *)
Definition ear_ring_place (fs : files) (model_path : string)
    : raised + gmap string box :=
  match fs !! model_path with
  | None => inl (Builtin FileNotFoundError)
  | Some model_image =>
      let '(detected_locations, detected_keys) := detect_ear model_path in
      match place_ears detected_locations detected_keys ∅
              (seq 0 (Nat.min (length detected_locations) 2)) with
      | inl e => inl e
      | inr ear_dict =>
          if decide (ear_dict = ∅)
          then inl (PlainException "No ear detected in the image")
          else inr ear_dict
      end
  end.

End ear_ring_place.

(** The key under which a detection with label [key] is stored. *)
Definition ear_side (key : string) : string :=
  if decide (key = "leftears"%string) then "left"%string else "right"%string.

(** ** effect.py *)

(** [Image.open(path).convert("RGBA")] on a stored array: a pixel without
    alpha channel gets the alpha value 255, a grey value is repeated for the
    three colours. *)
Definition to_rgba (px : list Z) : list Z :=
  match px with
  | [v] => [v; v; v; 255]
  | [v; alpha] => [v; v; v; alpha]
  | [r; g; b] => [r; g; b; 255]
  | _ => px
  end.

Definition convert_rgba (a : ndarray) : ndarray :=
  (fun row : list (list Z) => to_rgba <$> row) <$> a.

(** [pixels[x, y]] and [pixels[x, y][3] > 0]: [x] is the column, [y] the
    row. *)
Definition pixel_xy (a : ndarray) (x y : nat) : list Z :=
  nth x (nth y a []) [].

Definition opaque_at (a : ndarray) (x y : nat) : bool :=
  0 <? nth 3 (pixel_xy a x y) 0.

(** [[y for y in range(h) if any(pixels[x, y][3] > 0 for x in range(w))]]. *)
Definition y_coords (a : ndarray) (w h : nat) : list nat :=
  filter (fun y => existsb (fun x => opaque_at a x y) (seq 0 w) = true)
         (seq 0 h).

(** [min] and [max] of a non-empty list of row indices. *)
Definition list_min (l : list nat) : nat := foldr Nat.min (hd 0%nat l) l.
Definition list_max (l : list nat) : nat := foldr Nat.max 0%nat l.

(** The first column with a visible pixel in row [y], scanning from the
    left when the light comes from the right and from the right otherwise:
    [next((x for x in ... if pixels[x, y][3] > 0), None)]. *)
Definition edge_x (right : bool) (a : ndarray) (w y : nat) : option nat :=
  List.find (fun x => opaque_at a x y)
            (if right then seq 0 w else reverse (seq 0 w)).

(** [jewel_output_pixels[x, y] = v]: a position outside the image raises. *)
Definition put_pixel (out : ndarray) (x y : nat) (v : list Z) : result ndarray :=
  match out !! y with
  | Some row =>
      if decide (x < length row)%nat
      then Return (<[y := <[x := v]> row]> out)
      else Raise IndexError
  | None => Raise IndexError
  end.

Fixpoint put_pixels (out : ndarray) (xs : list nat) (y : nat) (v : list Z)
    : result ndarray :=
  match xs with
  | [] => Return out
  | x :: xs' => out' ← put_pixel out x y v; put_pixels out' xs' y v
  end.

(** The columns [shadow_x] for [i] in [range(1, shadow_length + 1)]:
    [edge_x - i + shadow_length] or [edge_x + i]. *)
Definition shadow_xs (right : bool) (edge shadow_length : nat) : list nat :=
  (fun i => if right then (edge + shadow_length - i)%nat else (edge + i)%nat)
  <$> seq 1 shadow_length.

(** The body of the loop [for y in range(lowest_y, highest_y + 1)]. *)
Definition shadow_row (right : bool) (shadow_length : nat) (shadow_opacity : Z)
    (a : ndarray) (w : nat) (out : ndarray) (y : nat) : result ndarray :=
  match edge_x right a w y with
  | Some e =>
      let edge_color := take 3 (pixel_xy a e y) in
      put_pixels out (shadow_xs right e shadow_length) y
                 (edge_color ++ [shadow_opacity])
  | None => Return out
  end.

Fixpoint shadow_rows (right : bool) (shadow_length : nat) (shadow_opacity : Z)
    (a : ndarray) (w : nat) (out : ndarray) (ys : list nat) : result ndarray :=
  match ys with
  | [] => Return out
  | y :: ys' =>
      out' ← shadow_row right shadow_length shadow_opacity a w out y;
      shadow_rows right shadow_length shadow_opacity a w out' ys'
  end.

(** [Image.save(path)] picks the file format by the extension of the path
    and raises when it knows no format for the extension ([ValueError]) or
    when the format cannot hold the mode of the image ([OSError], as for an
    RGBA image and a JPEG path).  The table of formats belongs to PIL, not
    to the program: [save_error path] is what saving an RGBA image at
    [path] raises, [None] when the format at that path accepts the image,
    as PNG does. *)
Section add_colored_blur.
Variable save_error : string -> option exn.

Definition pil_save (fs : files) (path : string) (image : ndarray)
    : result files :=
  match save_error path with
  | Some e => Raise e
  | None => Return (<[path := image]> fs)
  end.

(** [add_colored_blur(jewel_path, light_direction, shadow_length,
    shadow_opacity)].  The output image starts transparent, [shadow_length]
    columns wider when the light comes from the right, and receives the
    input pixels shifted by [x_offset]. *)
Definition add_colored_blur (jewel_path light_direction : string)
    (shadow_length : nat) (shadow_opacity : Z) (fs : files) : result files :=
  match fs !! jewel_path with
  | None => Raise FileNotFoundError
  | Some stored =>
      let jewel_image := convert_rgba stored in
      let w := shape1 jewel_image in
      let h := shape0 jewel_image in
      let ys := y_coords jewel_image w h in
      if decide (ys = []) then Return fs
      else
        let lowest_y := list_min ys in
        let highest_y := list_max ys in
        let right := bool_decide (light_direction = "right"%string) in
        let x_offset := if right then shadow_length else 0%nat in
        let jewel_output_image :=
          (fun row : list (list Z) => replicate x_offset [0; 0; 0; 0] ++ row)
          <$> jewel_image in
        out ← shadow_rows right shadow_length shadow_opacity jewel_image w
                jewel_output_image
                (seq lowest_y (highest_y + 1 - lowest_y));
        pil_save fs jewel_path out
  end.

End add_colored_blur.

(** A table of formats that accepts an RGBA image at the one path given
    and knows no format for any other path. *)
Definition save_only_at (path : string) : string -> option exn :=
  fun p => if decide (p = path) then None else Some ValueError.

(** The defaults of the parameters. *)
Definition default_light_direction : string := "right".
Definition default_shadow_length : nat := 3.
Definition default_shadow_opacity : Z := 64.

(** A rectangular RGBA array of [h] rows and [w] columns. *)
Definition rgba_image (a : ndarray) (w h : nat) : Prop :=
  length a = h ∧ (0 < h)%nat ∧
  Forall (fun row => length row = w ∧ Forall (fun px => length px = 4%nat) row) a.

(** An earring of two rows: a red pixel in column 1 of row 0 and a green one
    in column 2 of row 1. *)
Definition small_earring : ndarray :=
  [ [ [0; 0; 0; 0]; [200; 0; 0; 255]; [0; 0; 0; 0] ];
    [ [0; 0; 0; 0]; [0; 0; 0; 0];     [0; 200; 0; 255] ] ].

(** Closed forms used in the proofs about the shadow loop: the row after
    the columns [xs] received [v], and row [y] of the output after the
    loop. *)
Definition fill_row (row : list (list Z)) (xs : list nat) (v : list Z)
    : list (list Z) :=
  foldl (fun r x => <[x := v]> r) row xs.

Definition shadowed_row (right : bool) (shadow_length : nat)
    (shadow_opacity : Z) (a : ndarray) (w y : nat) (row : list (list Z))
    : list (list Z) :=
  match edge_x right a w y with
  | Some e => fill_row row (shadow_xs right e shadow_length)
                       (take 3 (pixel_xy a e y) ++ [shadow_opacity])
  | None => row
  end.

(** * Properties *)

#[local] Set Warnings "-clear-no-such-hyp".

(** ** Grids and bounds *)

Lemma in_bounds_spec (shape : nat * nat) (p : pixel) :
  in_bounds shape p = true <->
  (0 <= p.1 < Z.of_nat shape.1) ∧ (0 <= p.2 < Z.of_nat shape.2).
Proof. unfold in_bounds. rewrite !andb_true_iff. lia. Qed.

Lemma elem_of_grid (shape : nat * nat) (p : pixel) :
  p ∈ grid shape <-> in_bounds shape p = true.
Proof.
  rewrite in_bounds_spec. unfold grid. rewrite list_elem_of_bind. split.
  - intros (r & Hp & Hr). apply list_elem_of_bind in Hp as (c & Hp & Hc).
    apply list_elem_of_singleton in Hp as ->.
    apply elem_of_seqZ in Hr, Hc. simpl. lia.
  - intros [Hr Hc]. exists (fst p). split.
    + apply list_elem_of_bind. exists (snd p). split.
      * destruct p; simpl. apply list_elem_of_singleton. reflexivity.
      * apply elem_of_seqZ. lia.
    + apply elem_of_seqZ. lia.
Qed.

Lemma size_list_to_set_le (l : list pixel) :
  (size (list_to_set l : gset pixel) <= length l)%nat.
Proof.
  induction l as [|x l IH].
  - rewrite list_to_set_nil, size_empty. simpl. lia.
  - rewrite list_to_set_cons, size_union_alt, size_singleton.
    assert (size (list_to_set l ∖ {[x]} : gset pixel)
            <= size (list_to_set l : gset pixel))%nat.
    { apply subseteq_size, subseteq_difference_l. reflexivity. }
    simpl length. lia.
Qed.

(** ** Flood fill *)

Section flood_fill_facts.
Variable img : ndarray.

Lemma length_grown_neighbors p : (length (grown_neighbors img p) <= 8)%nat.
Proof.
  unfold grown_neighbors.
  etransitivity; [apply length_filter|]. destruct p; simpl. lia.
Qed.

Lemma elem_of_grown_neighbors p q :
  q ∈ grown_neighbors img p <-> q ∈ neighbors8 p ∧ grows img q = true.
Proof. unfold grown_neighbors. rewrite list_elem_of_filter. tauto. Qed.

Lemma grows_in_grid q :
  grows img q = true -> q ∈ grid (shape_2d img).
Proof.
  unfold grows. rewrite andb_true_iff. intros [H _]. by apply elem_of_grid.
Qed.

(** *** Termination: the fuel of [flood_fill] is never exhausted *)

Lemma flood_loop_fuel (U : gset pixel) :
  (∀ q, grows img q = true -> q ∈ U) ->
  ∀ fuel stack V,
    (∀ p, p ∈ stack -> p ∈ U) ->
    (length stack + 9 * size (U ∖ V) < fuel)%nat ->
    is_Some (flood_loop fuel img stack V).
Proof.
  intros HU fuel. induction fuel as [|fuel IH]; intros stack V Hst Hlt; [lia|].
  destruct stack as [|p stack]; simpl; [eauto|].
  destruct (decide (p ∈ V)) as [Hin|Hnin].
  - apply IH.
    + intros q Hq. apply Hst. set_solver.
    + simpl in Hlt. lia.
  - apply IH.
    + intros q Hq. apply elem_of_app in Hq as [Hq|Hq].
      * apply elem_of_reverse, elem_of_grown_neighbors in Hq as [_ Hq]. auto.
      * apply Hst. set_solver.
    + assert (size (U ∖ ({[p]} ∪ V)) < size (U ∖ V))%nat.
      { apply subset_size. assert (p ∈ U) by (apply Hst; set_solver).
        set_solver. }
      rewrite length_app, length_reverse.
      pose proof (length_grown_neighbors p). simpl in Hlt. lia.
Qed.

Lemma flood_fill_terminates start visited :
  is_Some (flood_fill img start visited).
Proof.
  unfold flood_fill, flood_fuel.
  set (G := grid (shape_2d img)).
  apply (flood_loop_fuel ({[start]} ∪ list_to_set G)).
  - intros q Hq. apply grows_in_grid in Hq. set_solver.
  - intros p Hp. set_solver.
  - assert (size (({[start]} ∪ list_to_set G) ∖ default ∅ visited : gset pixel)
            <= length G + 1)%nat.
    { etransitivity; [apply subseteq_size; apply subseteq_difference_l; reflexivity|].
      rewrite size_union_alt, size_singleton.
      assert (size (list_to_set G ∖ {[start]} : gset pixel) <= length G)%nat.
      { etransitivity; [apply subseteq_size|apply size_list_to_set_le].
        set_solver. }
      lia. }
    simpl length. lia.
Qed.

End flood_fill_facts.

Section flood_fill_correct.
Variables (img : ndarray) (start : pixel).

Lemma flood_inv_init : flood_inv img start ([start], ∅).
Proof.
  repeat split; simpl.
  - intros p ->%list_elem_of_singleton. constructor.
  - set_solver.
  - left. set_solver.
  - set_solver.
Qed.

Lemma pick_step_inv st st' :
  flood_inv img start st -> pick_step img st st' -> flood_inv img start st'.
Proof.
  intros (Hst & Hv & Hs & Hcl) Hstep.
  destruct Hstep as [l1 p l2 V Hp | l1 p l2 V Hp]; simpl in *.
  - repeat split; simpl.
    + intros q Hq. apply Hst. set_solver.
    + exact Hv.
    + destruct Hs as [Hs|Hs]; [|by right].
      rewrite elem_of_app, elem_of_cons in Hs.
      destruct Hs as [Hs|[->|Hs]]; [left|by right|left]; set_solver.
    + intros a b Ha Hb Hg. destruct (Hcl a b Ha Hb Hg) as [Hq|Hq]; [|by right].
      rewrite elem_of_app, elem_of_cons in Hq.
      destruct Hq as [Hq|[->|Hq]]; [left|by right|left]; set_solver.
  - assert (reach img start p) as Hrp by (apply Hst; set_solver).
    repeat split; simpl.
    + intros q Hq. rewrite !elem_of_app in Hq.
      destruct Hq as [Hq|[Hq|Hq]]; [apply Hst; set_solver..|].
      apply elem_of_grown_neighbors in Hq as [Hq1 Hq2].
      by apply (reach_grow img start p q).
    + intros q [->%elem_of_singleton|Hq]%elem_of_union; auto.
    + destruct Hs as [Hs|Hs]; [|right; set_solver].
      rewrite elem_of_app, elem_of_cons in Hs.
      destruct Hs as [Hs|[->|Hs]]; [left|right|left]; set_solver.
    + intros a b [->%elem_of_singleton|Ha]%elem_of_union Hb Hg.
      * left. rewrite !elem_of_app. right; right.
        by apply elem_of_grown_neighbors.
      * destruct (Hcl a b Ha Hb Hg) as [Hq|Hq]; [|right; set_solver].
        rewrite elem_of_app, elem_of_cons in Hq.
        destruct Hq as [Hq|[->|Hq]]; [left|right|left]; set_solver.
Qed.

Lemma rtc_pick_step_inv st st' :
  flood_inv img start st -> rtc (pick_step img) st st' ->
  flood_inv img start st'.
Proof. intros Hinv Hrtc. induction Hrtc; eauto using pick_step_inv. Qed.

(** When the work list is empty the visited set is closed under growing
    neighbours, hence holds every reachable pixel. *)
Lemma flood_inv_final V :
  flood_inv img start ([], V) -> ∀ p, p ∈ V <-> reach img start p.
Proof.
  intros (_ & Hv & Hs & Hcl) p; simpl in *. split; [apply Hv|].
  induction 1 as [|a b Ha IH Hb Hg].
  - destruct Hs as [Hs|Hs]; [|done]. by apply elem_of_nil in Hs.
  - destruct (Hcl a b IH Hb Hg) as [Hq|Hq]; [|done]. by apply elem_of_nil in Hq.
Qed.

Lemma any_order_run_reach V :
  any_order_run img start V -> ∀ p, p ∈ V <-> reach img start p.
Proof.
  intros Hrun. apply flood_inv_final.
  eapply rtc_pick_step_inv; [apply flood_inv_init|exact Hrun].
Qed.

(** The loop of the source is one of the runs: it always takes the last
    entry of the list. *)
Lemma flood_loop_run fuel stack V V' :
  flood_loop fuel img stack V = Some V' ->
  rtc (pick_step img) (reverse stack, V) ([], V').
Proof.
  revert stack V. induction fuel as [|fuel IH]; intros stack V Hrun; [done|].
  destruct stack as [|p stack]; simpl in Hrun.
  - injection Hrun as <-. constructor.
  - rewrite reverse_cons. destruct (decide (p ∈ V)) as [Hin|Hnin].
    + eapply rtc_l; [by apply pick_seen|].
      rewrite app_nil_r. by apply IH.
    + eapply rtc_l; [by apply pick_new|]. simpl.
      apply IH in Hrun.
      by rewrite reverse_app, reverse_involutive in Hrun.
Qed.

Lemma flood_fill_any_order_run V :
  flood_fill img start None = Some V -> any_order_run img start V.
Proof. intros H. by apply flood_loop_run in H. Qed.

(** [flood_fill] returns, and returns the reachable pixels. *)
Lemma flood_fill_reach :
  ∃ V, flood_fill img start None = Some V ∧ ∀ p, p ∈ V <-> reach img start p.
Proof.
  destruct (flood_fill_terminates img start None) as [V HV].
  exists V. split; [done|].
  by apply any_order_run_reach, flood_fill_any_order_run.
Qed.

End flood_fill_correct.

Section flood_fill_region.
Variables (img : ndarray) (seed : pixel).
Hypothesis seed_grows : grows img seed = true.

Lemma reach_grows p : reach img seed p -> grows img p = true.
Proof. by induction 1. Qed.

Lemma chain_reach (S : gset pixel) p :
  (∀ q, q ∈ S -> grows img q = true) -> chain S seed p -> reach img seed p.
Proof.
  intros HS. revert p. unfold chain. apply rtc_ind_r.
  - constructor.
  - intros a b _ [Hb Hin] IH. eapply reach_grow; eauto.
Qed.

Lemma reach_chain (V : gset pixel) p :
  (∀ q, reach img seed q -> q ∈ V) -> reach img seed p -> chain V seed p.
Proof.
  intros HV. induction 1 as [|a b Ha IH Hb Hg]; [constructor|].
  eapply rtc_r; [exact IH|]. split; [done|].
  apply HV. by eapply reach_grow.
Qed.

Lemma reach_maximal_region (V : gset pixel) :
  (∀ p, p ∈ V <-> reach img seed p) -> maximal_region img seed V.
Proof.
  intros HV. split; [split; [|split]|].
  - apply HV. constructor.
  - intros p Hp%HV. by apply reach_grows.
  - intros p Hp%HV. apply reach_chain; [|done]. intros q. apply HV.
  - intros S' (_ & Hg & Hch) p Hp. apply HV.
    eapply chain_reach; eauto.
Qed.

Lemma maximal_region_unique (S V : gset pixel) :
  maximal_region img seed S -> maximal_region img seed V -> S = V.
Proof.
  intros [HS HSmax] [HV HVmax].
  apply (anti_symm (⊆)); auto.
Qed.

Lemma reach_single_blob (V B : gset pixel) :
  (∀ p, p ∈ V <-> reach img seed p) -> single_blob img B -> seed ∈ B -> V = B.
Proof.
  intros HV [HB Hconn] Hseed. apply set_eq. intros p. split.
  - intros Hp%HV. by apply HB, reach_grows.
  - intros Hp. apply HV. apply (chain_reach B); [|by apply Hconn].
    intros q. apply HB.
Qed.

End flood_fill_region.

(** C1 (as amended): for every image and every seed pixel that itself passes
    the growth test (in bounds, first channel > 10), [flood_fill] returns,
    and returns the maximal 8-connected region of pixels passing the test
    that contains the seed; that region is unique, any order of taking
    pixels from the work list ends with the same set, and when the image
    holds a single 8-connected blob of such pixels and nothing else, a seed
    anywhere in the blob returns exactly the blob. *)
Theorem flood_fill_maximal_region (img : ndarray) (seed : pixel) :
  grows img seed = true -> flood_fill_spec img seed.
Proof.
  intros Hseed.
  destruct (flood_fill_reach img seed) as (V & Hrun & HV).
  pose proof (reach_maximal_region img seed Hseed V HV) as Hmax.
  exists V. split; [done|]. split; [done|]. split; [|split].
  - intros S HS. by apply (maximal_region_unique img seed).
  - intros V' Hany. pose proof (any_order_run_reach img seed V' Hany) as HV'.
    apply set_eq. intros p. by rewrite HV, HV'.
  - intros B HB Hin. by apply (reach_single_blob img seed Hseed).
Qed.

Example flood_fill_small :
  elements <$> flood_fill img_small (0, 1) None = Some [(0, 1); (1, 2)].
Proof. vm_compute. reflexivity. Qed.

Lemma flood_fill_maximal_region_witness :
  grows img_small (0, 1) = true ∧ flood_fill_spec img_small (0, 1).
Proof.
  split; [reflexivity|]. apply flood_fill_maximal_region. reflexivity.
Defined.

(** C1 as stated fails at a seed that passes the seed-selection test
    (first channel > 0) but not the growth test (> 10): the seed is put in
    the result although it does not pass the growth test. *)
Lemma flood_fill_seed_below_threshold :
  ¬ flood_fill_spec [ [ [5; 5; 5] ] ] (0, 0).
Proof.
  intros (V & _ & [(Hin & Hg & _) _] & _).
  specialize (Hg _ Hin). vm_compute in Hg. discriminate.
Qed.

Example flood_fill_seed_below_threshold_value :
  elements <$> flood_fill [ [ [5; 5; 5] ] ] (0, 0) None = Some [(0, 0)].
Proof. vm_compute. reflexivity. Qed.

(** ** Contour extraction *)

Lemma elem_of_neighbors8 (p q : pixel) :
  q ∈ neighbors8 p <->
  (p.1 - 1 <= q.1 <= p.1 + 1) ∧ (p.2 - 1 <= q.2 <= p.2 + 1) ∧ q ≠ p.
Proof.
  destruct p as [x y], q as [a b]. cbn.
  rewrite !elem_of_cons, elem_of_nil. split.
  - intros H. destruct_or!; simplify_eq; (split_and!; [lia..|intros [=]; lia]).
  - intros (Ha & Hb & Hne).
    assert (a = x + -1 ∨ a = x + 0 ∨ a = x + 1) as Ha' by lia.
    assert (b = y + -1 ∨ b = y + 0 ∨ b = y + 1) as Hb' by lia.
    destruct Ha' as [-> | [-> | ->]], Hb' as [-> | [-> | ->]];
      try (exfalso; apply Hne; f_equal; lia); tauto.
Qed.

Lemma mask_set_all_in_bounds (shape : nat * nat) (ps : list pixel) (mask : gset pixel) :
  (∀ p, p ∈ ps -> in_bounds shape p = true) ->
  mask_set_all shape mask ps = Return (list_to_set ps ∪ mask).
Proof.
  revert mask. induction ps as [|p ps IH]; intros mask Hps; simpl.
  - f_equal. set_solver.
  - assert (in_bounds shape p = true) as Hp by (apply Hps; set_solver).
    apply in_bounds_spec in Hp. unfold mask_set, np_index.
    destruct (0 <=? p.1) eqn:E1; [|lia].
    destruct (p.1 <? Z.of_nat shape.1) eqn:E2; [|lia].
    destruct (0 <=? p.2) eqn:E3; [|lia].
    destruct (p.2 <? Z.of_nat shape.2) eqn:E4; [|lia]. simpl.
    rewrite IH by (intros q Hq; apply Hps; set_solver).
    f_equal. destruct p. set_solver.
Qed.

Lemma is_edge_spec (shape : nat * nat) (mask : gset pixel) p :
  is_edge shape mask p = true <->
  ∃ q, q ∈ neighbors8 p ∧ in_bounds shape q = true ∧ q ∉ mask.
Proof.
  unfold is_edge. rewrite existsb_exists. split.
  - intros (q & Hq & Hc). exists q. apply andb_true_iff in Hc as [Hb Hm].
    apply negb_true_iff, bool_decide_eq_false in Hm.
    by rewrite list_elem_of_In.
  - intros (q & Hq & Hb & Hm). exists q. rewrite <- list_elem_of_In.
    split; [done|]. apply andb_true_iff. split; [done|].
    by apply negb_true_iff, bool_decide_eq_false.
Qed.

(** On a cluster that lies within the image shape, [get_contour] returns
    the members that have an in-bounds neighbour outside the cluster. *)
Lemma get_contour_in_bounds (cluster : gset pixel) (shape : nat * nat) :
  (∀ p, p ∈ cluster -> in_bounds shape p = true) ->
  ∃ C, get_contour cluster shape = Return C ∧
       ∀ p, p ∈ C <->
            p ∈ cluster ∧
            ∃ q, q ∈ neighbors8 p ∧ in_bounds shape q = true ∧ q ∉ cluster.
Proof.
  intros Hin. unfold get_contour.
  rewrite mask_set_all_in_bounds
    by (intros p Hp; apply Hin; by apply elem_of_elements).
  eexists. split; [reflexivity|]. intros p.
  rewrite elem_of_list_to_set, list_elem_of_filter, elem_of_elements.
  rewrite is_edge_spec.
  assert (list_to_set (elements cluster) ∪ ∅ = cluster) as ->; [|tauto].
  rewrite list_to_set_elements_L. set_solver.
Qed.

Lemma elem_of_rectangle r0 r1 c0 c1 (p : pixel) :
  p ∈ rectangle r0 r1 c0 c1 <-> (r0 <= p.1 <= r1) ∧ (c0 <= p.2 <= c1).
Proof.
  unfold rectangle. rewrite elem_of_list_to_set, list_elem_of_bind. split.
  - intros (r & Hp & Hr). apply list_elem_of_bind in Hp as (c & Hp & Hc).
    apply list_elem_of_singleton in Hp as ->.
    apply elem_of_seqZ in Hr, Hc. simpl. lia.
  - intros [Hr Hc]. exists (p.1). split.
    + apply list_elem_of_bind. exists (p.2). split.
      * destruct p; simpl. apply list_elem_of_singleton. reflexivity.
      * apply elem_of_seqZ. lia.
    + apply elem_of_seqZ. lia.
Qed.

Lemma elem_of_perimeter r0 r1 c0 c1 (p : pixel) :
  p ∈ perimeter r0 r1 c0 c1 <->
  ((r0 <= p.1 <= r1) ∧ (c0 <= p.2 <= c1)) ∧
  (p.1 = r0 ∨ p.1 = r1 ∨ p.2 = c0 ∨ p.2 = c1).
Proof.
  unfold perimeter. rewrite elem_of_filter, elem_of_rectangle. tauto.
Qed.

Lemma rectangle_edge_perimeter (shape : nat * nat) r0 r1 c0 c1 (p : pixel) :
  inside_margin shape r0 r1 c0 c1 ->
  p ∈ rectangle r0 r1 c0 c1 ∧
  (∃ q, q ∈ neighbors8 p ∧ in_bounds shape q = true ∧
        q ∉ rectangle r0 r1 c0 c1)
  <-> p ∈ perimeter r0 r1 c0 c1.
Proof.
  intros (Hr0 & Hr1 & Hc0 & Hc1). rewrite elem_of_perimeter. split.
  - intros [Hp (q & Hq & Hb & Hout)]. split; [by apply elem_of_rectangle|].
    apply elem_of_rectangle in Hp. rewrite elem_of_rectangle in Hout.
    apply elem_of_neighbors8 in Hq. lia.
  - intros [Hp Hside]. split; [by apply elem_of_rectangle|].
    destruct p as [r c]; simpl in *.
    destruct Hside as [-> | [-> | [-> | ->]]].
    + exists (r0 - 1, c).
      rewrite elem_of_neighbors8, in_bounds_spec, elem_of_rectangle; simpl.
      split_and!; try lia. intros [=]; lia.
    + exists (r1 + 1, c).
      rewrite elem_of_neighbors8, in_bounds_spec, elem_of_rectangle; simpl.
      split_and!; try lia. intros [=]; lia.
    + exists (r, c0 - 1).
      rewrite elem_of_neighbors8, in_bounds_spec, elem_of_rectangle; simpl.
      split_and!; try lia. intros [=]; lia.
    + exists (r, c1 + 1).
      rewrite elem_of_neighbors8, in_bounds_spec, elem_of_rectangle; simpl.
      split_and!; try lia. intros [=]; lia.
Qed.

Lemma rectangle_in_bounds (shape : nat * nat) r0 r1 c0 c1 (p : pixel) :
  inside_margin shape r0 r1 c0 c1 ->
  p ∈ rectangle r0 r1 c0 c1 -> in_bounds shape p = true.
Proof.
  intros (Hr0 & Hr1 & Hc0 & Hc1) Hp%elem_of_rectangle.
  apply in_bounds_spec. lia.
Qed.

Lemma get_contour_rectangle (shape : nat * nat) r0 r1 c0 c1 :
  inside_margin shape r0 r1 c0 c1 ->
  get_contour (rectangle r0 r1 c0 c1) shape = Return (perimeter r0 r1 c0 c1).
Proof.
  intros Hm.
  destruct (get_contour_in_bounds (rectangle r0 r1 c0 c1) shape)
    as (C & HC1 & HC).
  { intros p. by apply rectangle_in_bounds. }
  rewrite HC1. f_equal. apply set_eq. intros p.
  by rewrite HC, rectangle_edge_perimeter.
Qed.

(** C5 (as amended): for every image shape and every cluster whose members
    all lie within it, [get_contour] returns the set of cluster members that
    have at least one 8-neighbour within the shape and outside the cluster
    (out-of-bounds neighbours do not count); that set is a subset of the
    cluster; and for a solid filled rectangle that leaves at least one pixel
    of margin to every image border it is exactly the rectangle's
    perimeter. *)
Theorem get_contour_within_shape (cluster : gset pixel) (shape : nat * nat) :
  (∀ p, p ∈ cluster -> in_bounds shape p = true) ->
  ∃ C, get_contour cluster shape = Return C ∧
       (∀ p, p ∈ C <->
             p ∈ cluster ∧
             ∃ q, q ∈ neighbors8 p ∧ in_bounds shape q = true ∧ q ∉ cluster) ∧
       C ⊆ cluster ∧
       (∀ r0 r1 c0 c1,
          cluster = rectangle r0 r1 c0 c1 ->
          inside_margin shape r0 r1 c0 c1 ->
          C = perimeter r0 r1 c0 c1).
Proof.
  intros Hin.
  destruct (get_contour_in_bounds cluster shape Hin) as (C & HC1 & HC).
  exists C. split_and!; [done|done| |].
  - intros p Hp%HC. tauto.
  - intros r0 r1 c0 c1 -> Hm.
    rewrite (get_contour_rectangle shape r0 r1 c0 c1 Hm) in HC1.
    by injection HC1.
Qed.

Lemma get_contour_within_shape_witness :
  (∀ p, p ∈ rectangle 1 3 1 3 -> in_bounds (5, 5)%nat p = true) ∧
  ∃ C, get_contour (rectangle 1 3 1 3) (5, 5)%nat = Return C ∧
       (∀ p, p ∈ C <->
             p ∈ rectangle 1 3 1 3 ∧
             ∃ q, q ∈ neighbors8 p ∧ in_bounds (5, 5)%nat q = true ∧
                  q ∉ rectangle 1 3 1 3) ∧
       C ⊆ rectangle 1 3 1 3 ∧
       (∀ r0 r1 c0 c1,
          rectangle 1 3 1 3 = rectangle r0 r1 c0 c1 ->
          inside_margin (5, 5)%nat r0 r1 c0 c1 ->
          C = perimeter r0 r1 c0 c1).
Proof.
  assert (∀ p, p ∈ rectangle 1 3 1 3 -> in_bounds (5, 5)%nat p = true) as H.
  { intros p Hp%elem_of_rectangle. apply in_bounds_spec. simpl. lia. }
  split; [exact H|]. exact (get_contour_within_shape _ _ H).
Defined.

Example get_contour_ring :
  (elements <$> get_contour (rectangle 1 3 1 3) (5, 5)%nat) =
  Return [(3, 3); (1, 3); (3, 1); (3, 2); (1, 2); (1, 1); (2, 3); (2, 1)].
Proof. vm_compute. reflexivity. Qed.

(** C5 as stated fails twice.  A rectangle that touches the image border
    loses the perimeter pixels whose only outside neighbours are out of
    bounds: the cluster that fills a 1 x 1 image has an empty contour.  And
    on a cluster with a member outside the shape the mask write raises. *)
Lemma get_contour_border_rectangle :
  ¬ get_contour_spec (rectangle 0 0 0 0) (1, 1)%nat ∧
  ¬ get_contour_spec {[ (5, 5) ]} (1, 1)%nat.
Proof.
  split.
  - intros (C & _ & HC & _ & Hrect).
    specialize (Hrect 0 0 0 0 eq_refl).
    assert ((0, 0) ∈ C) as Hin.
    { rewrite Hrect. apply elem_of_perimeter. simpl. lia. }
    apply HC in Hin as (_ & q & Hq & Hb & _).
    apply elem_of_neighbors8 in Hq as (_ & _ & Hne).
    apply in_bounds_spec in Hb. simpl in *.
    apply Hne. destruct q; simpl in *. f_equal; lia.
  - intros (C & HC & _). vm_compute in HC. discriminate.
Qed.

Example get_contour_full_frame :
  (elements <$> get_contour (rectangle 0 0 0 0) (1, 1)%nat) = Return [].
Proof. vm_compute. reflexivity. Qed.

(** ** Contour filling *)

Lemma elem_of_neighbors4 (p q : pixel) :
  q ∈ neighbors4 p <->
  q = (p.1 - 1, p.2) ∨ q = (p.1, p.2 - 1) ∨
  q = (p.1, p.2 + 1) ∨ q = (p.1 + 1, p.2).
Proof.
  unfold neighbors4. rewrite !elem_of_cons, elem_of_nil. tauto.
Qed.

Lemma length_bind_const {A B : Type} (f : A -> list B) (n : nat) (l : list A) :
  (∀ x, length (f x) = n) -> length (l ≫= f) = (length l * n)%nat.
Proof.
  intros Hf. induction l as [|x l IH]; [done|].
  rewrite bind_cons, length_app, Hf, IH. simpl. lia.
Qed.

Lemma length_grid (shape : nat * nat) :
  length (grid shape) = (shape.1 * shape.2)%nat.
Proof.
  unfold grid.
  rewrite (length_bind_const _ shape.2).
  - rewrite length_seqZ. lia.
  - intros r. rewrite (length_bind_const _ 1%nat) by done.
    rewrite length_seqZ. lia.
Qed.

Section fill_holes.
Variables (shape : nat * nat) (mask : gset pixel).

Lemma elem_of_dilate_outside (o : gset pixel) (p : pixel) :
  p ∈ dilate_outside shape mask o <->
  in_bounds shape p = true ∧ (p ∉ mask) ∧
  (p ∈ o ∨ ∃ q, q ∈ neighbors4 p ∧ (in_bounds shape q = false ∨ q ∈ o)).
Proof.
  unfold dilate_outside.
  rewrite elem_of_list_to_set, list_elem_of_filter, elem_of_grid, Exists_exists.
  tauto.
Qed.

Lemma dilate_outside_mono (o o' : gset pixel) :
  o ⊆ o' -> dilate_outside shape mask o ⊆ dilate_outside shape mask o'.
Proof.
  intros Hsub p. rewrite !elem_of_dilate_outside.
  intros (Hb & Hm & [Hp | (q & Hq & [Hq' | Hq'])]); split_and!; eauto 6.
Qed.

Lemma outside_step (k : nat) :
  Nat.iter k (dilate_outside shape mask) ∅
  ⊆ Nat.iter (S k) (dilate_outside shape mask) ∅.
Proof.
  induction k as [|k IH]; [set_solver|].
  simpl in *. by apply dilate_outside_mono.
Qed.

Lemma outside_mono (k k' : nat) :
  (k <= k')%nat ->
  Nat.iter k (dilate_outside shape mask) ∅
  ⊆ Nat.iter k' (dilate_outside shape mask) ∅.
Proof.
  induction 1 as [|k' _ IH]; [done|].
  etransitivity; [exact IH|apply outside_step].
Qed.

(** A background pixel from which a straight run of background pixels
    leaves the array after [k + 1] steps is outside after [k + 1] rounds. *)
Lemma ray_outside (dr dc : Z) :
  (∀ p : pixel, (p.1 + dr, p.2 + dc) ∈ neighbors4 p) ->
  ∀ (k : nat) (p : pixel),
    in_bounds shape p = true ->
    (∀ j (q : pixel), 0 <= j <= Z.of_nat k ->
       q.1 = p.1 + j * dr -> q.2 = p.2 + j * dc -> q ∉ mask) ->
    (∀ q : pixel, q.1 = p.1 + (Z.of_nat k + 1) * dr ->
       q.2 = p.2 + (Z.of_nat k + 1) * dc -> in_bounds shape q = false) ->
    p ∈ Nat.iter (S k) (dilate_outside shape mask) ∅.
Proof.
  intros Hd. induction k as [|k IH]; intros p Hp Hbg Hout.
  - simpl. apply elem_of_dilate_outside. split_and!; [done| |].
    + apply (Hbg 0); lia.
    + right. exists (p.1 + dr, p.2 + dc). split; [apply Hd|].
      left. apply Hout; simpl; lia.
  - change (p ∈ dilate_outside shape mask
                 (Nat.iter (S k) (dilate_outside shape mask) ∅)).
    apply elem_of_dilate_outside. split_and!; [done| |].
    + apply (Hbg 0); lia.
    + right. exists (p.1 + dr, p.2 + dc). split; [apply Hd|].
      destruct (in_bounds shape (p.1 + dr, p.2 + dc)) eqn:Hnext; [|by left].
      right. apply IH; [done| |].
      * intros j q Hj Hq1 Hq2. apply (Hbg (j + 1)); simpl in *; lia.
      * intros q Hq1 Hq2. apply Hout; simpl in *; lia.
Qed.

Lemma outside_in_grid (k : nat) :
  Nat.iter k (dilate_outside shape mask) ∅ ⊆ list_to_set (grid shape).
Proof.
  destruct k as [|k]; [set_solver|]. simpl. intros p.
  rewrite elem_of_dilate_outside, elem_of_list_to_set, elem_of_grid. tauto.
Qed.

Lemma outside_progress (k : nat) :
  dilate_outside shape mask (Nat.iter k (dilate_outside shape mask) ∅)
    = Nat.iter k (dilate_outside shape mask) ∅ ∨
  (k <= size (Nat.iter k (dilate_outside shape mask) ∅))%nat.
Proof.
  induction k as [|k IH]; [right; lia|].
  set (o := Nat.iter k (dilate_outside shape mask) ∅) in *.
  change (Nat.iter (S k) (dilate_outside shape mask) ∅)
    with (dilate_outside shape mask o).
  destruct (decide (dilate_outside shape mask o = o)) as [Heq|Hne].
  - left. by rewrite !Heq.
  - right. destruct IH as [IH|IH]; [done|].
    assert (o ⊂ dilate_outside shape mask o) as Hlt.
    { split; [apply (outside_step k)|]. intros Hsub. apply Hne.
      apply (anti_symm (⊆)); [done|apply (outside_step k)]. }
    apply subset_size in Hlt. lia.
Qed.

(** The number of rounds of [binary_fill_holes] reaches the fixed point of
    the dilation. *)
Lemma outside_stable :
  let o := Nat.iter (length (grid shape)) (dilate_outside shape mask) ∅ in
  dilate_outside shape mask o = o.
Proof.
  intros o. destruct (outside_progress (length (grid shape))) as [H|H]; [done|].
  fold o in H. symmetry. apply set_subseteq_size_eq.
  - apply (outside_step (length (grid shape))).
  - etransitivity; [|exact H].
    etransitivity; [apply subseteq_size, (outside_in_grid (S (length (grid shape))))|].
    apply size_list_to_set_le.
Qed.

Lemma outside_exterior (k : nat) (p : pixel) :
  p ∈ Nat.iter k (dilate_outside shape mask) ∅ -> exterior shape mask p.
Proof.
  revert p. induction k as [|k IH]; intros p; [set_solver|].
  simpl. rewrite elem_of_dilate_outside.
  intros (Hb & Hm & [Hp | (q & Hq & [Hq' | Hq'])]).
  - by apply IH.
  - by apply (exterior_border shape mask p q).
  - apply (exterior_step shape mask p q); auto.
Qed.

Lemma exterior_outside (p : pixel) :
  exterior shape mask p ->
  p ∈ Nat.iter (length (grid shape)) (dilate_outside shape mask) ∅.
Proof.
  induction 1 as [p q Hb Hm Hq Hout | p q Hb Hm Hq _ IH];
    rewrite <- outside_stable; apply elem_of_dilate_outside;
    split_and!; eauto.
Qed.

(** [binary_fill_holes] sets exactly the positions that are not background
    reachable from outside the array. *)
Lemma elem_of_binary_fill_holes (p : pixel) :
  p ∈ binary_fill_holes shape mask <->
  in_bounds shape p = true ∧ ¬ exterior shape mask p.
Proof.
  unfold binary_fill_holes.
  rewrite elem_of_list_to_set, list_elem_of_filter, elem_of_grid. split.
  - intros [Hout Hb]. split; [done|]. intros Hext. by apply Hout, exterior_outside.
  - intros [Hb Hext]. split; [|done]. intros Hout. by apply Hext, (outside_exterior _ p Hout).
Qed.

End fill_holes.

Section fill_rectangle.
Variables (shape : nat * nat) (r0 r1 c0 c1 : Z).
Hypothesis margin : inside_margin shape r0 r1 c0 c1.

Lemma rectangle_never_outside (k : nat) (p : pixel) :
  p ∈ rectangle r0 r1 c0 c1 ->
  p ∉ Nat.iter k (dilate_outside shape (perimeter r0 r1 c0 c1)) ∅.
Proof.
  destruct margin as (Hr0 & Hr1 & Hc0 & Hc1).
  revert p. induction k as [|k IH]; intros p Hp; [set_solver|].
  simpl. rewrite elem_of_dilate_outside, elem_of_perimeter.
  intros (_ & Hper & Hq).
  pose proof Hp as Hp'. apply elem_of_rectangle in Hp'.
  destruct Hq as [Hq | (q & Hq & Hq')]; [by apply (IH p)|].
  assert (q ∈ rectangle r0 r1 c0 c1) as Hqr.
  { apply elem_of_rectangle. apply elem_of_neighbors4 in Hq.
    destruct Hq as [-> | [-> | [-> | ->]]]; simpl; lia. }
  destruct Hq' as [Hq' | Hq']; [|by apply (IH q)].
  rewrite (rectangle_in_bounds shape r0 r1 c0 c1 q margin Hqr) in Hq'.
  discriminate.
Qed.

Lemma beyond_rectangle_outside (p : pixel) :
  in_bounds shape p = true -> p ∉ rectangle r0 r1 c0 c1 ->
  p ∈ Nat.iter (length (grid shape))
        (dilate_outside shape (perimeter r0 r1 c0 c1)) ∅.
Proof.
  intros Hp Hout. rewrite elem_of_rectangle in Hout.
  pose proof Hp as Hb. apply in_bounds_spec in Hb.
  assert (Z.of_nat (length (grid shape)) = Z.of_nat shape.1 * Z.of_nat shape.2)
    as Hlen by (rewrite length_grid; lia).
  assert (p.1 < r0 ∨ r1 < p.1 ∨ p.2 < c0 ∨ c1 < p.2) as Hside by lia.
  destruct Hside as [Hs | [Hs | [Hs | Hs]]].
  - eapply (outside_mono _ _ (S (Z.to_nat p.1))); [nia|].
    apply (ray_outside _ _ (-1) 0); [| done | |].
    + intros q. apply elem_of_neighbors4. left. f_equal; lia.
    + intros j q Hj Hq1 Hq2. rewrite elem_of_perimeter. lia.
    + intros q Hq1 Hq2. apply not_true_iff_false.
      rewrite in_bounds_spec. lia.
  - eapply (outside_mono _ _ (S (Z.to_nat (Z.of_nat shape.1 - 1 - p.1)))); [nia|].
    apply (ray_outside _ _ 1 0); [| done | |].
    + intros q. apply elem_of_neighbors4. right; right; right. f_equal; lia.
    + intros j q Hj Hq1 Hq2. rewrite elem_of_perimeter. lia.
    + intros q Hq1 Hq2. apply not_true_iff_false.
      rewrite in_bounds_spec. lia.
  - eapply (outside_mono _ _ (S (Z.to_nat p.2))); [nia|].
    apply (ray_outside _ _ 0 (-1)); [| done | |].
    + intros q. apply elem_of_neighbors4. right; left. f_equal; lia.
    + intros j q Hj Hq1 Hq2. rewrite elem_of_perimeter. lia.
    + intros q Hq1 Hq2. apply not_true_iff_false.
      rewrite in_bounds_spec. lia.
  - eapply (outside_mono _ _ (S (Z.to_nat (Z.of_nat shape.2 - 1 - p.2)))); [nia|].
    apply (ray_outside _ _ 0 1); [| done | |].
    + intros q. apply elem_of_neighbors4. right; right; left. f_equal; lia.
    + intros j q Hj Hq1 Hq2. rewrite elem_of_perimeter. lia.
    + intros q Hq1 Hq2. apply not_true_iff_false.
      rewrite in_bounds_spec. lia.
Qed.

Lemma binary_fill_holes_perimeter :
  binary_fill_holes shape (perimeter r0 r1 c0 c1) = rectangle r0 r1 c0 c1.
Proof.
  unfold binary_fill_holes. apply set_eq. intros p.
  rewrite elem_of_list_to_set, list_elem_of_filter, elem_of_grid. split.
  - intros [Hout Hb].
    destruct (decide (p ∈ rectangle r0 r1 c0 c1)) as [|Hn]; [done|].
    destruct Hout. by apply beyond_rectangle_outside.
  - intros Hp. split.
    + by apply rectangle_never_outside.
    + by apply (rectangle_in_bounds shape r0 r1 c0 c1).
Qed.

Lemma fill_contour_perimeter :
  fill_contour (perimeter r0 r1 c0 c1) shape = Return (rectangle r0 r1 c0 c1).
Proof.
  unfold fill_contour. rewrite mask_set_all_in_bounds.
  - simpl. f_equal.
    assert (list_to_set (elements (perimeter r0 r1 c0 c1)) ∪ ∅
            = perimeter r0 r1 c0 c1) as ->.
    { rewrite list_to_set_elements_L. set_solver. }
    apply binary_fill_holes_perimeter.
  - intros p Hp%elem_of_elements.
    apply (rectangle_in_bounds shape r0 r1 c0 c1); [done|].
    apply elem_of_perimeter in Hp as [Hp _]. by apply elem_of_rectangle.
Qed.

End fill_rectangle.

(** C6 (as amended): for every solid filled rectangle that leaves at least
    one pixel of margin to every border of the image, [fill_contour] applied
    to the contour that [get_contour] extracts from it gives the rectangle
    back. *)
Theorem fill_contour_get_contour_rectangle (shape : nat * nat) (r0 r1 c0 c1 : Z) :
  inside_margin shape r0 r1 c0 c1 ->
  round_trip_spec (rectangle r0 r1 c0 c1) shape.
Proof.
  intros Hm. exists (perimeter r0 r1 c0 c1). split.
  - by apply get_contour_rectangle.
  - by apply fill_contour_perimeter.
Qed.

Lemma fill_contour_get_contour_rectangle_witness :
  inside_margin (5, 5)%nat 1 3 1 3 ∧
  round_trip_spec (rectangle 1 3 1 3) (5, 5)%nat.
Proof.
  assert (inside_margin (5, 5)%nat 1 3 1 3) as H.
  { unfold inside_margin. simpl. lia. }
  split; [exact H|]. exact (fill_contour_get_contour_rectangle _ _ _ _ _ H).
Defined.

(** C6 as stated fails for a rectangle that is within the image bounds but
    touches the border: the rectangle that fills a 1 x 1 image has an empty
    contour, and filling the empty contour gives the empty mask. *)
Lemma round_trip_border_rectangle :
  within_bounds (1, 1)%nat 0 0 0 0 ∧
  ¬ round_trip_spec (rectangle 0 0 0 0) (1, 1)%nat.
Proof.
  split; [unfold within_bounds; simpl; lia|].
  intros (C & HC & HF). vm_compute in HC. injection HC as <-.
  vm_compute in HF. discriminate.
Qed.

(** The same on a 3 x 3 rectangle in the corner of a 5 x 5 image: the
    contour is the L-shaped part of the perimeter that faces the image, and
    filling it adds nothing. *)
Example round_trip_corner_rectangle :
  (elements <$> (C ← get_contour (rectangle 0 2 0 2) (5, 5)%nat;
                 fill_contour C (5, 5)%nat)) =
  Return [(0, 2); (2, 0); (1, 2); (2, 1); (2, 2)].
Proof. vm_compute. reflexivity. Qed.

(** ** Crop adjustment *)

Lemma adjust_spec (start size min_size : Z) :
  let '(s, e) := adjust start (start + size) size min_size in
  e - s = min_size ∧
  (size < min_size ->
     s = start - (min_size - size) / 2 ∧
     e = start + size + ((min_size - size) - (min_size - size) / 2) ∧
     0 <= (e - (start + size)) - (start - s) <= 1) ∧
  (min_size < size ->
     s = start + (size - min_size) / 2 ∧
     e = start + size - ((size - min_size) - (size - min_size) / 2) ∧
     0 <= ((start + size) - e) - (s - start) <= 1) ∧
  (size = min_size -> s = start ∧ e = start + size).
Proof.
  unfold adjust.
  destruct (size <? min_size) eqn:E1; [|destruct (min_size <? size) eqn:E2];
    cbv zeta; split_and!; intros; try lia.
  - pose proof (Z.div_mod (min_size - size) 2 ltac:(lia)).
    pose proof (Z.mod_pos_bound (min_size - size) 2 ltac:(lia)). lia.
  - pose proof (Z.div_mod (size - min_size) 2 ltac:(lia)).
    pose proof (Z.mod_pos_bound (size - min_size) 2 ltac:(lia)). lia.
Qed.

(** C4: for every box and floor, the crop returned by [adjust_crop_area]
    is exactly [min_size] wide and high; a dimension below the floor is
    padded by [extra // 2] before and the rest, one more when [extra] is
    odd, after; a dimension above it is shrunk by [extra // 2] at the start
    and the rest at the end; and the box (10, 10, 100, 50) with floor 224 is
    padded 62 / 62 in width and 87 / 87 in height. *)
Theorem adjust_crop_area_exact (x y w h min_size : Z) :
  ∃ x' y' x_end y_end,
    adjust_crop_area x y w h min_size = (x', y', x_end, y_end) ∧
    (x_end - x' = min_size ∧ y_end - y' = min_size) ∧
    (w < min_size ->
       x' = x - (min_size - w) / 2 ∧
       x_end = x + w + ((min_size - w) - (min_size - w) / 2) ∧
       0 <= (x_end - (x + w)) - (x - x') <= 1) ∧
    (min_size < w ->
       x' = x + (w - min_size) / 2 ∧
       x_end = x + w - ((w - min_size) - (w - min_size) / 2) ∧
       0 <= ((x + w) - x_end) - (x' - x) <= 1) ∧
    (h < min_size ->
       y' = y - (min_size - h) / 2 ∧
       y_end = y + h + ((min_size - h) - (min_size - h) / 2) ∧
       0 <= (y_end - (y + h)) - (y - y') <= 1) ∧
    (min_size < h ->
       y' = y + (h - min_size) / 2 ∧
       y_end = y + h - ((h - min_size) - (h - min_size) / 2) ∧
       0 <= ((y + h) - y_end) - (y' - y) <= 1) ∧
    adjust_crop_area 10 10 100 50 default_min_size
    = (10 - 62, 10 - 87, 10 + 100 + 62, 10 + 50 + 87).
Proof.
  unfold adjust_crop_area.
  pose proof (adjust_spec x w min_size) as Hx.
  pose proof (adjust_spec y h min_size) as Hy.
  destruct (adjust x (x + w) w min_size) as [x' x_end].
  destruct (adjust y (y + h) h min_size) as [y' y_end].
  destruct Hx as (Hx1 & Hx2 & Hx3 & _), Hy as (Hy1 & Hy2 & Hy3 & _).
  exists x', y', x_end, y_end. split_and!; try done.
Qed.

Example adjust_crop_area_shrink :
  adjust_crop_area 10 10 100 301 224 = (-52, 48, 172, 272).
Proof. reflexivity. Qed.

(** ** The crop is not clamped to the image *)




(** An ear box near the corner of a 1 x 1 model image: the crop starts at
    (-52, -77), and an earlobe found at the crop's origin is anchored
    there, outside the image. *)
Example model_anchor_point_negative :
  model_anchor_point (fun _ => [(0, 0, 0, 0)]) [ [ [7; 7; 7] ] ] 10 10 100 50
  = Return (-52, -77).
Proof. reflexivity. Qed.

(** ** The earlobe detector finds nothing *)

(** C9: whenever the earlobe detector returns no detection on the adjusted
    crop, [model_anchor_point] fails its assertion; it returns no
    coordinate. *)
Theorem model_anchor_point_asserts
    (detect_earlobe : ndarray -> list (Z * Z * Z * Z))
    (model_image : ndarray) (x y w h : Z) :
  detect_earlobe
    (pil_crop model_image (adjust_crop_area x y w h default_min_size)) = [] ->
  model_anchor_point detect_earlobe model_image x y w h = Raise AssertionError ∧
  ∀ anchor, model_anchor_point detect_earlobe model_image x y w h ≠ Return anchor.
Proof.
  intros Hnone. unfold model_anchor_point.
  destruct (adjust_crop_area x y w h default_min_size) as [[[x' y'] x_end] y_end].
  rewrite Hnone. simpl. split; [reflexivity|discriminate].
Qed.

Lemma model_anchor_point_asserts_witness :
  (fun _ : ndarray => @nil (Z * Z * Z * Z))
    (pil_crop [ [ [7; 7; 7] ] ] (adjust_crop_area 10 10 100 50 default_min_size))
  = [] ∧
  model_anchor_point (fun _ => []) [ [ [7; 7; 7] ] ] 10 10 100 50
  = Raise AssertionError.
Proof.
  split; [reflexivity|].
  apply (model_anchor_point_asserts (fun _ => []) [ [ [7; 7; 7] ] ] 10 10 100 50).
  reflexivity.
Defined.

(** ** Moments and extremal rows of a binary mask *)

Lemma sum_list_app (l1 l2 : list Z) :
  sum_list (l1 ++ l2) = sum_list l1 + sum_list l2.
Proof. induction l1 as [|x l1 IH]; simpl; [done|]. rewrite IH. lia. Qed.

Lemma join_cons {A : Type} (l : list A) (ls : list (list A)) :
  mjoin (l :: ls) = l ++ mjoin ls.
Proof. reflexivity. Qed.

Lemma sum_list_join (ls : list (list Z)) :
  sum_list (mjoin ls) = sum_list (sum_list <$> ls).
Proof.
  induction ls as [|l ls IH]; [done|].
  rewrite join_cons, sum_list_app, IH. done.
Qed.

Lemma threshold_two_valued (thresh maxval : Z) (row : list Z) :
  two_valued maxval ((fun v => if thresh <? v then maxval else 0) <$> row).
Proof.
  apply Forall_fmap, Forall_forall. intros v _. simpl.
  destruct (thresh <? v); auto.
Qed.

Lemma row_moment (f : nat -> Z) (row : list Z) :
  two_valued 255 row ->
  sum_list (imap (fun c v => f c * v) row)
  = 255 * sum_list (mjoin (imap (fun c v => if 0 <? v then [f c] else []) row)).
Proof.
  intros Hrow. revert f. induction Hrow as [|v row Hv _ IH]; intros f; [done|].
  rewrite !imap_cons, join_cons, sum_list_app.
  specialize (IH (f ∘ S)). unfold compose in *. cbv beta in *.
  cbn [sum_list foldr]. fold (sum_list (imap (fun c v => f (S c) * v) row)).
  rewrite IH. destruct Hv as [-> | ->]; simpl; lia.
Qed.

Lemma row_count (f : nat -> Z) (row : list Z) :
  sum_list (mjoin (imap (fun c v => if 0 <? v then [1] else []) row))
  = Z.of_nat (length (mjoin (imap (fun c v => if 0 <? v then [f c] else []) row))).
Proof.
  revert f. induction row as [|v row IH]; intros f; [done|].
  rewrite !imap_cons, !join_cons, sum_list_app, length_app.
  specialize (IH (f ∘ S)). unfold compose in *. cbv beta in *.
  rewrite IH. destruct (0 <? v); simpl; lia.
Qed.

Lemma m10_where_cols (a : list (list Z)) :
  Forall (two_valued 255) a -> m10 a = 255 * sum_list (where_cols a).
Proof.
  unfold m10, moment, where_cols. induction 1 as [|row a Hrow _ IH]; [done|].
  rewrite !imap_cons, join_cons, sum_list_app. unfold compose. cbv beta.
  cbn [sum_list foldr].
  fold (sum_list (imap (fun r row =>
         sum_list (imap (fun c v => Z.of_nat c * v) row)) a)).
  rewrite IH, (row_moment Z.of_nat row Hrow). lia.
Qed.

Lemma m00_where_cols (a : list (list Z)) :
  Forall (two_valued 255) a ->
  m00 a = 255 * Z.of_nat (length (where_cols a)).
Proof.
  unfold m00, moment, where_cols. induction 1 as [|row a Hrow _ IH]; [done|].
  rewrite !imap_cons, join_cons, length_app. unfold compose. cbv beta.
  cbn [sum_list foldr].
  fold (sum_list (imap (fun r row =>
         sum_list (imap (fun c v => 1 * v) row)) a)).
  rewrite IH, (row_moment (fun _ => 1) row Hrow), (row_count Z.of_nat). lia.
Qed.

Lemma binary_mask_two_valued (img : ndarray) :
  Forall (two_valued 255) (binary_mask img).
Proof.
  unfold binary_mask, threshold_binary. apply Forall_fmap, Forall_forall.
  intros row _. apply threshold_two_valued.
Qed.

Lemma elem_of_where_rows (a : list (list Z)) (y : Z) :
  y ∈ where_rows a <-> ∃ r c, y = Z.of_nat r ∧ mask_fg a r c.
Proof.
  unfold where_rows, mask_fg. rewrite list_elem_of_join. split.
  - intros (l & Hy & Hl). apply elem_of_lookup_imap in Hl as (r & row & -> & Hr).
    apply list_elem_of_omap in Hy as (v & Hv & Hpos).
    apply list_elem_of_lookup in Hv as [c Hc].
    destruct (0 <? v) eqn:E; [|done]. injection Hpos as <-.
    exists r, c. split; [done|]. exists v. rewrite Hr. simpl. split; [done|lia].
  - intros (r & c & -> & v & Hv & Hpos).
    destruct (a !! r) as [row|] eqn:Hr; [|done]. simpl in Hv.
    eexists. split;
      [|apply elem_of_lookup_imap; exists r, row; split; [reflexivity|done]].
    apply list_elem_of_omap. exists v. split.
    + apply list_elem_of_lookup. by exists c.
    + destruct (0 <? v) eqn:E; [done|lia].
Qed.

Lemma elem_of_where_cols (a : list (list Z)) (x : Z) :
  x ∈ where_cols a <-> ∃ r c, x = Z.of_nat c ∧ mask_fg a r c.
Proof.
  unfold where_cols, mask_fg. rewrite list_elem_of_join. split.
  - intros (l & Hx & Hl). apply elem_of_lookup_imap in Hl as (r & row & -> & Hr).
    apply list_elem_of_join in Hx as (l' & Hx & Hl').
    apply elem_of_lookup_imap in Hl' as (c & v & -> & Hc).
    destruct (0 <? v) eqn:E; [|by apply elem_of_nil in Hx].
    apply list_elem_of_singleton in Hx as ->.
    exists r, c. split; [done|]. exists v. rewrite Hr. simpl. split; [done|lia].
  - intros (r & c & -> & v & Hv & Hpos).
    destruct (a !! r) as [row|] eqn:Hr; [|done]. simpl in Hv.
    eexists. split;
      [|apply elem_of_lookup_imap; exists r, row; split; [reflexivity|done]].
    apply list_elem_of_join. eexists. split;
      [|apply elem_of_lookup_imap; exists c, v; split; [reflexivity|done]].
    destruct (0 <? v) eqn:E; [|lia]. by apply list_elem_of_singleton.
Qed.

Lemma foreground_mask_fg (img : ndarray) (r c : nat) :
  foreground img r c <-> mask_fg (binary_mask img) r c.
Proof.
  unfold foreground, mask_fg, binary_mask, threshold_binary, channel.
  rewrite !list_lookup_fmap.
  destruct (img !! r) as [row|]; simpl; [|by split; intros (? & ? & ?)].
  rewrite !list_lookup_fmap.
  destruct (row !! c) as [px|]; simpl; [|by split; intros (? & ? & ?)].
  split.
  - intros (px' & [= <-] & Hpos). eexists. split; [done|].
    destruct (1 <? nth 3 px 0) eqn:E; lia.
  - intros (v & [= <-] & Hpos). exists px. split; [done|].
    destruct (1 <? nth 3 px 0) eqn:E; lia.
Qed.

Lemma m00_positive (img : ndarray) (r c : nat) :
  foreground img r c -> 0 < m00 (binary_mask img).
Proof.
  intros Hfg%foreground_mask_fg.
  rewrite m00_where_cols by apply binary_mask_two_valued.
  assert (Z.of_nat c ∈ where_cols (binary_mask img)) as Hin.
  { apply elem_of_where_cols. by exists r, c. }
  destruct (where_cols (binary_mask img)); [by apply elem_of_nil in Hin|].
  simpl length. lia.
Qed.

Lemma m00_zero_no_foreground (img : ndarray) :
  m00 (binary_mask img) = 0 <-> ∀ r c, ¬ foreground img r c.
Proof.
  split.
  - intros Hz r c Hfg%m00_positive. lia.
  - intros Hno. rewrite m00_where_cols by apply binary_mask_two_valued.
    destruct (where_cols (binary_mask img)) as [|x l] eqn:E; [done|].
    assert (x ∈ where_cols (binary_mask img)) as Hin by (rewrite E; left).
    apply elem_of_where_cols in Hin as (r & c & _ & Hfg%foreground_mask_fg).
    by destruct (Hno r c).
Qed.

Lemma centroid_x_moments (img : ndarray) :
  Z.quot (m10 (binary_mask img)) (m00 (binary_mask img))
  = centroid_x (binary_mask img).
Proof.
  unfold centroid_x.
  rewrite m10_where_cols, m00_where_cols by apply binary_mask_two_valued.
  destruct (where_cols (binary_mask img)) as [|x l]; [done|].
  apply Z.quot_mul_cancel_l; simpl length; lia.
Qed.

Lemma np_min_spec (l : list Z) :
  l ≠ [] -> ∃ m, np_min l = Return m ∧ m ∈ l ∧ ∀ x, x ∈ l -> m <= x.
Proof.
  destruct l as [|x l]; [done|]. intros _. simpl. eexists. split; [done|].
  induction l as [|y l [IH1 IH2]]; simpl.
  - split; [left|]. intros z ->%list_elem_of_singleton. lia.
  - split.
    + destruct (Z.min_spec y (foldr Z.min x l)) as [[_ ->] | [_ ->]].
      * right; left.
      * apply elem_of_cons in IH1 as [-> | IH1]; [left|right; by right].
    + intros z Hz. assert (z = y ∨ z ∈ x :: l) as [-> | Hz'] by set_solver.
      * lia.
      * specialize (IH2 z Hz'). lia.
Qed.

Lemma np_max_spec (l : list Z) :
  l ≠ [] -> ∃ m, np_max l = Return m ∧ m ∈ l ∧ ∀ x, x ∈ l -> x <= m.
Proof.
  destruct l as [|x l]; [done|]. intros _. simpl. eexists. split; [done|].
  induction l as [|y l [IH1 IH2]]; simpl.
  - split; [left|]. intros z ->%list_elem_of_singleton. lia.
  - split.
    + destruct (Z.max_spec y (foldr Z.max x l)) as [[_ ->] | [_ ->]].
      * apply elem_of_cons in IH1 as [-> | IH1]; [left|right; by right].
      * right; left.
    + intros z Hz. assert (z = y ∨ z ∈ x :: l) as [-> | Hz'] by set_solver.
      * lia.
      * specialize (IH2 z Hz'). lia.
Qed.

(** ** Earring anchor point *)

Lemma where_rows_foreground (img : ndarray) (r c : nat) :
  foreground img r c -> Z.of_nat r ∈ where_rows (binary_mask img).
Proof.
  intros Hfg%foreground_mask_fg. apply elem_of_where_rows. by exists r, c.
Qed.

Lemma where_rows_row (img : ndarray) (y : Z) :
  y ∈ where_rows (binary_mask img) ->
  0 <= y ∧ ∃ c, foreground img (Z.to_nat y) c.
Proof.
  intros (r & c & -> & Hfg%foreground_mask_fg)%elem_of_where_rows.
  split; [lia|]. exists c. by rewrite Nat2Z.id.
Qed.

Lemma bind_Return {A B : Type} (a : A) (k : A -> result B) :
  Return a ≫= k = k a.
Proof. reflexivity. Qed.

Lemma shape_third_4 (a : ndarray) :
  shape2 a = 4%nat -> shape_third a = Return 4%nat.
Proof. intros H. unfold shape_third. by rewrite H. Qed.

Lemma shape_third_colour (a : ndarray) :
  shape2 a ≠ 1%nat -> shape_third a = Return (shape2 a).
Proof. intros H. unfold shape_third. by rewrite decide_False. Qed.

Lemma shape_third_grey (a : ndarray) :
  shape2 a = 1%nat -> shape_third a = Raise IndexError.
Proof. intros H. unfold shape_third. by rewrite decide_True. Qed.

(** C3: for every cutout with an alpha channel and at least one foreground
    pixel (alpha above the threshold of the mask), [jewel_anchor_point]
    returns the point whose x is the horizontal centroid of the mask,
    [m10 / m00] truncated, and whose y is
    [highest_y + (lowest_y - highest_y) // 11], where [highest_y] and
    [lowest_y] are the least and the greatest row that hold a foreground
    pixel; rows 0 to 109 give y = 9. *)
Theorem jewel_anchor_point_value (fs : files) (jewel_path : string)
    (jewel_image : ndarray) :
  cv2_imread fs jewel_path = Some jewel_image ->
  shape2 jewel_image = 4%nat ->
  (∃ r c, foreground jewel_image r c) ->
  ∃ highest_y lowest_y,
    jewel_anchor_point fs jewel_path
    = Return (Some (centroid_x (binary_mask jewel_image),
                    highest_y + (lowest_y - highest_y) / 11)) ∧
    centroid_x (binary_mask jewel_image)
    = Z.quot (m10 (binary_mask jewel_image)) (m00 (binary_mask jewel_image)) ∧
    (0 <= highest_y ∧ ∃ c, foreground jewel_image (Z.to_nat highest_y) c) ∧
    (0 <= lowest_y ∧ ∃ c, foreground jewel_image (Z.to_nat lowest_y) c) ∧
    (∀ r c, foreground jewel_image r c ->
            highest_y <= Z.of_nat r <= lowest_y) ∧
    (highest_y = 0 -> lowest_y = 109 ->
     highest_y + (lowest_y - highest_y) / 11 = 9).
Proof.
  intros Hread Hshape (r0 & c0 & Hfg).
  pose proof (m00_positive _ _ _ Hfg) as Hm00.
  pose proof (where_rows_foreground _ _ _ Hfg) as Hrows.
  assert (where_rows (binary_mask jewel_image) ≠ []) as Hne.
  { intros E. rewrite E in Hrows. by apply elem_of_nil in Hrows. }
  destruct (np_min_spec _ Hne) as (hy & Hmin & Hhy & Hle).
  destruct (np_max_spec _ Hne) as (ly & Hmax & Hly & Hge).
  exists hy, ly. refine (conj _ (conj _ (conj _ (conj _ (conj _ _))))).
  - unfold jewel_anchor_point. rewrite Hread.
    rewrite (shape_third_4 _ Hshape), bind_Return.
    destruct (decide (4%nat = 4%nat)); [|done].
    fold (binary_mask jewel_image).
    destruct (decide (m00 (binary_mask jewel_image) ≠ 0)); [|lia].
    unfold int_div.
    destruct (m00 (binary_mask jewel_image) =? 0) eqn:E; [lia|]. simpl.
    destruct (decide (length (where_rows (binary_mask jewel_image)) = 0%nat))
      as [Hlen|_].
    { by apply nil_length_inv in Hlen. }
    rewrite Hmin, Hmax. simpl. by rewrite centroid_x_moments.
  - symmetry. apply centroid_x_moments.
  - by apply where_rows_row.
  - by apply where_rows_row.
  - intros r c Hrc%where_rows_foreground. split; [by apply Hle|by apply Hge].
  - intros -> ->. reflexivity.
Qed.

Lemma jewel_anchor_point_value_witness :
  cv2_imread {[ "e.png"%string := tall_cutout ]} "e.png" = Some tall_cutout ∧
  shape2 tall_cutout = 4%nat ∧
  (∃ r c, foreground tall_cutout r c) ∧
  jewel_anchor_point {[ "e.png"%string := tall_cutout ]} "e.png"
  = Return (Some (0, 9)).
Proof.
  assert (cv2_imread {[ "e.png"%string := tall_cutout ]} "e.png"
          = Some tall_cutout) as H1 by reflexivity.
  assert (shape2 tall_cutout = 4%nat) as H2 by reflexivity.
  assert (∀ r, (r < 110)%nat -> foreground tall_cutout r 0) as Hrow.
  { intros r Hr. exists [9; 9; 9; 255]. split; [|simpl; lia].
    unfold tall_cutout. by rewrite lookup_replicate_2. }
  assert (∃ r c, foreground tall_cutout r c) as H3.
  { exists 0%nat, 0%nat. apply Hrow. lia. }
  split; [exact H1|]. split; [exact H2|]. split; [exact H3|].
  destruct (jewel_anchor_point_value _ _ _ H1 H2 H3)
    as (hy & ly & Hval & _ & [Hhy0 _] & [_ [c Hly]] & Hext & Hy).
  assert (hy = 0) as Hhy.
  { pose proof (Hext 0%nat 0%nat (Hrow 0%nat ltac:(lia))). lia. }
  assert (ly = 109) as Hlyv.
  { pose proof (Hext 109%nat 0%nat (Hrow 109%nat ltac:(lia))) as Hge.
    destruct Hly as (px & Hpx & _).
    destruct (tall_cutout !! Z.to_nat ly) as [row|] eqn:Hr; [|done].
    apply lookup_replicate in Hr as [_ Hr]. lia. }
  rewrite Hval, (Hy Hhy Hlyv). reflexivity.
Defined.

(** ** Undefined centroid *)

Lemma jewel_center_none (fs : files) (jewel_path : string)
    (jewel_image : ndarray) :
  cv2_imread fs jewel_path = Some jewel_image ->
  shape2 jewel_image ≠ 1%nat ->
  shape2 jewel_image ≠ 4%nat ∨ m00 (binary_mask jewel_image) = 0 ∨
    (∀ r c, ¬ foreground jewel_image r c) ->
  jewel_center fs jewel_path = Return None ∧
  jewel_anchor_point fs jewel_path = Return None.
Proof.
  intros Hread Hcolour Hcase.
  unfold jewel_center, jewel_anchor_point. rewrite Hread.
  rewrite (shape_third_colour _ Hcolour), !bind_Return.
  destruct (decide (shape2 jewel_image = 4%nat)) as [Hs|Hs]; [|done].
  fold (binary_mask jewel_image).
  assert (m00 (binary_mask jewel_image) = 0) as Hz.
  { destruct Hcase as [?|[?|Hno]]; [done|done|].
    by apply m00_zero_no_foreground. }
  destruct (decide (m00 (binary_mask jewel_image) ≠ 0)); done.
Qed.

Lemma jewel_center_grey (fs : files) (jewel_path : string)
    (jewel_image : ndarray) :
  cv2_imread fs jewel_path = Some jewel_image ->
  shape2 jewel_image = 1%nat ->
  jewel_center fs jewel_path = Raise IndexError ∧
  jewel_anchor_point fs jewel_path = Raise IndexError.
Proof.
  intros Hread Hgrey.
  unfold jewel_center, jewel_anchor_point. rewrite Hread.
  by rewrite (shape_third_grey _ Hgrey).
Qed.

(** For every file read as a colour image (three or four channels) that
    has no transparency channel or whose binary mask has no foreground
    pixel ([m00 = 0]), [jewel_center] and
    [jewel_anchor_point] both return [None]: no division is attempted, no
    exception is raised, and (0, 0) is not returned. *)
Lemma jewel_center_undefined (fs : files) (jewel_path : string)
    (jewel_image : ndarray) :
  cv2_imread fs jewel_path = Some jewel_image ->
  shape2 jewel_image ≠ 1%nat ->
  shape2 jewel_image ≠ 4%nat ∨ m00 (binary_mask jewel_image) = 0 ∨
    (∀ r c, ¬ foreground jewel_image r c) ->
  (jewel_center fs jewel_path = Return None ∧
   jewel_anchor_point fs jewel_path = Return None) ∧
  (∀ e, jewel_center fs jewel_path ≠ Raise e ∧
        jewel_anchor_point fs jewel_path ≠ Raise e) ∧
  jewel_center fs jewel_path ≠ Return (Some (0, 0)) ∧
  jewel_anchor_point fs jewel_path ≠ Return (Some (0, 0)).
Proof.
  intros Hread Hcolour Hcase.
  destruct (jewel_center_none fs jewel_path jewel_image Hread Hcolour Hcase)
    as [H1 H2].
  rewrite H1, H2. split; [done|]. split; [|split; discriminate].
  intros e. split; discriminate.
Qed.

Example jewel_center_undefined_rgb :
  jewel_center {[ "e.png"%string := [ [ [7; 7; 7] ] ] ]} "e.png" = Return None ∧
  jewel_anchor_point {[ "e.png"%string := [ [ [7; 7; 7] ] ] ]} "e.png"
  = Return None.
Proof. split; reflexivity. Qed.


(** A grey file with an alpha channel is read with four channels, and has
    a centre like any other cutout with a transparency channel. *)
Example jewel_center_grey_alpha :
  jewel_center {[ "e.png"%string := [ [ [0; 0]; [9; 255] ] ] ]} "e.png"
  = Return (Some (1, 0)).
Proof. reflexivity. Qed.

Example jewel_center_transparent_cutout :
  jewel_center {[ "e.png"%string := [ [ [0; 0; 0; 0]; [0; 0; 0; 0] ] ] ]} "e.png"
  = Return None.
Proof. reflexivity. Qed.

(** ** The splitting pipeline without a seed *)

Lemma map_pixels_lookup (f : pixel -> list Z -> list Z) (a : ndarray) (r c : nat) :
  map_pixels f a !! r ≫= (.!! c)
  = f (Z.of_nat r, Z.of_nat c) <$> (a !! r ≫= (.!! c)).
Proof.
  unfold map_pixels. rewrite list_lookup_imap.
  destruct (a !! r) as [row|]; simpl; [|done].
  by rewrite list_lookup_imap.
Qed.

Lemma map_pixels_id (f : pixel -> list Z -> list Z) (a : ndarray) :
  (∀ r c px, a !! r ≫= (.!! c) = Some px -> f (Z.of_nat r, Z.of_nat c) px = px) ->
  map_pixels f a = a.
Proof.
  intros Hf. unfold map_pixels. apply list_eq. intros r.
  rewrite list_lookup_imap.
  destruct (a !! r) as [row|] eqn:Hr; simpl; [|done]. f_equal.
  apply list_eq. intros c. rewrite list_lookup_imap.
  destruct (row !! c) as [px|] eqn:Hc; simpl; [|done]. f_equal.
  apply Hf. by rewrite Hr.
Qed.

Lemma binary_fill_holes_empty (shape : nat * nat) :
  binary_fill_holes shape ∅ = ∅.
Proof.
  unfold binary_fill_holes. apply set_eq. intros p.
  rewrite elem_of_list_to_set, list_elem_of_filter, elem_of_grid.
  split; [|set_solver]. intros [Hout Hb]. destruct Hout.
  pose proof Hb as Hb'. apply in_bounds_spec in Hb'.
  eapply (outside_mono _ _ (S (Z.to_nat p.1))).
  { rewrite length_grid. nia. }
  apply (ray_outside _ _ (-1) 0); [| done | |].
  - intros q. apply elem_of_neighbors4. left. f_equal; lia.
  - intros j q _ _ _. set_solver.
  - intros q Hq1 Hq2. apply not_true_iff_false. rewrite in_bounds_spec. lia.
Qed.

Lemma get_contour_empty (shape : nat * nat) : get_contour ∅ shape = Return ∅.
Proof. unfold get_contour. rewrite elements_empty. reflexivity. Qed.

Lemma fill_contour_empty (shape : nat * nat) : fill_contour ∅ shape = Return ∅.
Proof.
  unfold fill_contour. rewrite elements_empty. simpl.
  by rewrite binary_fill_holes_empty.
Qed.

(** With an empty mask the cutout that [extract_one_earring] saves is
    fully transparent. *)
Lemma extract_one_earring_empty_mask (img : ndarray) (path : string) (fs : files) :
  rgb_image img -> path ≠ ""%string ->
  ∃ T, extract_one_earring img ∅ path fs = Return (<[path := T]> fs) ∧
       transparent_image T.
Proof.
  intros [[px0 Hpx0] Hrgb] Hpath. unfold extract_one_earring, getpixel.
  rewrite !map_pixels_lookup, Hpx0. simpl.
  destruct (decide (path ≠ ""%string)); [|done].
  eexists. split; [reflexivity|]. split.
  - rewrite !map_pixels_lookup, Hpx0. simpl. eauto.
  - intros r c px. rewrite !map_pixels_lookup.
    destruct (img !! r ≫= (.!! c)) as [q|] eqn:Hq; [|done].
    simpl. intros [= <-].
    pose proof (Hrgb _ _ _ Hq) as Hlq. pose proof (Hrgb _ _ _ Hpx0) as Hl0.
    destruct q as [|q1 [|q2 [|q3 [|]]]]; try done.
    destruct px0 as [|p1 [|p2 [|p3 [|]]]]; try done.
    simpl. rewrite !Z.mul_0_r.
    destruct (decide ([0; 0; 0; 255] ≠ [0; 0; 0; 255])); done.
Qed.

Lemma find_nonzero_pixel_none (choice : list pixel -> pixel) (img : ndarray) :
  nonzero_indices img = [] -> find_nonzero_pixel choice img = None.
Proof. intros H. unfold find_nonzero_pixel. by rewrite H. Qed.

Lemma jewel_center_transparent (fs : files) (path : string) (T : ndarray) :
  fs !! path = Some T -> transparent_image T ->
  jewel_center fs path = Return None.
Proof.
  intros Hfile [[px0 Hpx0] Hall].
  assert (∀ r c px, bgr_order T !! r ≫= (.!! c) = Some px -> px = [0; 0; 0; 0])
    as Hbgr.
  { intros r c px. unfold bgr_order. rewrite list_lookup_fmap.
    destruct (T !! r) as [row|] eqn:Hr; simpl; [|done].
    rewrite list_lookup_fmap.
    destruct (row !! c) as [q|] eqn:Hc; simpl; [|done]. intros [= <-].
    rewrite (Hall r c q); [done|]. by rewrite Hr. }
  assert (shape2 (bgr_order T) = 4%nat) as Hfour.
  { pose proof (Hall 0%nat 0%nat px0 Hpx0) as ->.
    unfold shape2, bgr_order.
    destruct T as [|row T']; [done|].
    destruct row as [|q row]; [done|].
    simpl in Hpx0. injection Hpx0 as ->. done. }
  apply (jewel_center_none fs path (bgr_order T)); [| by rewrite Hfour |].
  - unfold cv2_imread. by rewrite Hfile.
  - right; right. intros r c (px & Hpx & Hpos).
    apply Hbgr in Hpx as ->. simpl in Hpos. lia.
Qed.

Lemma extract_the_other_masked_rgb (img : ndarray) (filled_mask : gset pixel) :
  rgb_image img -> filled_mask = ∅ ->
  map_pixels (fun p px =>
                imap (fun i v =>
                        if decide (i < 3)%nat
                        then v * (if decide (p ∈ filled_mask) then 0 else 1)
                        else 0) px) img = img.
Proof.
  intros [_ Hrgb] ->. apply map_pixels_id. intros r c px Hpx.
  specialize (Hrgb _ _ _ Hpx).
  destruct px as [|p1 [|p2 [|p3 [|]]]]; try done.
  simpl. by rewrite !Z.mul_1_r.
Qed.

Lemma extract_one_earring_no_mask (img : ndarray) (path : string) (fs : files) :
  rgb_image img ->
  ∃ T, transparent_image T ∧
       extract_one_earring img ∅ path fs
       = Return (if decide (path ≠ ""%string) then <[path := T]> fs else fs).
Proof.
  intros Hrgb. destruct (decide (path ≠ ""%string)) as [Hp|Hp].
  - destruct (extract_one_earring_empty_mask img path fs Hrgb Hp)
      as (T & HT & Htr). by exists T.
  - destruct (extract_one_earring_empty_mask img "x" fs Hrgb ltac:(done))
      as (T & HT & Htr). exists T. split; [done|].
    destruct Hrgb as [[px0 Hpx0] _].
    unfold extract_one_earring, getpixel.
    rewrite !map_pixels_lookup, Hpx0. simpl.
    destruct (decide (path ≠ ""%string)); done.
Qed.

Lemma extract_the_other_without_seed (random_choice : nat -> list pixel -> pixel)
    (img : ndarray) (path : string) (fs : files) :
  rgb_image img -> nonzero_indices img = [] ->
  ∃ T, transparent_image T ∧
       extract_the_other random_choice img ∅ path fs
       = Return (if decide (path ≠ ""%string) then <[path := T]> fs else fs).
Proof.
  intros Hrgb Hnone. unfold extract_the_other.
  rewrite (extract_the_other_masked_rgb img ∅ Hrgb eq_refl).
  rewrite (find_nonzero_pixel_none _ _ Hnone), bind_Return.
  rewrite get_contour_empty, bind_Return, fill_contour_empty, bind_Return.
  by apply extract_one_earring_no_mask.
Qed.

(** Whatever the image, when seed selection finds no pixel the pipeline
    saves two fully transparent cutouts and [left_and_right] then
    subscripts the [None] that [jewel_center] returns for the first. *)
Lemma main_without_seed (JEWEL_LEFT_PATH JEWEL_RIGHT_PATH : string)
    (random_choice : nat -> list pixel -> pixel) (img : ndarray) (fs : files) :
  rgb_image img -> JEWEL_LEFT_PATH ≠ ""%string ->
  nonzero_indices img = [] ->
  main JEWEL_LEFT_PATH JEWEL_RIGHT_PATH random_choice img fs = Raise TypeError.
Proof.
  intros Hrgb Hleft Hnone. unfold main.
  rewrite (find_nonzero_pixel_none _ _ Hnone), bind_Return.
  rewrite get_contour_empty, bind_Return, fill_contour_empty, bind_Return.
  destruct (extract_one_earring_empty_mask img JEWEL_LEFT_PATH fs Hrgb Hleft)
    as (T1 & -> & Htr1). rewrite bind_Return.
  destruct (extract_the_other_without_seed random_choice img JEWEL_RIGHT_PATH
              (<[JEWEL_LEFT_PATH := T1]> fs) Hrgb Hnone) as (T2 & Htr2 & ->).
  rewrite bind_Return. unfold left_and_right.
  assert (∃ T, (if decide (JEWEL_RIGHT_PATH ≠ ""%string)
                then <[JEWEL_RIGHT_PATH := T2]> (<[JEWEL_LEFT_PATH := T1]> fs)
                else <[JEWEL_LEFT_PATH := T1]> fs) !! JEWEL_LEFT_PATH = Some T
               ∧ transparent_image T) as (T & HT & Htr).
  { destruct (decide (JEWEL_RIGHT_PATH ≠ ""%string)).
    - destruct (decide (JEWEL_RIGHT_PATH = JEWEL_LEFT_PATH)) as [->|Hne].
      + exists T2. by rewrite lookup_insert_eq.
      + exists T1. by rewrite lookup_insert_ne, lookup_insert_eq.
    - exists T1. by rewrite lookup_insert_eq. }
  by rewrite (jewel_center_transparent _ _ T HT Htr).
Qed.

(** C8 fails on the code: on an all-black 1 x 1 image seed selection finds
    no pixel and [main] ends in an uncaught [TypeError]. *)
Theorem main_no_jewelry_crashes :
  nonzero_indices [ [ [0; 0; 0] ] ] = [] ∧
  main "left.png" "right.png" (fun _ l => hd (0, 0) l) [ [ [0; 0; 0] ] ] ∅
  = Raise TypeError.
Proof. split; vm_compute; reflexivity. Qed.

(** ** Left and right *)

Lemma jewel_center_file (fs : files) (path : string) (c : option (Z * Z)) :
  jewel_center fs path = Return c -> is_Some (fs !! path).
Proof.
  unfold jewel_center, cv2_imread. destruct (fs !! path); [eauto|done].
Qed.

Section left_and_right_facts.
Variables (JEWEL_LEFT_PATH JEWEL_RIGHT_PATH : string).
Hypothesis paths_differ : JEWEL_LEFT_PATH ≠ JEWEL_RIGHT_PATH.
Variables (fs : files) (x1 y1 x2 y2 : Z).

(** From paths other than the two destinations the cutouts are routed as
    intended: the smaller centroid x goes to the left path. *)
Lemma left_and_right_routes (e1 e2 : string) :
  e1 ≠ e2 ->
  e1 ≠ JEWEL_LEFT_PATH -> e1 ≠ JEWEL_RIGHT_PATH ->
  e2 ≠ JEWEL_LEFT_PATH -> e2 ≠ JEWEL_RIGHT_PATH ->
  jewel_center fs e1 = Return (Some (x1, y1)) ->
  jewel_center fs e2 = Return (Some (x2, y2)) ->
  ∃ fs', left_and_right JEWEL_LEFT_PATH JEWEL_RIGHT_PATH e1 e2 fs = Return fs' ∧
         fs' !! JEWEL_LEFT_PATH = fs !! (if x1 <? x2 then e1 else e2) ∧
         fs' !! JEWEL_RIGHT_PATH = fs !! (if x1 <? x2 then e2 else e1).
Proof.
  intros H12 H1L H1R H2L H2R Hc1 Hc2.
  destruct (jewel_center_file _ _ _ Hc1) as [f1 Hf1].
  destruct (jewel_center_file _ _ _ Hc2) as [f2 Hf2].
  unfold left_and_right. rewrite Hc1, Hc2. simpl.
  destruct (x1 <? x2); unfold os_rename.
  - rewrite Hf1. simpl.
    rewrite lookup_insert_ne, lookup_delete_ne, Hf2 by done.
    eexists. split; [reflexivity|].
    rewrite lookup_insert_ne, lookup_delete_ne, lookup_insert_eq by done.
    by rewrite lookup_insert_eq.
  - rewrite Hf2. simpl.
    rewrite lookup_insert_ne, lookup_delete_ne, Hf1 by done.
    eexists. split; [reflexivity|].
    rewrite lookup_insert_ne, lookup_delete_ne, lookup_insert_eq by done.
    by rewrite lookup_insert_eq.
Qed.

(** Called on the two destination paths themselves, as [main] does, the
    swap renames the second cutout over the first and then back: the first
    cutout is lost, the left path is left without a file, and the second
    cutout, whose centroid x is not the greater one, ends at the right
    path. *)
Lemma left_and_right_in_place :
  jewel_center fs JEWEL_LEFT_PATH = Return (Some (x1, y1)) ->
  jewel_center fs JEWEL_RIGHT_PATH = Return (Some (x2, y2)) ->
  x2 <= x1 ->
  ∃ fs', left_and_right JEWEL_LEFT_PATH JEWEL_RIGHT_PATH
                        JEWEL_LEFT_PATH JEWEL_RIGHT_PATH fs = Return fs' ∧
         fs' !! JEWEL_LEFT_PATH = None ∧
         fs' !! JEWEL_RIGHT_PATH = fs !! JEWEL_RIGHT_PATH.
Proof.
  intros Hc1 Hc2 Hle.
  destruct (jewel_center_file _ _ _ Hc2) as [f2 Hf2].
  unfold left_and_right. rewrite Hc1, Hc2. simpl.
  destruct (x1 <? x2) eqn:E; [lia|]. unfold os_rename.
  rewrite Hf2. simpl. rewrite lookup_insert_eq.
  eexists. split; [reflexivity|].
  rewrite lookup_insert_ne, lookup_delete_eq, lookup_insert_eq by done.
  done.
Qed.

End left_and_right_facts.

(** C2 fails on the code as [main] calls it: with the cutout of greater
    centroid x (3) stored at the left path and the one of smaller centroid
    x (0) at the right path, [left_and_right] leaves no file at the left
    path and the cutout of smaller centroid x at the right path. *)
Theorem left_and_right_loses_left :
  let fs := <["left.png"%string := cutout_right]>
              (<["right.png"%string := cutout_left]> ∅) in
  jewel_center fs "left.png" = Return (Some (3, 0)) ∧
  jewel_center fs "right.png" = Return (Some (0, 0)) ∧
  ∃ fs', left_and_right "left.png" "right.png" "left.png" "right.png" fs
         = Return fs' ∧
         fs' !! "left.png"%string = None ∧
         fs' !! "right.png"%string = Some cutout_left.
Proof.
  cbv zeta. split; [vm_compute; reflexivity|]. split; [vm_compute; reflexivity|].
  eexists. split; [vm_compute; reflexivity|]. split; vm_compute; reflexivity.
Qed.

(** The same through [main]: when the seed falls on the right-hand earring
    first, the pipeline ends with the left-hand earring (centroid x = 1) at
    the right path and nothing at the left path; when it falls on the
    left-hand earring first, both cutouts are in place. *)
Example main_seed_on_right_earring :
  ∃ fs', main "left.png" "right.png" (fun _ l => List.last l (0, 0))
              two_earrings ∅ = Return fs' ∧
         fs' !! "left.png"%string = None ∧
         jewel_center fs' "right.png" = Return (Some (1, 1)).
Proof.
  eexists. split; [vm_compute; reflexivity|]. split; vm_compute; reflexivity.
Qed.

Example main_seed_on_left_earring :
  ∃ fs', main "left.png" "right.png" (fun _ l => hd (0, 0) l)
              two_earrings ∅ = Return fs' ∧
         jewel_center fs' "left.png" = Return (Some (1, 1)) ∧
         jewel_center fs' "right.png" = Return (Some (3, 1)).
Proof.
  eexists. split; [vm_compute; reflexivity|]. split; vm_compute; reflexivity.
Qed.

(** * Further properties of the code *)

(** ** Seed selection *)

Lemma elem_of_nonzero_indices (img : ndarray) (p : pixel) :
  p ∈ nonzero_indices img <->
  in_bounds (shape_2d img) p = true ∧ 0 < item img p.1 p.2 0.
Proof.
  unfold nonzero_indices. rewrite list_elem_of_filter, elem_of_grid. tauto.
Qed.

(** X1: [find_nonzero_pixel] returns [None] exactly when no pixel of the
    image has a positive first channel; otherwise the pixel it returns is
    within the image and has a positive first channel. *)
Theorem find_nonzero_pixel_spec (choice : list pixel -> pixel) (img : ndarray) :
  picks choice ->
  match find_nonzero_pixel choice img with
  | None => ∀ p, in_bounds (shape_2d img) p = true -> item img p.1 p.2 0 <= 0
  | Some p => in_bounds (shape_2d img) p = true ∧ 0 < item img p.1 p.2 0
  end.
Proof.
  intros Hpick. unfold find_nonzero_pixel.
  destruct (decide (length (nonzero_indices img) = 0%nat)) as [Hlen|Hlen].
  - apply nil_length_inv in Hlen. intros p Hp.
    destruct (Z.lt_ge_cases 0 (item img p.1 p.2 0)) as [Hpos|Hle]; [|lia].
    assert (p ∈ nonzero_indices img) as Hin by by apply elem_of_nonzero_indices.
    rewrite Hlen in Hin. by apply elem_of_nil in Hin.
  - apply elem_of_nonzero_indices, Hpick. intros E. by rewrite E in Hlen.
Qed.

Lemma picks_hd : picks (fun l => hd (0, 0) l).
Proof. intros [|x l] Hl; [done|]. simpl. left. Qed.

Lemma find_nonzero_pixel_spec_witness :
  picks (fun l => hd (0, 0) l) ∧
  match find_nonzero_pixel (fun l => hd (0, 0) l) img_small with
  | None => ∀ p, in_bounds (shape_2d img_small) p = true ->
                 item img_small p.1 p.2 0 <= 0
  | Some p => in_bounds (shape_2d img_small) p = true ∧
              0 < item img_small p.1 p.2 0
  end.
Proof.
  split; [exact picks_hd|]. exact (find_nonzero_pixel_spec _ img_small picks_hd).
Defined.

(** ** Flood fill from any seed *)

Lemma reach_start_or_grows (img : ndarray) (start p : pixel) :
  reach img start p -> p = start ∨ grows img p = true.
Proof. destruct 1; auto. Qed.

Lemma grows_in_bounds (img : ndarray) (p : pixel) :
  grows img p = true -> in_bounds (shape_2d img) p = true.
Proof. unfold grows. rewrite andb_true_iff. tauto. Qed.

(** X2: from any seed, tested or not, inside the image or not,
    [flood_fill] returns; the result holds the seed, every other member is
    within the image with first channel above 10, the result is closed
    under stepping to an 8-neighbour that passes this test, and it is the
    least such set. *)
Theorem flood_fill_any_seed (img : ndarray) (start : pixel) :
  ∃ V, flood_fill img start None = Some V ∧
       start ∈ V ∧
       (∀ p, p ∈ V -> p = start ∨ grows img p = true) ∧
       (∀ p q, p ∈ V -> q ∈ neighbors8 p -> grows img q = true -> q ∈ V) ∧
       (∀ S : gset pixel,
          start ∈ S ->
          (∀ p q, p ∈ S -> q ∈ neighbors8 p -> grows img q = true -> q ∈ S) ->
          V ⊆ S).
Proof.
  destruct (flood_fill_reach img start) as (V & HV & Hreach).
  exists V. split; [done|]. split; [apply Hreach; constructor|].
  split; [|split].
  - intros p Hp%Hreach. by apply reach_start_or_grows.
  - intros p q Hp%Hreach Hq Hg. apply Hreach. by eapply reach_grow.
  - intros S Hstart Hclosed p Hp%Hreach.
    induction Hp as [|a b _ IH Hb Hg]; eauto.
Qed.

Lemma flood_loop_mono (img : ndarray) (fuel : nat) (stack : list pixel)
    (V V' : gset pixel) :
  flood_loop fuel img stack V = Some V' ->
  V ⊆ V' ∧ ∀ p, p ∈ stack -> p ∈ V'.
Proof.
  revert stack V. induction fuel as [|fuel IH]; intros stack V Hrun; [done|].
  destruct stack as [|p stack]; simpl in Hrun.
  - injection Hrun as <-. split; [done|]. intros p Hp. by apply elem_of_nil in Hp.
  - destruct (decide (p ∈ V)) as [Hin|Hnin].
    + destruct (IH _ _ Hrun) as [Hsub Hst]. split; [done|].
      intros q [->|Hq]%elem_of_cons; auto.
    + destruct (IH _ _ Hrun) as [Hsub Hst]. split; [set_solver|].
      intros q [->|Hq]%elem_of_cons; [set_solver|].
      apply Hst. set_solver.
Qed.

(** X3: given a set of already visited pixels, [flood_fill] returns a
    superset of it that holds the start pixel, and returns the set unchanged
    when the start pixel is already in it. *)
Theorem flood_fill_visited (img : ndarray) (start : pixel) (visited : gset pixel) :
  ∃ V, flood_fill img start (Some visited) = Some V ∧
       visited ⊆ V ∧ start ∈ V ∧ (start ∈ visited -> V = visited).
Proof.
  destruct (flood_fill_terminates img start (Some visited)) as [V HV].
  exists V. split; [done|].
  unfold flood_fill in HV. simpl in HV.
  destruct (flood_loop_mono _ _ _ _ _ HV) as [Hsub Hst].
  split; [done|]. split; [apply Hst; left|].
  intros Hin. unfold flood_fuel in HV.
  destruct (9 * (length (grid (shape_2d img)) + 1) + 2)%nat as [|[|fuel]] eqn:E;
    [lia|lia|].
  simpl in HV. destruct (decide (start ∈ visited)); [|done]. by injection HV.
Qed.

(** ** Index errors of the mask writes *)

Lemma np_index_valid (n : nat) (i : Z) :
  np_valid n i -> ∃ j, np_index n i = Return j.
Proof.
  unfold np_valid, np_index. intros Hv.
  destruct ((0 <=? i) && (i <? Z.of_nat n)) eqn:E1; [eauto|].
  destruct ((- Z.of_nat n <=? i) && (i <? 0)) eqn:E2; [eauto|].
  apply andb_false_iff in E1, E2. lia.
Qed.

Lemma np_index_invalid (n : nat) (i : Z) :
  ¬ np_valid n i -> np_index n i = Raise IndexError.
Proof.
  unfold np_valid, np_index. intros Hv.
  destruct ((0 <=? i) && (i <? Z.of_nat n)) eqn:E1.
  { apply andb_true_iff in E1. lia. }
  destruct ((- Z.of_nat n <=? i) && (i <? 0)) eqn:E2; [|done].
  apply andb_true_iff in E2. lia.
Qed.

Lemma mask_set_cases (shape : nat * nat) (mask : gset pixel) (p : pixel) :
  (np_valid shape.1 p.1 ∧ np_valid shape.2 p.2 ∧
   ∃ m, mask_set shape mask p = Return m) ∨
  (¬ (np_valid shape.1 p.1 ∧ np_valid shape.2 p.2) ∧
   mask_set shape mask p = Raise IndexError).
Proof.
  unfold mask_set.
  destruct (decide (np_valid shape.1 p.1)) as [H1|H1].
  - destruct (np_index_valid _ _ H1) as [r ->]. simpl.
    destruct (decide (np_valid shape.2 p.2)) as [H2|H2].
    + destruct (np_index_valid _ _ H2) as [c ->]. simpl. left. eauto.
    + rewrite (np_index_invalid _ _ H2). right. split; [tauto|done].
  - rewrite (np_index_invalid _ _ H1). right. split; [tauto|done].
Qed.

Lemma mask_set_all_cases (shape : nat * nat) (ps : list pixel) (mask : gset pixel) :
  (Forall (fun p => np_valid shape.1 p.1 ∧ np_valid shape.2 p.2) ps ∧
   ∃ m, mask_set_all shape mask ps = Return m) ∨
  (Exists (fun p => ¬ (np_valid shape.1 p.1 ∧ np_valid shape.2 p.2)) ps ∧
   mask_set_all shape mask ps = Raise IndexError).
Proof.
  revert mask. induction ps as [|p ps IH]; intros mask; simpl.
  - left. split; [constructor|eauto].
  - destruct (mask_set_cases shape mask p) as [(H1 & H2 & m & ->)|[H ->]]; simpl.
    + destruct (IH m) as [[Hall Hm]|[Hex Hm]].
      * left. split; [by constructor|done].
      * right. split; [by apply Exists_cons_tl|done].
    + right. split; [by apply Exists_cons_hd|done].
Qed.

(** X4: [get_contour] and [fill_contour] raise [IndexError] exactly when
    some pixel of the set they are given has a row index outside
    [-rows, rows) or a column index outside [-cols, cols); they raise
    nothing else. *)
Theorem mask_write_index_error (pixels : gset pixel) (shape : nat * nat) :
  let out_of_range :=
    ∃ p, p ∈ pixels ∧ ¬ (np_valid shape.1 p.1 ∧ np_valid shape.2 p.2) in
  (get_contour pixels shape = Raise IndexError <-> out_of_range) ∧
  (fill_contour pixels shape = Raise IndexError <-> out_of_range) ∧
  (¬ out_of_range ->
   (∃ C, get_contour pixels shape = Return C) ∧
   (∃ M, fill_contour pixels shape = Return M)).
Proof.
  cbv zeta. unfold get_contour, fill_contour.
  destruct (mask_set_all_cases shape (elements pixels) ∅)
    as [[Hall [m ->]]|[Hex ->]]; simpl.
  - assert (¬ ∃ p, p ∈ pixels ∧ ¬ (np_valid shape.1 p.1 ∧ np_valid shape.2 p.2))
      as Hno.
    { intros (p & Hp & Hbad). rewrite Forall_forall in Hall.
      apply Hbad, Hall. by apply elem_of_elements. }
    split; [split; [done|by intros ?]|]. split; [split; [done|by intros ?]|].
    intros _. eauto.
  - assert (∃ p, p ∈ pixels ∧ ¬ (np_valid shape.1 p.1 ∧ np_valid shape.2 p.2))
      as Hyes.
    { apply Exists_exists in Hex as (p & Hp & Hbad). exists p.
      split; [by apply elem_of_elements|done]. }
    split; [done|]. split; [done|]. intros Hno. by destruct Hno.
Qed.

(** ** Filling a contour *)

(** X5: on a contour that lies within the image, [fill_contour] returns a
    mask that lies within the image and holds every contour pixel; a pixel
    of the image is in the mask exactly when it is not background joined to
    the outside of the image by 4-connected background pixels; and the
    empty contour gives the empty mask. *)
Theorem fill_contour_spec (contour : gset pixel) (shape : nat * nat) :
  (∀ p, p ∈ contour -> in_bounds shape p = true) ->
  ∃ M, fill_contour contour shape = Return M ∧
       contour ⊆ M ∧
       (∀ p, p ∈ M <-> in_bounds shape p = true ∧ ¬ exterior shape contour p) ∧
       (contour = ∅ -> M = ∅).
Proof.
  intros Hin. unfold fill_contour.
  rewrite mask_set_all_in_bounds
    by (intros p Hp; apply Hin; by apply elem_of_elements).
  assert (list_to_set (elements contour) ∪ ∅ = contour) as ->.
  { rewrite list_to_set_elements_L. set_solver. }
  eexists. split; [reflexivity|]. split; [|split].
  - intros p Hp. apply elem_of_binary_fill_holes. split; [by apply Hin|].
    intros Hext. destruct Hext; done.
  - intros p. apply elem_of_binary_fill_holes.
  - intros ->. apply binary_fill_holes_empty.
Qed.

Lemma fill_contour_spec_witness :
  (∀ p, p ∈ perimeter 1 3 1 3 -> in_bounds (5, 5)%nat p = true) ∧
  ∃ M, fill_contour (perimeter 1 3 1 3) (5, 5)%nat = Return M ∧
       perimeter 1 3 1 3 ⊆ M ∧
       (∀ p, p ∈ M <-> in_bounds (5, 5)%nat p = true ∧
                       ¬ exterior (5, 5)%nat (perimeter 1 3 1 3) p) ∧
       (perimeter 1 3 1 3 = ∅ -> M = ∅).
Proof.
  assert (∀ p, p ∈ perimeter 1 3 1 3 -> in_bounds (5, 5)%nat p = true) as H.
  { intros p [Hp _]%elem_of_perimeter. apply in_bounds_spec. simpl. lia. }
  split; [exact H|]. exact (fill_contour_spec _ _ H).
Defined.

Lemma exterior_fill (shape : nat * nat) (mask : gset pixel) (p : pixel) :
  exterior shape (binary_fill_holes shape mask) p <-> exterior shape mask p.
Proof.
  split.
  - induction 1 as [p q Hb Hm Hq Hout | p q Hb Hm Hq _ IH].
    + apply (exterior_border _ _ p q); auto.
      intros Hin. apply Hm, elem_of_binary_fill_holes. split; [done|].
      intros Hext. by destruct Hext.
    + apply (exterior_step _ _ p q); auto.
      intros Hin. apply Hm, elem_of_binary_fill_holes. split; [done|].
      intros Hext. by destruct Hext.
  - induction 1 as [p q Hb Hm Hq Hout | p q Hb Hm Hq Hext IH].
    + apply (exterior_border _ _ p q); auto.
      intros [_ Hne]%elem_of_binary_fill_holes. apply Hne.
      by apply (exterior_border _ _ p q).
    + apply (exterior_step _ _ p q); auto.
      intros [_ Hne]%elem_of_binary_fill_holes. apply Hne.
      by apply (exterior_step _ _ p q).
Qed.

(** X6: filling is idempotent: [fill_contour] applied to a mask it has
    returned gives that mask again. *)
Theorem fill_contour_idempotent (contour M : gset pixel) (shape : nat * nat) :
  fill_contour contour shape = Return M ->
  (∀ p, p ∈ contour -> in_bounds shape p = true) ->
  fill_contour M shape = Return M.
Proof.
  intros HM Hin. unfold fill_contour in HM.
  rewrite mask_set_all_in_bounds in HM
    by (intros p Hp; apply Hin; by apply elem_of_elements).
  assert (list_to_set (elements contour) ∪ ∅ = contour) as Hc.
  { rewrite list_to_set_elements_L. set_solver. }
  rewrite Hc in HM. simpl in HM. injection HM as <-.
  unfold fill_contour. rewrite mask_set_all_in_bounds.
  - simpl. f_equal.
    assert (list_to_set (elements (binary_fill_holes shape contour)) ∪ ∅
            = binary_fill_holes shape contour) as ->.
    { rewrite list_to_set_elements_L. set_solver. }
    apply set_eq. intros p. rewrite !elem_of_binary_fill_holes.
    by rewrite exterior_fill.
  - intros p Hp%elem_of_elements.
    by apply elem_of_binary_fill_holes in Hp as [Hp _].
Qed.

Lemma fill_contour_idempotent_witness :
  fill_contour (perimeter 1 3 1 3) (5, 5)%nat = Return (rectangle 1 3 1 3) ∧
  (∀ p, p ∈ perimeter 1 3 1 3 -> in_bounds (5, 5)%nat p = true) ∧
  fill_contour (rectangle 1 3 1 3) (5, 5)%nat = Return (rectangle 1 3 1 3).
Proof.
  assert (inside_margin (5, 5)%nat 1 3 1 3) as Hm.
  { unfold inside_margin. simpl. lia. }
  pose proof (fill_contour_perimeter (5, 5)%nat 1 3 1 3 Hm) as H1.
  assert (∀ p, p ∈ perimeter 1 3 1 3 -> in_bounds (5, 5)%nat p = true) as H2.
  { intros p [Hp _]%elem_of_perimeter. apply in_bounds_spec. simpl. lia. }
  split; [exact H1|]. split; [exact H2|].
  exact (fill_contour_idempotent _ _ _ H1 H2).
Defined.

(** ** The segmentation stage *)

Lemma bind_assoc {A B C : Type} (m : result A) (f : A -> result B)
    (g : B -> result C) :
  (m ≫= f) ≫= g = m ≫= (fun a => f a ≫= g).
Proof. by destruct m. Qed.

Lemma segment_returns (choice : list pixel -> pixel) (img : ndarray) :
  picks choice ->
  ∃ M, segment choice img = Return M ∧
       ∀ p, p ∈ M -> in_bounds (shape_2d img) p = true.
Proof.
  intros Hpick. unfold segment.
  assert (∃ V : gset pixel,
            match find_nonzero_pixel choice img with
            | Some start => run_loop (flood_fill img start None)
            | None => Return ∅
            end = Return V ∧
            ∀ p, p ∈ V -> in_bounds (shape_2d img) p = true)
    as (V & -> & HV).
  { unfold find_nonzero_pixel.
    destruct (decide (length (nonzero_indices img) = 0%nat)) as [Hlen|Hlen].
    - exists ∅. split; [done|]. set_solver.
    - assert (choice (nonzero_indices img) ∈ nonzero_indices img) as Hin.
      { apply Hpick. intros E. by rewrite E in Hlen. }
      apply elem_of_nonzero_indices in Hin as [Hb _].
      destruct (flood_fill_reach img (choice (nonzero_indices img)))
        as (V & -> & Hreach).
      exists V. split; [done|]. intros p Hp%Hreach.
      destruct (reach_start_or_grows _ _ _ Hp) as [->|Hg]; [done|].
      by apply grows_in_bounds. }
  rewrite bind_Return.
  destruct (get_contour_in_bounds V (shape_2d img) HV) as (C & -> & HC).
  rewrite bind_Return. unfold fill_contour.
  rewrite mask_set_all_in_bounds.
  - eexists. split; [reflexivity|].
    intros p Hp. by apply elem_of_binary_fill_holes in Hp as [Hp _].
  - intros p Hp%elem_of_elements. apply HV. by apply HC in Hp as [Hp _].
Qed.

(** X7: the first stage of [main] (seed selection, flood fill, contour
    extraction, contour filling) raises nothing and does not diverge on any
    image, whatever pixel the random choice picks among the candidates; the
    mask it returns lies within the image; and [main] is this stage followed
    by the two extractions and the renaming. *)
Theorem main_segmentation_stage (JEWEL_LEFT_PATH JEWEL_RIGHT_PATH : string)
    (random_choice : nat -> list pixel -> pixel) (img : ndarray) (fs : files) :
  picks (random_choice 0%nat) ->
  ∃ M, segment (random_choice 0%nat) img = Return M ∧
       (∀ p, p ∈ M -> in_bounds (shape_2d img) p = true) ∧
       main JEWEL_LEFT_PATH JEWEL_RIGHT_PATH random_choice img fs =
       (fs ← extract_one_earring img M JEWEL_LEFT_PATH fs;
        fs ← extract_the_other random_choice img M JEWEL_RIGHT_PATH fs;
        left_and_right JEWEL_LEFT_PATH JEWEL_RIGHT_PATH
                       JEWEL_LEFT_PATH JEWEL_RIGHT_PATH fs).
Proof.
  intros Hpick.
  destruct (segment_returns _ img Hpick) as (M & HM & Hin).
  exists M. split; [done|]. split; [done|].
  transitivity (segment (random_choice 0%nat) img ≫= (fun M =>
     fs ← extract_one_earring img M JEWEL_LEFT_PATH fs;
     fs ← extract_the_other random_choice img M JEWEL_RIGHT_PATH fs;
     left_and_right JEWEL_LEFT_PATH JEWEL_RIGHT_PATH
                    JEWEL_LEFT_PATH JEWEL_RIGHT_PATH fs)).
  - unfold main, segment.
    destruct (match find_nonzero_pixel (random_choice 0%nat) img with
              | Some start => run_loop (flood_fill img start None)
              | None => Return ∅
              end) as [V| |]; [|reflexivity|reflexivity].
    rewrite !bind_Return.
    destruct (get_contour V (shape_2d img)) as [C| |]; reflexivity.
  - by rewrite HM.
Qed.

Lemma main_segmentation_stage_witness :
  picks (fun l => hd (0, 0) l) ∧
  ∃ M, segment (fun l => hd (0, 0) l) two_earrings = Return M ∧
       ∀ p, p ∈ M -> in_bounds (shape_2d two_earrings) p = true.
Proof.
  split; [exact picks_hd|].
  destruct (main_segmentation_stage "l" "r" (fun _ l => hd (0, 0) l)
              two_earrings ∅ picks_hd) as (M & H1 & H2 & _).
  exists M. split; [exact H1|exact H2].
Defined.

(** ** Cutting out one earring *)










(** ** The second earring *)

Lemma shape_2d_map_pixels (f : pixel -> list Z -> list Z) (a : ndarray) :
  shape_2d (map_pixels f a) = shape_2d a.
Proof.
  unfold shape_2d, shape0, shape1, map_pixels. rewrite length_imap.
  destruct a as [|row a]; [done|]. simpl. by rewrite length_imap.
Qed.

Lemma item_lookup (a : ndarray) (r c k : nat) :
  item a (Z.of_nat r) (Z.of_nat c) k
  = default 0 (px ← pixel_at a r c; px !! k).
Proof.
  unfold item, pixel_at. rewrite !Nat2Z.id, !nth_lookup.
  destruct (a !! r) as [row|]; simpl; [|by destruct c, k].
  destruct (row !! c) as [px|]; simpl; [done|by destruct k].
Qed.

Lemma item_mask_out (img : ndarray) (M : gset pixel) (r c : nat) :
  item (mask_out img M) (Z.of_nat r) (Z.of_nat c) 0
  = if decide ((Z.of_nat r, Z.of_nat c) ∈ M) then 0
    else item img (Z.of_nat r) (Z.of_nat c) 0.
Proof.
  rewrite !item_lookup. unfold pixel_at, mask_out.
  rewrite map_pixels_lookup.
  destruct (img !! r ≫= (.!! c)) as [px|]; simpl;
    [|by destruct (decide _)].
  rewrite list_lookup_imap. destruct (px !! 0%nat) as [v|]; simpl;
    [|by destruct (decide _)].
  destruct (decide ((Z.of_nat r, Z.of_nat c) ∈ M)); lia.
Qed.

Lemma in_bounds_nat (shape : nat * nat) (p : pixel) :
  in_bounds shape p = true ->
  p = (Z.of_nat (Z.to_nat p.1), Z.of_nat (Z.to_nat p.2)).
Proof.
  intros Hb%in_bounds_spec. destruct p as [x y]; simpl in *. f_equal; lia.
Qed.

Lemma mask_out_positive (img : ndarray) (M : gset pixel) (p : pixel) (t : Z) :
  0 <= t ->
  in_bounds (shape_2d (mask_out img M)) p = true ->
  t < item (mask_out img M) p.1 p.2 0 ->
  (p ∉ M) ∧ in_bounds (shape_2d img) p = true ∧ t < item img p.1 p.2 0.
Proof.
  intros Ht Hb Hpos. unfold mask_out in Hb. rewrite shape_2d_map_pixels in Hb.
  pose proof (in_bounds_nat _ _ Hb) as Hp.
  destruct p as [x y]; simpl in *. injection Hp as Hx Hy.
  rewrite Hx, Hy in Hpos. rewrite item_mask_out in Hpos.
  rewrite <- Hx, <- Hy in Hpos.
  destruct (decide ((x, y) ∈ M)); [lia|]. done.
Qed.

(** X11: the cluster that [extract_the_other] grows never holds a pixel of
    the first earring's mask: each of its pixels lies within the image,
    outside that mask, and has a positive first channel in the original
    image; and [extract_the_other] is contour extraction, filling and
    [extract_one_earring] applied to that cluster. *)
Theorem extract_the_other_cluster (random_choice : nat -> list pixel -> pixel)
    (img : ndarray) (filled_mask : gset pixel) (path : string) (fs : files) :
  picks (random_choice 1%nat) ->
  ∃ V, second_cluster (random_choice 1%nat) img filled_mask = Return V ∧
       V ## filled_mask ∧
       (∀ p, p ∈ V ->
             in_bounds (shape_2d img) p = true ∧ 0 < item img p.1 p.2 0) ∧
       extract_the_other random_choice img filled_mask path fs =
       (contour_pixels ←
          get_contour V (shape_2d (mask_out img filled_mask));
        filled ← fill_contour contour_pixels
                              (shape_2d (mask_out img filled_mask));
        extract_one_earring (mask_out img filled_mask) filled path fs).
Proof.
  intros Hpick.
  assert (∃ V, second_cluster (random_choice 1%nat) img filled_mask = Return V ∧
               ∀ p, p ∈ V -> (p ∉ filled_mask) ∧
                              in_bounds (shape_2d img) p = true ∧
                              0 < item img p.1 p.2 0) as (V & HV & Hmem).
  { unfold second_cluster, find_nonzero_pixel.
    destruct (decide (length (nonzero_indices (mask_out img filled_mask)) = 0%nat))
      as [Hlen|Hlen].
    { exists ∅. split; [done|]. set_solver. }
    set (cands := nonzero_indices (mask_out img filled_mask)) in *.
    assert (choice_in : random_choice 1%nat cands ∈ cands).
    { apply Hpick. intros E. by rewrite E in Hlen. }
    apply elem_of_nonzero_indices in choice_in as [Hb Hpos].
    destruct (flood_fill_reach (mask_out img filled_mask)
                (random_choice 1%nat cands)) as (V & -> & Hreach).
    exists V. split; [done|]. intros p Hp%Hreach.
    destruct (reach_start_or_grows _ _ _ Hp) as [->|Hg].
    - by apply (mask_out_positive img filled_mask _ 0).
    - unfold grows in Hg. apply andb_true_iff in Hg as [Hgb Hgt].
      destruct (mask_out_positive img filled_mask p 10) as (H1 & H2 & H3);
        [lia|done|lia|]. split; [done|]. split; [done|lia]. }
  exists V. split; [done|]. split; [|split].
  - intros p Hp Hm. by destruct (Hmem p Hp).
  - intros p Hp. by destruct (Hmem p Hp) as (_ & ? & ?).
  - unfold extract_the_other. fold (mask_out img filled_mask).
    fold (second_cluster (random_choice 1%nat) img filled_mask).
    rewrite HV. reflexivity.
Qed.

Lemma extract_the_other_cluster_witness :
  picks (fun l => hd (0, 0) l) ∧
  ∃ V, second_cluster (fun l => hd (0, 0) l) two_earrings {[ (1, 1) ]}
       = Return V ∧ V ## ({[ (1, 1) ]} : gset pixel).
Proof.
  split; [exact picks_hd|].
  destruct (extract_the_other_cluster (fun _ l => hd (0, 0) l) two_earrings
              {[ (1, 1) ]} "r.png" ∅ picks_hd) as (V & H1 & H2 & _).
  exists V. split; [exact H1|exact H2].
Defined.

(** ** Left and right, further *)

(** X12: when the two cutouts are stored at paths other than the two
    destination paths, [left_and_right] moves the one whose centroid x is
    strictly smaller to the left path and the other to the right path (the
    second cutout goes left when the two are equal); both source paths are
    vacated and every other file is untouched. *)
Theorem left_and_right_fresh_paths (JEWEL_LEFT_PATH JEWEL_RIGHT_PATH : string)
    (fs : files) (x1 y1 x2 y2 : Z) (e1 e2 : string) :
  JEWEL_LEFT_PATH ≠ JEWEL_RIGHT_PATH ->
  e1 ≠ e2 ->
  e1 ≠ JEWEL_LEFT_PATH -> e1 ≠ JEWEL_RIGHT_PATH ->
  e2 ≠ JEWEL_LEFT_PATH -> e2 ≠ JEWEL_RIGHT_PATH ->
  jewel_center fs e1 = Return (Some (x1, y1)) ->
  jewel_center fs e2 = Return (Some (x2, y2)) ->
  ∃ fs', left_and_right JEWEL_LEFT_PATH JEWEL_RIGHT_PATH e1 e2 fs = Return fs' ∧
         fs' !! JEWEL_LEFT_PATH = fs !! (if x1 <? x2 then e1 else e2) ∧
         fs' !! JEWEL_RIGHT_PATH = fs !! (if x1 <? x2 then e2 else e1) ∧
         fs' !! e1 = None ∧ fs' !! e2 = None ∧
         (∀ p, p ≠ e1 -> p ≠ e2 -> p ≠ JEWEL_LEFT_PATH -> p ≠ JEWEL_RIGHT_PATH ->
               fs' !! p = fs !! p).
Proof.
  intros HLR H12 H1L H1R H2L H2R Hc1 Hc2.
  destruct (jewel_center_file _ _ _ Hc1) as [f1 Hf1].
  destruct (jewel_center_file _ _ _ Hc2) as [f2 Hf2].
  unfold left_and_right. rewrite Hc1, Hc2. simpl.
  destruct (x1 <? x2); unfold os_rename.
  - rewrite Hf1. simpl.
    rewrite lookup_insert_ne, lookup_delete_ne, Hf2 by done.
    eexists. split; [reflexivity|]. split_and!.
    + by rewrite lookup_insert_ne, lookup_delete_ne, lookup_insert_eq.
    + by rewrite lookup_insert_eq.
    + by rewrite lookup_insert_ne, lookup_delete_ne, lookup_insert_ne,
        lookup_delete_eq.
    + by rewrite lookup_insert_ne, lookup_delete_eq.
    + intros p ? ? ? ?.
      by rewrite lookup_insert_ne, lookup_delete_ne, lookup_insert_ne,
        lookup_delete_ne.
  - rewrite Hf2. simpl.
    rewrite lookup_insert_ne, lookup_delete_ne, Hf1 by done.
    eexists. split; [reflexivity|]. split_and!.
    + by rewrite lookup_insert_ne, lookup_delete_ne, lookup_insert_eq.
    + by rewrite lookup_insert_eq.
    + by rewrite lookup_insert_ne, lookup_delete_eq.
    + by rewrite lookup_insert_ne, lookup_delete_ne, lookup_insert_ne,
        lookup_delete_eq.
    + intros p ? ? ? ?.
      by rewrite lookup_insert_ne, lookup_delete_ne, lookup_insert_ne,
        lookup_delete_ne.
Qed.

Lemma left_and_right_fresh_paths_witness :
  let fs : files := <["a.png"%string := cutout_right]>
                      (<["b.png"%string := cutout_left]> ∅) in
  jewel_center fs "a.png" = Return (Some (3, 0)) ∧
  jewel_center fs "b.png" = Return (Some (0, 0)) ∧
  ∃ fs', left_and_right "left.png" "right.png" "a.png" "b.png" fs = Return fs' ∧
         fs' !! "left.png"%string = Some cutout_left ∧
         fs' !! "right.png"%string = Some cutout_right.
Proof.
  cbv zeta.
  set (fs := <["a.png"%string := cutout_right]>
               (<["b.png"%string := cutout_left]> (∅ : files))).
  assert (jewel_center fs "a.png" = Return (Some (3, 0))) as H1
    by (vm_compute; reflexivity).
  assert (jewel_center fs "b.png" = Return (Some (0, 0))) as H2
    by (vm_compute; reflexivity).
  split; [exact H1|]. split; [exact H2|].
  destruct (left_and_right_fresh_paths "left.png" "right.png" fs 3 0 0 0
              "a.png" "b.png" ltac:(discriminate) ltac:(discriminate)
              ltac:(discriminate) ltac:(discriminate) ltac:(discriminate)
              ltac:(discriminate) H1 H2) as (fs' & Hr & HL & HR & _).
  exists fs'. split; [exact Hr|]. split.
  - rewrite HL. reflexivity.
  - rewrite HR. reflexivity.
Defined.

(** X13: called on the two destination paths themselves, as [main] calls
    it, [left_and_right] leaves the file system unchanged when the cutout at
    the left path has the strictly smaller centroid x; otherwise it ends
    with no file at the left path, the cutout that was at the right path
    still there, and the cutout that was at the left path gone. *)
Theorem left_and_right_on_destinations (JEWEL_LEFT_PATH JEWEL_RIGHT_PATH : string)
    (fs : files) (x1 y1 x2 y2 : Z) :
  JEWEL_LEFT_PATH ≠ JEWEL_RIGHT_PATH ->
  jewel_center fs JEWEL_LEFT_PATH = Return (Some (x1, y1)) ->
  jewel_center fs JEWEL_RIGHT_PATH = Return (Some (x2, y2)) ->
  ∃ fs', left_and_right JEWEL_LEFT_PATH JEWEL_RIGHT_PATH
                        JEWEL_LEFT_PATH JEWEL_RIGHT_PATH fs = Return fs' ∧
         (x1 < x2 -> fs' = fs) ∧
         (x2 <= x1 ->
            fs' !! JEWEL_LEFT_PATH = None ∧
            fs' !! JEWEL_RIGHT_PATH = fs !! JEWEL_RIGHT_PATH ∧
            fs' = delete JEWEL_LEFT_PATH fs).
Proof.
  intros HLR Hc1 Hc2.
  destruct (jewel_center_file _ _ _ Hc1) as [f1 Hf1].
  destruct (jewel_center_file _ _ _ Hc2) as [f2 Hf2].
  unfold left_and_right. rewrite Hc1, Hc2. simpl.
  destruct (x1 <? x2) eqn:E; unfold os_rename.
  - rewrite Hf1. simpl. rewrite (insert_delete_id fs _ _ Hf1), Hf2. simpl.
    rewrite (insert_delete_id fs _ _ Hf2).
    eexists. split; [reflexivity|]. split; [done|]. lia.
  - rewrite Hf2. simpl. rewrite lookup_insert_eq.
    eexists. split; [reflexivity|]. split; [lia|]. intros _.
    assert (<[JEWEL_RIGHT_PATH:=f2]>
              (delete JEWEL_LEFT_PATH
                 (<[JEWEL_LEFT_PATH:=f2]> (delete JEWEL_RIGHT_PATH fs)))
            = delete JEWEL_LEFT_PATH fs) as ->.
    { apply map_eq. intros p.
      destruct (decide (p = JEWEL_RIGHT_PATH)) as [->|HpR].
      - by rewrite lookup_insert_eq, lookup_delete_ne.
      - rewrite lookup_insert_ne by done.
        destruct (decide (p = JEWEL_LEFT_PATH)) as [->|HpL].
        + by rewrite !lookup_delete_eq.
        + by rewrite !lookup_delete_ne, lookup_insert_ne, lookup_delete_ne. }
    split; [by rewrite lookup_delete_eq|].
    split; [by rewrite lookup_delete_ne|done].
Qed.

Lemma left_and_right_on_destinations_witness :
  let fs : files := <["left.png"%string := cutout_left]>
                      (<["right.png"%string := cutout_right]> ∅) in
  jewel_center fs "left.png" = Return (Some (0, 0)) ∧
  jewel_center fs "right.png" = Return (Some (3, 0)) ∧
  left_and_right "left.png" "right.png" "left.png" "right.png" fs = Return fs.
Proof.
  cbv zeta.
  set (fs := <["left.png"%string := cutout_left]>
               (<["right.png"%string := cutout_right]> (∅ : files))).
  assert (jewel_center fs "left.png" = Return (Some (0, 0))) as H1
    by (vm_compute; reflexivity).
  assert (jewel_center fs "right.png" = Return (Some (3, 0))) as H2
    by (vm_compute; reflexivity).
  split; [exact H1|]. split; [exact H2|].
  destruct (left_and_right_on_destinations "left.png" "right.png" fs 0 0 3 0
              ltac:(discriminate) H1 H2) as (fs' & Hr & Hsame & _).
  rewrite Hr. f_equal. apply Hsame. lia.
Defined.

(** X14: when the first cutout has no alpha channel or no foreground
    pixel, or the first has a centroid and the second has no alpha channel
    or no foreground pixel, [left_and_right] raises before any file is
    renamed: [IndexError] when that cutout is a grey file without alpha
    channel, which is read as a two-dimensional array, and [TypeError]
    otherwise. *)
Theorem left_and_right_no_object (JEWEL_LEFT_PATH JEWEL_RIGHT_PATH : string)
    (fs : files) (e1 e2 : string) (img : ndarray) :
  shape2 img ≠ 4%nat ∨ (∀ r c, ¬ foreground img r c) ->
  cv2_imread fs e1 = Some img ∨
  ((∃ c1, jewel_center fs e1 = Return (Some c1)) ∧ cv2_imread fs e2 = Some img) ->
  left_and_right JEWEL_LEFT_PATH JEWEL_RIGHT_PATH e1 e2 fs
  = Raise (if decide (shape2 img = 1%nat) then IndexError else TypeError).
Proof.
  intros Hund Hcase.
  assert (∀ e, cv2_imread fs e = Some img ->
               jewel_center fs e =
               if decide (shape2 img = 1%nat) then Raise IndexError
               else Return None) as Hnone.
  { intros e He. destruct (decide (shape2 img = 1%nat)) as [Hg|Hg].
    - apply (jewel_center_grey fs e img He Hg).
    - apply (jewel_center_none fs e img He Hg). tauto. }
  unfold left_and_right.
  destruct Hcase as [H1 | [[[x y] H1] H2]].
  - rewrite (Hnone _ H1). by destruct (decide (shape2 img = 1%nat)).
  - rewrite H1, (Hnone _ H2). by destruct (decide (shape2 img = 1%nat)).
Qed.

Lemma left_and_right_no_object_witness :
  let fs : files := <["a.png"%string := cutout_right]>
                      (<["b.png"%string := [ [ [7; 7; 7] ] ]]> ∅) in
  shape2 [ [ [7; 7; 7] ] ] ≠ 4%nat ∧
  jewel_center fs "a.png" = Return (Some (3, 0)) ∧
  cv2_imread fs "b.png" = Some [ [ [7; 7; 7] ] ] ∧
  left_and_right "left.png" "right.png" "a.png" "b.png" fs = Raise TypeError.
Proof.
  cbv zeta.
  set (fs := <["a.png"%string := cutout_right]>
               (<["b.png"%string := [ [ [7; 7; 7] ] ]]> (∅ : files))).
  assert (shape2 [ [ [7; 7; 7] ] ] ≠ 4%nat) as H0 by (vm_compute; discriminate).
  assert (jewel_center fs "a.png" = Return (Some (3, 0))) as H1
    by (vm_compute; reflexivity).
  assert (cv2_imread fs "b.png" = Some [ [ [7; 7; 7] ] ]) as H2
    by (vm_compute; reflexivity).
  split; [exact H0|]. split; [exact H1|]. split; [exact H2|].
  apply (left_and_right_no_object "left.png" "right.png" fs "a.png" "b.png"
           [ [ [7; 7; 7] ] ]).
  - left. exact H0.
  - right. split; [by eexists|exact H2].
Defined.

(** ** The centroid *)

Lemma row_moment_const (g : Z) (row : list Z) :
  two_valued 255 row ->
  sum_list (imap (fun _ v => g * v) row)
  = 255 * sum_list (omap (fun v => if 0 <? v then Some g else None) row).
Proof.
  induction 1 as [|v row Hv _ IH]; [done|].
  rewrite imap_cons. unfold compose. cbv beta. csimpl.
  fold (sum_list (imap (fun _ v => g * v) row)). rewrite IH.
  destruct Hv as [-> | ->]; simpl; lia.
Qed.

Lemma rows_moment (f : nat -> Z) (a : list (list Z)) :
  Forall (two_valued 255) a ->
  sum_list (imap (fun r row => sum_list (imap (fun c v => f r * v) row)) a)
  = 255 * sum_list (mjoin (imap (fun r row =>
            omap (fun v => if 0 <? v then Some (f r) else None) row) a)).
Proof.
  intros Ha. revert f. induction Ha as [|row a Hrow _ IH]; intros f; [done|].
  rewrite !imap_cons, join_cons, sum_list_app.
  specialize (IH (f ∘ S)). unfold compose in *. cbv beta in *.
  cbn [sum_list foldr].
  fold (sum_list (imap (fun r row =>
          sum_list (imap (fun c v => f (S r) * v) row)) a)).
  rewrite IH, (row_moment_const (f 0%nat) row Hrow). lia.
Qed.

Lemma m01_where_rows (a : list (list Z)) :
  Forall (two_valued 255) a -> m01 a = 255 * sum_list (where_rows a).
Proof. intros Ha. unfold m01, moment, where_rows. by apply (rows_moment Z.of_nat). Qed.

Lemma length_where_row (g : Z) (h : nat -> Z) (row : list Z) :
  length (omap (fun v => if 0 <? v then Some g else None) row)
  = length (mjoin (imap (fun c v => if 0 <? v then [h c] else []) row)).
Proof.
  revert h. induction row as [|v row IH]; intros h; [done|].
  rewrite imap_cons, join_cons, length_app. unfold compose. csimpl.
  rewrite <- (IH (fun x => h (S x))).
  destruct (0 <? v); simpl; lia.
Qed.

Lemma length_where (f : nat -> Z) (a : list (list Z)) :
  length (mjoin (imap (fun r row =>
            omap (fun v => if 0 <? v then Some (f r) else None) row) a))
  = length (where_cols a).
Proof.
  unfold where_cols. revert f. induction a as [|row a IH]; intros f; [done|].
  rewrite !imap_cons, !join_cons, !length_app.
  specialize (IH (f ∘ S)). unfold compose in *. cbv beta in *. rewrite IH.
  f_equal. apply length_where_row.
Qed.

Lemma length_where_rows (a : list (list Z)) :
  length (where_rows a) = length (where_cols a).
Proof. apply (length_where Z.of_nat). Qed.

Lemma centroid_y_moments (img : ndarray) :
  Z.quot (m01 (binary_mask img)) (m00 (binary_mask img))
  = centroid_y (binary_mask img).
Proof.
  unfold centroid_y.
  rewrite m01_where_rows, m00_where_cols by apply binary_mask_two_valued.
  rewrite length_where_rows.
  destruct (where_cols (binary_mask img)) as [|x l].
  - simpl length. change (Z.of_nat 0) with 0.
    by rewrite Z.mul_0_r, !Zquot.Zquot_0_r.
  - apply Z.quot_mul_cancel_l; simpl length; lia.
Qed.

Lemma sum_list_bounds (l : list Z) (lo hi : Z) :
  (∀ x, x ∈ l -> lo <= x <= hi) ->
  lo * Z.of_nat (length l) <= sum_list l <= hi * Z.of_nat (length l).
Proof.
  induction l as [|x l IH]; intros Hl; simpl; [lia|].
  assert (lo <= x <= hi) by (apply Hl; left).
  assert (∀ y, y ∈ l -> lo <= y <= hi) as Hl' by (intros y Hy; apply Hl; by right).
  specialize (IH Hl'). fold (sum_list l). lia.
Qed.

Lemma sum_list_nonneg (l : list Z) :
  (∀ x, x ∈ l -> 0 <= x) -> 0 <= sum_list l.
Proof.
  induction l as [|x l IH]; intros Hl; simpl; [lia|].
  assert (0 <= x) by (apply Hl; left).
  assert (0 <= sum_list l) by (apply IH; intros y Hy; apply Hl; by right).
  fold (sum_list l). lia.
Qed.

(** The truncated mean of a non-empty list of non-negative numbers lies
    between any bounds of its elements. *)
Lemma mean_bounds (l : list Z) (lo hi : Z) :
  l ≠ [] -> (∀ x, x ∈ l -> 0 <= x) ->
  (∀ x, x ∈ l -> lo <= x <= hi) ->
  lo <= Z.quot (sum_list l) (Z.of_nat (length l)) <= hi.
Proof.
  intros Hne Hpos Hl.
  assert (0 < Z.of_nat (length l)) as Hn by (destruct l; [done|simpl; lia]).
  pose proof (sum_list_bounds l lo hi Hl) as [H1 H2].
  pose proof (sum_list_nonneg l Hpos) as Hs.
  rewrite Z.quot_div_nonneg by lia. split.
  - apply Z.div_le_lower_bound; lia.
  - apply Z.div_le_upper_bound; lia.
Qed.

Lemma where_cols_foreground (img : ndarray) (x : Z) :
  x ∈ where_cols (binary_mask img) <->
  ∃ r c, x = Z.of_nat c ∧ foreground img r c.
Proof.
  rewrite elem_of_where_cols. split; intros (r & c & -> & H); exists r, c;
    (split; [done|]); by apply foreground_mask_fg.
Qed.

Lemma where_rows_foreground_iff (img : ndarray) (y : Z) :
  y ∈ where_rows (binary_mask img) <->
  ∃ r c, y = Z.of_nat r ∧ foreground img r c.
Proof.
  rewrite elem_of_where_rows. split; intros (r & c & -> & H); exists r, c;
    (split; [done|]); by apply foreground_mask_fg.
Qed.

Lemma jewel_center_eval (fs : files) (path : string) (img : ndarray) :
  cv2_imread fs path = Some img -> shape2 img = 4%nat ->
  m00 (binary_mask img) ≠ 0 ->
  jewel_center fs path
  = Return (Some (centroid_x (binary_mask img), centroid_y (binary_mask img))).
Proof.
  intros Hread Hshape Hm. unfold jewel_center. rewrite Hread.
  rewrite (shape_third_4 _ Hshape), bind_Return.
  destruct (decide (4%nat = 4%nat)); [|done].
  fold (binary_mask img).
  destruct (decide (m00 (binary_mask img) ≠ 0)); [|done].
  unfold int_div. destruct (m00 (binary_mask img) =? 0) eqn:E; [lia|].
  simpl. by rewrite centroid_x_moments, centroid_y_moments.
Qed.

Lemma jewel_anchor_point_eval (fs : files) (path : string) (img : ndarray) :
  cv2_imread fs path = Some img -> shape2 img = 4%nat ->
  m00 (binary_mask img) ≠ 0 ->
  ∃ hy ly,
    jewel_anchor_point fs path
    = Return (Some (centroid_x (binary_mask img), hy + (ly - hy) / 11)) ∧
    hy ∈ where_rows (binary_mask img) ∧ ly ∈ where_rows (binary_mask img) ∧
    ∀ y, y ∈ where_rows (binary_mask img) -> hy <= y <= ly.
Proof.
  intros Hread Hshape Hm.
  assert (where_rows (binary_mask img) ≠ []) as Hne.
  { intros E. apply Hm. rewrite m00_where_cols by apply binary_mask_two_valued.
    by rewrite <- length_where_rows, E. }
  destruct (np_min_spec _ Hne) as (hy & Hmin & Hhy & Hle).
  destruct (np_max_spec _ Hne) as (ly & Hmax & Hly & Hge).
  exists hy, ly. split; [|split; [done|split; [done|]]].
  - unfold jewel_anchor_point. rewrite Hread.
    rewrite (shape_third_4 _ Hshape), bind_Return.
    destruct (decide (4%nat = 4%nat)); [|done].
    fold (binary_mask img).
    destruct (decide (m00 (binary_mask img) ≠ 0)); [|done].
    unfold int_div. destruct (m00 (binary_mask img) =? 0) eqn:E; [lia|]. simpl.
    destruct (decide (length (where_rows (binary_mask img)) = 0%nat)) as [Hl|_].
    { by apply nil_length_inv in Hl. }
    rewrite Hmin, Hmax. simpl. by rewrite centroid_x_moments.
  - intros y Hy. split; [by apply Hle|by apply Hge].
Qed.

(** X15: for a cutout with an alpha channel and at least one foreground
    pixel, the centre that [jewel_center] returns and the anchor that
    [jewel_anchor_point] returns both lie within the bounding box of the
    foreground: their x between the least and the greatest foreground
    column, their y between the least and the greatest foreground row. *)
Theorem jewel_points_in_bounding_box (fs : files) (jewel_path : string)
    (img : ndarray) (left right top bottom : Z) :
  cv2_imread fs jewel_path = Some img ->
  shape2 img = 4%nat ->
  (∃ r c, foreground img r c) ->
  (∀ r c, foreground img r c ->
          left <= Z.of_nat c <= right ∧ top <= Z.of_nat r <= bottom) ->
  ∃ cX cY y,
    jewel_center fs jewel_path = Return (Some (cX, cY)) ∧
    jewel_anchor_point fs jewel_path = Return (Some (cX, y)) ∧
    left <= cX <= right ∧ top <= cY <= bottom ∧ top <= y <= bottom.
Proof.
  intros Hread Hshape (r0 & c0 & Hfg) Hbox.
  assert (m00 (binary_mask img) ≠ 0) as Hm.
  { pose proof (m00_positive _ _ _ Hfg). lia. }
  destruct (jewel_anchor_point_eval fs jewel_path img Hread Hshape Hm)
    as (hy & ly & Hanchor & Hhy & Hly & Hext).
  exists (centroid_x (binary_mask img)), (centroid_y (binary_mask img)),
         (hy + (ly - hy) / 11).
  split; [by apply jewel_center_eval|]. split; [done|].
  assert (Z.of_nat c0 ∈ where_cols (binary_mask img)) as Hc0.
  { apply where_cols_foreground. by exists r0, c0. }
  assert (Z.of_nat r0 ∈ where_rows (binary_mask img)) as Hr0.
  { apply where_rows_foreground_iff. by exists r0, c0. }
  split; [|split].
  - unfold centroid_x. apply mean_bounds.
    + intros E. rewrite E in Hc0. by apply elem_of_nil in Hc0.
    + intros x (r & c & -> & _)%where_cols_foreground. lia.
    + intros x (r & c & -> & H)%where_cols_foreground.
      by destruct (Hbox r c H).
  - unfold centroid_y. apply mean_bounds.
    + intros E. rewrite E in Hr0. by apply elem_of_nil in Hr0.
    + intros x (r & c & -> & _)%where_rows_foreground_iff. lia.
    + intros x (r & c & -> & H)%where_rows_foreground_iff.
      by destruct (Hbox r c H).
  - apply where_rows_foreground_iff in Hhy as (rh & ch & -> & Hh).
    apply where_rows_foreground_iff in Hly as (rl & cl & -> & Hl).
    destruct (Hbox _ _ Hh) as [_ Hh'], (Hbox _ _ Hl) as [_ Hl'].
    assert (Z.of_nat rh <= Z.of_nat rl) as Hord.
    { apply (Hext (Z.of_nat rl)). apply where_rows_foreground_iff. eauto. }
    pose proof (Z.div_pos (Z.of_nat rl - Z.of_nat rh) 11 ltac:(lia) ltac:(lia)).
    assert ((Z.of_nat rl - Z.of_nat rh) / 11 <= Z.of_nat rl - Z.of_nat rh).
    { apply Z.div_le_upper_bound; lia. }
    lia.
Qed.

Lemma jewel_points_in_bounding_box_witness :
  cv2_imread {[ "e.png"%string := cutout_right ]} "e.png" = Some cutout_right ∧
  shape2 cutout_right = 4%nat ∧
  (∃ r c, foreground cutout_right r c) ∧
  (∀ r c, foreground cutout_right r c ->
          3 <= Z.of_nat c <= 3 ∧ 0 <= Z.of_nat r <= 0) ∧
  jewel_center {[ "e.png"%string := cutout_right ]} "e.png"
  = Return (Some (3, 0)).
Proof.
  assert (cv2_imread {[ "e.png"%string := cutout_right ]} "e.png"
          = Some cutout_right) as H1 by reflexivity.
  assert (shape2 cutout_right = 4%nat) as H2 by reflexivity.
  assert (∃ r c, foreground cutout_right r c) as H3.
  { exists 0%nat, 3%nat, [9; 9; 9; 255]. split; [reflexivity|simpl; lia]. }
  assert (∀ r c, foreground cutout_right r c ->
                 3 <= Z.of_nat c <= 3 ∧ 0 <= Z.of_nat r <= 0) as H4.
  { intros r c (px & Hpx & Hpos). unfold cutout_right in Hpx.
    destruct r as [|r]; [|done]. simpl in Hpx.
    do 3 (destruct c as [|c]; [injection Hpx as <-; simpl in Hpos; lia|]).
    destruct c as [|c]; [simpl; lia|done]. }
  split; [exact H1|]. split; [exact H2|]. split; [exact H3|]. split; [exact H4|].
  destruct (jewel_points_in_bounding_box _ _ _ 3 3 0 0 H1 H2 H3 H4)
    as (cX & cY & y & Hc & _ & HX & HY & _).
  rewrite Hc. assert (cX = 3) as -> by lia. assert (cY = 0) as -> by lia.
  reflexivity.
Defined.

(** X16: [jewel_anchor_point] and [jewel_center] fail or succeed together
    on every file system and path: both raise the same exception, or both
    return [None], or both return a point, with the same x. *)
Theorem jewel_anchor_point_agrees (fs : files) (jewel_path : string) :
  match jewel_center fs jewel_path with
  | Return None => jewel_anchor_point fs jewel_path = Return None
  | Return (Some (cX, _)) =>
      ∃ y, jewel_anchor_point fs jewel_path = Return (Some (cX, y))
  | Raise e => jewel_anchor_point fs jewel_path = Raise e
  | Diverge => False
  end.
Proof.
  destruct (cv2_imread fs jewel_path) as [img|] eqn:Hread.
  - destruct (decide (shape2 img = 4%nat)) as [Hs|Hs].
    + destruct (decide (m00 (binary_mask img) = 0)) as [Hz|Hz].
      * destruct (jewel_center_none fs jewel_path img Hread) as [-> ->];
          [lia|tauto|done].
      * rewrite (jewel_center_eval fs jewel_path img Hread Hs Hz).
        destruct (jewel_anchor_point_eval fs jewel_path img Hread Hs Hz)
          as (hy & ly & -> & _). eauto.
    + destruct (decide (shape2 img = 1%nat)) as [Hg|Hg].
      * destruct (jewel_center_grey fs jewel_path img Hread Hg) as [-> ->].
        done.
      * destruct (jewel_center_none fs jewel_path img Hread) as [-> ->];
          [done|tauto|done].
  - unfold jewel_center, jewel_anchor_point. by rewrite Hread.
Qed.

(** ** The crop and the box *)

(** X17: the crop that [adjust_crop_area] returns is centred on the box to
    within one pixel in each direction; it contains the box in every
    dimension that does not exceed the floor, and lies within the box in
    every dimension that is not below it. *)
Theorem adjust_crop_area_centred (x y w h min_size : Z) :
  ∃ x' y' x_end y_end,
    adjust_crop_area x y w h min_size = (x', y', x_end, y_end) ∧
    (-1 <= (x' + x_end) - (x + (x + w)) <= 1) ∧
    (-1 <= (y' + y_end) - (y + (y + h)) <= 1) ∧
    (w <= min_size -> x' <= x ∧ x + w <= x_end) ∧
    (min_size <= w -> x <= x' ∧ x_end <= x + w) ∧
    (h <= min_size -> y' <= y ∧ y + h <= y_end) ∧
    (min_size <= h -> y <= y' ∧ y_end <= y + h).
Proof.
  unfold adjust_crop_area.
  pose proof (adjust_spec x w min_size) as Hx.
  pose proof (adjust_spec y h min_size) as Hy.
  destruct (adjust x (x + w) w min_size) as [x' x_end].
  destruct (adjust y (y + h) h min_size) as [y' y_end].
  destruct Hx as (Hx0 & Hx1 & Hx2 & Hx3), Hy as (Hy0 & Hy1 & Hy2 & Hy3).
  exists x', y', x_end, y_end. split; [done|].
  pose proof (Z.div_pos (min_size - w) 2).
  pose proof (Z.div_pos (w - min_size) 2).
  pose proof (Z.div_pos (min_size - h) 2).
  pose proof (Z.div_pos (h - min_size) 2).
  assert (w < min_size ∨ w = min_size ∨ min_size < w) as [Hw|[Hw|Hw]] by lia;
  assert (h < min_size ∨ h = min_size ∨ min_size < h) as [Hh|[Hh|Hh]] by lia;
    repeat match goal with
           | H : ?a < ?b -> _, H' : ?a < ?b |- _ => specialize (H H')
           | H : ?a = ?b -> _, H' : ?a = ?b |- _ => specialize (H H')
           end;
    lia.
Qed.

Lemma lookup_fmap_seqZ {A : Type} (f : Z -> A) (start len : Z) (i : nat) :
  Z.of_nat i < len ->
  (f <$> seqZ start len) !! i = Some (f (start + Z.of_nat i)).
Proof.
  intros Hi. rewrite list_lookup_fmap, lookup_seqZ_lt by lia. done.
Qed.

Lemma default_Some {A : Type} (d x : A) : default d (Some x) = x.
Proof. reflexivity. Qed.

(** X18: whatever the ear box, the image that [model_anchor_point] hands to
    the earlobe detector has 224 rows of 224 pixels; a pixel of the crop
    that falls within the model image has the channel values of the image
    at the crop origin plus its position, and every other pixel of the crop
    is zero.  Whatever the detector, [model_anchor_point] raises
    [AssertionError] when it finds nothing in this crop and otherwise
    returns the crop origin plus the truncated centre of the first box. *)
Theorem model_anchor_point_crop (model_image : ndarray) (x y w h : Z) :
  ∃ x' y' x_end y_end,
    adjust_crop_area x y w h default_min_size = (x', y', x_end, y_end) ∧
    let crop := pil_crop model_image (x', y', x_end, y_end) in
    length crop = 224%nat ∧
    Forall (fun row => length row = 224%nat) crop ∧
    (∀ (i j k : nat), (i < 224)%nat -> (j < 224)%nat ->
      item crop (Z.of_nat j) (Z.of_nat i) k =
      if in_bounds (shape_2d model_image) (y' + Z.of_nat j, x' + Z.of_nat i)
      then item model_image (y' + Z.of_nat j) (x' + Z.of_nat i) k
      else 0) ∧
    ∀ detect_earlobe : ndarray -> list (Z * Z * Z * Z),
      model_anchor_point detect_earlobe model_image x y w h =
      match detect_earlobe crop with
      | (box_x, box_y, box_w, box_h) :: _ =>
          Return (x' + Z.quot (2 * box_x + box_w) 2,
                  y' + Z.quot (2 * box_y + box_h) 2)
      | [] => Raise AssertionError
      end.
Proof.
  destruct (adjust_crop_area x y w h default_min_size)
    as [[[x' y'] x_end] y_end] eqn:E.
  assert (∀ detect_earlobe : ndarray -> list (Z * Z * Z * Z),
            model_anchor_point detect_earlobe model_image x y w h =
            match detect_earlobe
                    (pil_crop model_image (x', y', x_end, y_end)) with
            | (box_x, box_y, box_w, box_h) :: _ =>
                Return (x' + Z.quot (2 * box_x + box_w) 2,
                        y' + Z.quot (2 * box_y + box_h) 2)
            | [] => Raise AssertionError
            end) as Hm.
  { intros d. unfold model_anchor_point. rewrite E. cbv beta iota zeta.
    destruct (d (pil_crop model_image (x', y', x_end, y_end)))
      as [|[[[bx by'] bw] bh] l]; reflexivity. }
  assert (x_end - x' = 224 ∧ y_end - y' = 224) as [Hw Hh].
  { unfold adjust_crop_area in E.
    pose proof (adjust_spec x w default_min_size) as Hx.
    pose proof (adjust_spec y h default_min_size) as Hy.
    destruct (adjust x (x + w) w default_min_size) as [a b].
    destruct (adjust y (y + h) h default_min_size) as [c d].
    injection E as <- <- <- <-. unfold default_min_size in *. lia. }
  exists x', y', x_end, y_end. split; [done|]. cbv zeta.
  split; [|split; [|split; [|exact Hm]]];
    unfold pil_crop; cbv beta iota; rewrite Hw, Hh.
  - rewrite length_fmap, length_seqZ. lia.
  - apply Forall_fmap, Forall_forall. intros r _. unfold compose.
    rewrite length_fmap, length_seqZ. lia.
  - intros i j k Hi Hj. unfold item at 1. rewrite !Nat2Z.id, !nth_lookup.
    rewrite (lookup_fmap_seqZ _ y' 224 j), default_Some by lia.
    rewrite (lookup_fmap_seqZ _ x' 224 i), default_Some by lia.
    destruct (in_bounds (shape_2d model_image) (y' + Z.of_nat j, x' + Z.of_nat i)).
    + unfold item. by rewrite !nth_lookup.
    + destruct (replicate (shape2 model_image) 0 !! k) as [v|] eqn:Hv; [|done].
      by apply lookup_replicate in Hv as [-> _].
Qed.

Example model_anchor_crop_corner :
  item (pil_crop [ [ [7; 8; 9] ] ] (adjust_crop_area 10 10 100 50 224)) 77 52 1 = 8
  ∧ item (pil_crop [ [ [7; 8; 9] ] ] (adjust_crop_area 10 10 100 50 224)) 0 0 1 = 0.
Proof. split; vm_compute; reflexivity. Qed.

(** ** Ear detection *)

(** X19: with an image at the path and as many labels as boxes,
    [ear_ring_place] raises the plain exception when the detector finds
    nothing; otherwise it uses the first two detections only, files each
    under "left" when its label is "leftears" and under "right" for any
    other label, and lets the second detection replace the first when both
    fall on the same side. *)
Theorem ear_ring_place_spec (detect_ear : string -> list box * list string)
    (fs : files) (model_path : string)
    (detected_locations : list box) (detected_keys : list string) :
  is_Some (fs !! model_path) ->
  detect_ear model_path = (detected_locations, detected_keys) ->
  length detected_keys = length detected_locations ->
  ear_ring_place detect_ear fs model_path =
  match detected_locations, detected_keys with
  | b1 :: b2 :: _, k1 :: k2 :: _ =>
      inr (<[ear_side k2 := b2]> (<[ear_side k1 := b1]> ∅))
  | [b1], k1 :: _ => inr (<[ear_side k1 := b1]> ∅)
  | _, _ => inl (PlainException "No ear detected in the image")
  end.
Proof.
  intros [img Himg] Hdet Hlen. unfold ear_ring_place. rewrite Himg, Hdet.
  destruct detected_locations as [|b1 [|b2 locs]];
    destruct detected_keys as [|k1 [|k2 keys]]; try done.
  - cbn. unfold place_ear, ear_side. cbn.
    destruct (decide (k1 = "leftears"%string));
      (match goal with |- context [match ?d with left _ => _ | right _ => _ end] => destruct d as [He|_] end; [|done]);
      exfalso; exact (insert_non_empty (M:=gmap string) _ _ _ He).
  - cbn. unfold place_ear, ear_side. cbn.
    destruct (decide (k1 = "leftears"%string)); cbn;
      destruct (decide (k2 = "leftears"%string)); cbn;
      rewrite Nat.min_0_r; cbn;
      (match goal with |- context [match ?d with left _ => _ | right _ => _ end] => destruct d as [He|_] end; [|done]);
      exfalso; exact (insert_non_empty (M:=gmap string) _ _ _ He).
Qed.

Lemma ear_ring_place_spec_witness :
  let locs : list box := [(1, 2, 3, 4); (5, 6, 7, 8); (9, 9, 9, 9)] in
  let keys := ["leftears"%string; "leftears"%string; "rightears"%string] in
  let fs : files := {[ "m.jpg"%string := [ [ [7; 7; 7] ] ] ]} in
  is_Some (fs !! "m.jpg"%string) ∧
  length keys = length locs ∧
  ear_ring_place (fun _ => (locs, keys)) fs "m.jpg"
  = inr (<["left"%string := (5, 6, 7, 8)]> ∅).
Proof.
  cbv zeta.
  assert (is_Some (({[ "m.jpg"%string := [ [ [7; 7; 7] ] ] ]} : files)
                   !! "m.jpg"%string)) as H by (by eexists).
  split; [exact H|]. split; [reflexivity|].
  rewrite (ear_ring_place_spec
             (fun _ => ([(1, 2, 3, 4); (5, 6, 7, 8); (9, 9, 9, 9)],
                        ["leftears"%string; "leftears"%string; "rightears"%string]))
             _ "m.jpg" [(1, 2, 3, 4); (5, 6, 7, 8); (9, 9, 9, 9)]
             ["leftears"%string; "leftears"%string; "rightears"%string]
             H eq_refl eq_refl).
  unfold ear_side. simpl. rewrite insert_insert_eq. reflexivity.
Defined.

Example ear_ring_place_missing_file :
  ear_ring_place (fun _ => ([(1, 2, 3, 4)], ["leftears"%string])) ∅ "m.jpg"
  = inl (Builtin FileNotFoundError).
Proof. reflexivity. Qed.

(** ** effect.py: the coloured shadow *)

Lemma find_seq_first (f : nat -> bool) s n e :
  List.find f (seq s n) = Some e ->
  (s <= e < s + n)%nat ∧ f e = true ∧ ∀ x, (s <= x < e)%nat -> f x = false.
Proof.
  revert s. induction n as [|n IH]; intros s; simpl; [discriminate|].
  destruct (f s) eqn:Hs.
  - intros [= <-]. repeat split; [lia|lia|done|intros; lia].
  - intros H. destruct (IH _ H) as (Hr & He & Hx).
    repeat split; [lia|lia|done|].
    intros x Hxr. destruct (decide (x = s)) as [->|]; [done|].
    apply Hx. lia.
Qed.

Lemma find_rev_seq_first (f : nat -> bool) n e :
  List.find f (reverse (seq 0 n)) = Some e ->
  (e < n)%nat ∧ f e = true ∧ ∀ x, (e < x < n)%nat -> f x = false.
Proof.
  induction n as [|n IH]; [discriminate|].
  rewrite seq_S, reverse_snoc. simpl.
  destruct (f n) eqn:Hn.
  - intros [= <-]. repeat split; [lia|done|intros; lia].
  - intros H. destruct (IH H) as (Hr & He & Hx).
    repeat split; [lia|done|].
    intros x Hxr. destruct (decide (x = n)) as [->|]; [done|].
    apply Hx. lia.
Qed.

Lemma edge_x_Some right a w y e :
  edge_x right a w y = Some e ->
  (e < w)%nat ∧ opaque_at a e y = true ∧
  ∀ x, (x < w)%nat -> opaque_at a x y = true ->
       if right then (e <= x)%nat else (x <= e)%nat.
Proof.
  unfold edge_x. destruct right; intros H.
  - apply find_seq_first in H as (Hr & He & Hx).
    repeat split; [lia|done|].
    intros x Hw Ho. destruct (decide (e <= x)%nat) as [|Hn]; [done|].
    rewrite Hx in Ho by lia. discriminate.
  - apply find_rev_seq_first in H as (Hr & He & Hx).
    repeat split; [done..|].
    intros x Hw Ho. destruct (decide (x <= e)%nat) as [|Hn]; [done|].
    rewrite Hx in Ho by lia. discriminate.
Qed.

Lemma edge_x_None right a w y :
  edge_x right a w y = None ↔ ∀ x, (x < w)%nat -> opaque_at a x y = false.
Proof.
  unfold edge_x. split.
  - intros H x Hx. apply (find_none _ _ H).
    apply list_elem_of_In.
    destruct right; [|apply elem_of_reverse]; apply elem_of_seq; lia.
  - intros H. destruct (List.find _ _) as [e|] eqn:He; [|done].
    apply find_some in He as [Hin Ho].
    apply list_elem_of_In in Hin.
    assert (e < w)%nat as Hw.
    { destruct right; [|rewrite elem_of_reverse in Hin];
        apply elem_of_seq in Hin; lia. }
    rewrite (H _ Hw) in Ho. discriminate.
Qed.

Lemma opaque_at_row a x y :
  opaque_at a x y = true -> (y < length a)%nat.
Proof.
  unfold opaque_at, pixel_xy. intros H.
  destruct (decide (y < length a)%nat) as [|Hn]; [done|].
  rewrite (nth_overflow a) in H by lia.
  destruct x; discriminate.
Qed.

Lemma elem_of_y_coords a w h y :
  y ∈ y_coords a w h ↔
  (y < h)%nat ∧ ∃ x, (x < w)%nat ∧ opaque_at a x y = true.
Proof.
  unfold y_coords. rewrite list_elem_of_filter, elem_of_seq, existsb_exists.
  split.
  - intros [(x & Hin & Ho) Hy]. split; [lia|]. exists x. split; [|done].
    apply list_elem_of_In, elem_of_seq in Hin. lia.
  - intros [Hy (x & Hx & Ho)]. split; [|lia]. exists x. split; [|done].
    apply list_elem_of_In, elem_of_seq. lia.
Qed.

Lemma list_min_le (l : list nat) y : y ∈ l -> (list_min l <= y)%nat.
Proof.
  unfold list_min. generalize (hd 0%nat l). intros d.
  induction l as [|z l IH]; [inversion 1|].
  rewrite elem_of_cons. simpl. intros [->|H]; [lia|].
  specialize (IH H). lia.
Qed.

Lemma list_max_ge (l : list nat) y : y ∈ l -> (y <= list_max l)%nat.
Proof.
  unfold list_max.
  induction l as [|z l IH]; [inversion 1|].
  rewrite elem_of_cons. simpl. intros [->|H]; [lia|].
  specialize (IH H). lia.
Qed.

Lemma y_coords_range a w h y :
  y ∈ y_coords a w h ->
  y ∈ seq (list_min (y_coords a w h))
          (list_max (y_coords a w h) + 1 - list_min (y_coords a w h)).
Proof.
  intros H. apply elem_of_seq.
  pose proof (list_min_le _ _ H). pose proof (list_max_ge _ _ H). lia.
Qed.

Lemma length_fill_row row xs v : length (fill_row row xs v) = length row.
Proof.
  unfold fill_row. revert row.
  induction xs as [|x xs IH]; intros row; simpl; [done|].
  rewrite IH. apply length_insert.
Qed.

Lemma lookup_fill_row row xs v j :
  fill_row row xs v !! j =
  if decide (j ∈ xs ∧ (j < length row)%nat) then Some v else row !! j.
Proof.
  unfold fill_row. revert row.
  induction xs as [|x xs IH]; intros row; cbn [foldl].
  - rewrite decide_False; [done|]. intros [H _]. inversion H.
  - rewrite IH, length_insert.
    destruct (decide (j ∈ xs ∧ _)) as [[Hin Hl]|Hn].
    + rewrite decide_True; [done|]. split; [by right|done].
    + destruct (decide (j = x)) as [->|Hne].
      * destruct (decide (x < length row)%nat) as [Hl|Hl].
        -- rewrite list_lookup_insert_eq by done.
           rewrite decide_True; [done|]. split; [by left|done].
        -- rewrite list_insert_ge by lia.
           rewrite decide_False; [done|]. intros [_ ?]. lia.
      * rewrite list_lookup_insert_ne by done.
        rewrite decide_False; [done|].
        intros [Hin Hl]. apply elem_of_cons in Hin as [?|?]; [done|].
        apply Hn. done.
Qed.

Lemma put_pixels_ok out xs y v row :
  out !! y = Some row ->
  (∀ x, x ∈ xs -> (x < length row)%nat) ->
  put_pixels out xs y v = Return (<[y := fill_row row xs v]> out).
Proof.
  revert out row. induction xs as [|x xs IH]; intros out row Hy Hxs; simpl.
  - unfold fill_row. simpl. by rewrite list_insert_id.
  - unfold put_pixel. rewrite Hy.
    rewrite decide_True by (apply Hxs; by left).
    rewrite bind_Return.
    rewrite (IH _ (<[x := v]> row)).
    + by rewrite list_insert_insert_eq.
    + apply list_lookup_insert_eq. by eapply lookup_lt_Some.
    + intros x' Hx'. rewrite length_insert. apply Hxs. by right.
Qed.

Lemma put_pixels_cases out xs y v w :
  Forall (fun row => length row = w) out ->
  put_pixels out xs y v = Raise IndexError ∨
  ∃ out', put_pixels out xs y v = Return out' ∧
          length out' = length out ∧
          Forall (fun row => length row = w) out'.
Proof.
  revert out. induction xs as [|x xs IH]; intros out Hout; simpl.
  - right. by exists out.
  - unfold put_pixel. destruct (out !! y) as [row|] eqn:Hy; [|by left].
    destruct (decide _) as [Hx|]; [|by left].
    rewrite bind_Return.
    destruct (IH (<[y := <[x := v]> row]> out)) as [->|(out' & -> & Hl & Hf)].
    + rewrite Forall_lookup in Hout |- *. intros i r Hi.
      destruct (decide (i = y)) as [->|Hne].
      * rewrite list_lookup_insert_eq in Hi by by eapply lookup_lt_Some.
        injection Hi as <-. rewrite length_insert. by eapply Hout.
      * rewrite list_lookup_insert_ne in Hi by done. by eapply Hout.
    + by left.
    + right. exists out'. rewrite Hl, length_insert. done.
Qed.

Lemma put_pixels_fail out xs y v w x :
  Forall (fun row => length row = w) out ->
  x ∈ xs -> (w <= x)%nat ->
  put_pixels out xs y v = Raise IndexError.
Proof.
  revert out. induction xs as [|x' xs IH]; intros out Hout Hin Hw; simpl.
  - inversion Hin.
  - unfold put_pixel. destruct (out !! y) as [row|] eqn:Hy; [|done].
    assert (length row = w) as Hrow.
    { rewrite Forall_lookup in Hout. by eapply Hout. }
    destruct (decide _) as [Hx|]; [|done].
    rewrite bind_Return.
    apply elem_of_cons in Hin as [->|Hin]; [lia|].
    apply IH; [|done..].
    rewrite Forall_lookup in Hout |- *. intros i r Hi.
    destruct (decide (i = y)) as [->|Hne].
    + rewrite list_lookup_insert_eq in Hi by by eapply lookup_lt_Some.
      injection Hi as <-. by rewrite length_insert.
    + rewrite list_lookup_insert_ne in Hi by done. by eapply Hout.
Qed.

Lemma elem_of_shadow_xs right e L x :
  x ∈ shadow_xs right e L ↔
  ∃ i, (1 <= i <= L)%nat ∧
       x = if right then (e + L - i)%nat else (e + i)%nat.
Proof.
  unfold shadow_xs. rewrite list_elem_of_fmap. split.
  - intros (i & -> & Hi). apply elem_of_seq in Hi. exists i. split; [lia|done].
  - intros (i & Hi & ->). exists i. split; [done|]. apply elem_of_seq. lia.
Qed.

Lemma shadow_row_ok right L op a w out y :
  (∀ e, edge_x right a w y = Some e ->
        ∃ row, out !! y = Some row ∧
               ∀ x, x ∈ shadow_xs right e L -> (x < length row)%nat) ->
  ∃ out', shadow_row right L op a w out y = Return out' ∧
          length out' = length out ∧
          ∀ y', out' !! y' =
                if decide (y' = y)
                then shadowed_row right L op a w y <$> out !! y'
                else out !! y'.
Proof.
  intros H. unfold shadow_row, shadowed_row.
  destruct (edge_x right a w y) as [e|] eqn:He.
  - destruct (H e eq_refl) as (row & Hrow & Hxs).
    rewrite (put_pixels_ok _ _ _ _ row) by done.
    eexists. split; [done|]. split; [apply length_insert|].
    intros y'. destruct (decide (y' = y)) as [->|Hne].
    + rewrite list_lookup_insert_eq by by eapply lookup_lt_Some.
      by rewrite Hrow.
    + by rewrite list_lookup_insert_ne.
  - exists out. split; [done|]. split; [done|].
    intros y'. destruct (decide (y' = y)) as [->|Hne]; [|done].
    by destruct (out !! y).
Qed.

Lemma shadow_rows_ok right L op a w ys : ∀ out,
  NoDup ys ->
  (∀ y e, y ∈ ys -> edge_x right a w y = Some e ->
          ∃ row, out !! y = Some row ∧
                 ∀ x, x ∈ shadow_xs right e L -> (x < length row)%nat) ->
  ∃ out', shadow_rows right L op a w out ys = Return out' ∧
          length out' = length out ∧
          ∀ y, out' !! y =
               if decide (y ∈ ys)
               then shadowed_row right L op a w y <$> out !! y
               else out !! y.
Proof.
  induction ys as [|y0 ys IH]; intros out Hnd Hok.
  - exists out. split; [done|]. split; [done|].
    intros y. rewrite decide_False; [done|]. inversion 1.
  - apply NoDup_cons in Hnd as [Hy0 Hnd]. cbn [shadow_rows].
    destruct (shadow_row_ok right L op a w out y0) as (out1 & -> & Hl1 & H1).
    { intros e He. apply (Hok y0 e); [by left|done]. }
    rewrite bind_Return.
    destruct (IH out1 Hnd) as (out' & -> & Hl' & H').
    { intros y e Hy He. rewrite H1.
      rewrite decide_False by (intros ->; done).
      apply Hok; [by right|done]. }
    exists out'. split; [done|]. split; [congruence|].
    intros y. rewrite H', H1.
    destruct (decide (y = y0)) as [->|Hne].
    + rewrite decide_False by done. rewrite decide_True by by left. done.
    + destruct (decide (y ∈ ys)) as [Hin|Hin].
      * rewrite decide_True by by right. done.
      * rewrite decide_False; [done|].
        intros [?|?]%elem_of_cons; done.
Qed.

Lemma shadow_row_cases right L op a w out y :
  Forall (fun row => length row = w) out ->
  shadow_row right L op a w out y = Raise IndexError ∨
  ∃ out', shadow_row right L op a w out y = Return out' ∧
          length out' = length out ∧
          Forall (fun row => length row = w) out'.
Proof.
  intros Hout. unfold shadow_row.
  destruct (edge_x right a w y) as [e|].
  - by apply put_pixels_cases.
  - right. by exists out.
Qed.

Lemma shadow_rows_fail L op a w ys y e : ∀ out,
  Forall (fun row => length row = w) out ->
  y ∈ ys -> edge_x false a w y = Some e ->
  (0 < L)%nat -> (w <= e + L)%nat ->
  shadow_rows false L op a w out ys = Raise IndexError.
Proof.
  induction ys as [|y0 ys IH]; intros out Hout Hin He HL Hw.
  - inversion Hin.
  - cbn [shadow_rows].
    destruct (decide (y = y0)) as [<-|Hne].
    + unfold shadow_row. rewrite He.
      rewrite (put_pixels_fail _ _ _ _ w (e + L)%nat); [done..| |done].
      apply elem_of_shadow_xs. exists L. split; [lia|done].
    + apply elem_of_cons in Hin as [?|Hin]; [done|].
      destruct (shadow_row_cases false L op a w out y0 Hout)
        as [->|(out1 & -> & _ & Hout1)]; [done|].
      rewrite bind_Return. by apply IH.
Qed.

Lemma convert_rgba_rect stored w :
  Forall (fun row => length row = w) stored ->
  Forall (fun row => length row = w) (convert_rgba stored).
Proof.
  unfold convert_rgba. intros H. apply Forall_fmap.
  eapply Forall_impl; [exact H|].
  intros row Hrow. simpl. by rewrite length_fmap.
Qed.

Lemma shape1_rect (a : ndarray) w y :
  Forall (fun row => length row = w) a -> (y < length a)%nat ->
  shape1 a = w.
Proof.
  unfold shape1. destruct a as [|row a]; simpl; [lia|].
  intros H _. by inversion H.
Qed.

Lemma pixel_xy_lookup (a : ndarray) x y row :
  a !! y = Some row -> pixel_xy a x y = default [] (row !! x).
Proof.
  intros H. unfold pixel_xy. rewrite (nth_lookup_Some _ _ _ _ H).
  apply nth_lookup.
Qed.

(** The state of the output image after the shadow loop, for an image with
    a visible pixel. *)
Lemma add_colored_blur_rows (save_error : string -> option exn)
    (jewel_path light_direction : string)
    (L : nat) (op : Z) (fs : files) (stored : ndarray) (w : nat) :
  let a := convert_rgba stored in
  let right := bool_decide (light_direction = "right"%string) in
  fs !! jewel_path = Some stored ->
  Forall (fun row => length row = w) stored ->
  (∃ x y, (x < w)%nat ∧ opaque_at a x y = true) ->
  (∀ y e, edge_x right a w y = Some e -> (0 < L)%nat ->
          right = true ∨ (e + L < w)%nat) ->
  ∃ out,
    add_colored_blur save_error jewel_path light_direction L op fs =
      pil_save save_error fs jewel_path out ∧
    length out = length stored ∧
    ∀ y, out !! y =
         (fun row => shadowed_row right L op a w y
                       (replicate (if right then L else 0%nat) [0; 0; 0; 0]
                        ++ row)) <$> a !! y.
Proof.
  intros a right Hfs Hrect (x0 & y0 & Hx0 & Ho0) Hfit.
  assert (Forall (fun row => length row = w) a) as Ha
    by by apply convert_rgba_rect.
  assert (length a = length stored) as Hla
    by (unfold a, convert_rgba; apply length_fmap).
  pose proof (opaque_at_row _ _ _ Ho0) as Hy0.
  assert (shape1 a = w) as Hw by by eapply shape1_rect.
  unfold add_colored_blur. rewrite Hfs. fold a. rewrite Hw.
  unfold shape0. cbv zeta. fold right.
  set (ys := y_coords a w (length a)).
  assert (y0 ∈ ys) as Hy0in.
  { apply elem_of_y_coords. split; [done|]. by exists x0. }
  destruct (decide (ys = [])) as [Hnil|_].
  { rewrite Hnil in Hy0in. inversion Hy0in. }
  set (out0 := (fun row : list (list Z) =>
                  replicate (if right then L else 0%nat) [0; 0; 0; 0] ++ row)
               <$> a).
  destruct (shadow_rows_ok right L op a w
              (seq (list_min ys) (list_max ys + 1 - list_min ys)) out0)
    as (out & -> & Hlen & Hout).
  { apply NoDup_seq. }
  { intros y e _ He.
    pose proof (edge_x_Some _ _ _ _ _ He) as (Hew & Heo & _).
    pose proof (opaque_at_row _ _ _ Heo) as Hy.
    destruct (lookup_lt_is_Some_2 a y Hy) as [row Hrow].
    exists (replicate (if right then L else 0%nat) [0; 0; 0; 0] ++ row).
    split.
    { unfold out0. by rewrite list_lookup_fmap, Hrow. }
    intros x (i & Hi & ->)%elem_of_shadow_xs.
    assert (length row = w) as Hrl.
    { rewrite Forall_lookup in Ha. by eapply Ha. }
    rewrite length_app, length_replicate, Hrl.
    destruct (Hfit y e He ltac:(lia)) as [Hr|Hr].
    - rewrite Hr. lia.
    - destruct right; lia. }
  rewrite bind_Return. exists out. split; [done|].
  split.
  { rewrite Hlen. unfold out0. rewrite length_fmap. done. }
  intros y. rewrite Hout. unfold out0. rewrite list_lookup_fmap.
  destruct (decide _) as [Hin|Hnin].
  - by destruct (a !! y).
  - destruct (a !! y) as [row|] eqn:Hrow; [|done]. simpl.
    unfold shadowed_row.
    destruct (edge_x right a w y) as [e|] eqn:He; [|done].
    exfalso. apply Hnin.
    pose proof (edge_x_Some _ _ _ _ _ He) as (Hew & Heo & _).
    apply y_coords_range. apply elem_of_y_coords.
    split; [by eapply opaque_at_row|]. by exists e.
Qed.

Lemma pixel_xy_lookup_total (a : ndarray) x y :
  pixel_xy a x y = default [] (a !! y ≫= (.!! x)).
Proof.
  unfold pixel_xy. rewrite (nth_lookup a), nth_lookup.
  destruct (a !! y); [done|]. by destruct x.
Qed.

(** X20: an image without a visible pixel (alpha 0 everywhere) is left as
    it is: [add_colored_blur] returns without writing the file. *)
Theorem add_colored_blur_transparent (save_error : string -> option exn)
    (jewel_path light_direction : string) (shadow_length : nat)
    (shadow_opacity : Z) (fs : files)
    (stored : ndarray) :
  fs !! jewel_path = Some stored ->
  (∀ x y, opaque_at (convert_rgba stored) x y = false) ->
  add_colored_blur save_error jewel_path light_direction shadow_length
                   shadow_opacity fs
  = Return fs.
Proof.
  intros Hfs Hno. unfold add_colored_blur. rewrite Hfs. cbv zeta.
  destruct (decide _) as [|Hne]; [done|].
  exfalso. apply Hne.
  apply elem_of_nil_inv. intros y (_ & x & _ & Ho)%elem_of_y_coords.
  by rewrite Hno in Ho.
Qed.

Lemma add_colored_blur_transparent_witness :
  add_colored_blur (save_only_at "e.png") "e.png" "left" 3 64
                   {[ "e.png"%string := [[[7; 7; 7; 0]]] ]}
  = Return {[ "e.png"%string := [[[7; 7; 7; 0]]] ]}.
Proof.
  apply (add_colored_blur_transparent (save_only_at "e.png") "e.png" "left"
           3 64 _ [[[7; 7; 7; 0]]]).
  - reflexivity.
  - intros [|[|x]] [|[|y]]; reflexivity.
Defined.

(** X21: with the light from the right and an image that shows something,
    [add_colored_blur] raises nothing before it saves: it ends as the save
    of its output image at the path ends, with the file written when the
    format of the path accepts the image and with the error of the save
    otherwise.  The output image is [shadow_length]
    columns wider and as high as the input; every visible pixel is kept,
    [shadow_length] columns further right; the [shadow_length] pixels
    directly left of the leftmost visible pixel of a row carry its colour
    with the shadow opacity; every other pixel is the transparent padding
    or the shifted input pixel. *)
Theorem add_colored_blur_right (save_error : string -> option exn)
    (jewel_path : string) (shadow_length : nat)
    (shadow_opacity : Z) (fs : files) (stored : ndarray) (w : nat) :
  let a := convert_rgba stored in
  fs !! jewel_path = Some stored ->
  Forall (fun row => length row = w) stored ->
  0 <= shadow_opacity <= 255 ->
  (∃ x y, (x < w)%nat ∧ opaque_at a x y = true) ->
  ∃ out,
    add_colored_blur save_error jewel_path "right" shadow_length
                     shadow_opacity fs
      = match save_error jewel_path with
        | None => Return (<[jewel_path := out]> fs)
        | Some e => Raise e
        end ∧
    length out = length stored ∧
    Forall (fun row => length row = (w + shadow_length)%nat) out ∧
    (∀ x y, (x < w)%nat -> opaque_at a x y = true ->
            pixel_xy out (x + shadow_length) y = pixel_xy a x y) ∧
    (∀ y e j, edge_x true a w y = Some e -> (j < shadow_length)%nat ->
              pixel_xy out (e + j) y
              = take 3 (pixel_xy a e y) ++ [shadow_opacity]) ∧
    (∀ c y, (c < w + shadow_length)%nat -> (y < length stored)%nat ->
            (∀ e, edge_x true a w y = Some e ->
                  ¬ (e <= c < e + shadow_length)%nat) ->
            pixel_xy out c y =
            if decide (c < shadow_length)%nat then [0; 0; 0; 0]
            else pixel_xy a (c - shadow_length) y).
Proof.
  intros a Hfs Hrect _ Hvis.
  assert (Forall (fun row => length row = w) a) as Ha
    by by apply convert_rgba_rect.
  assert (length a = length stored) as Hla
    by (unfold a, convert_rgba; apply length_fmap).
  destruct (add_colored_blur_rows save_error jewel_path "right" shadow_length
              shadow_opacity fs stored w Hfs Hrect Hvis)
    as (out & Hrun & Hlen & Hrows).
  { intros y e _ _. by left. }
  assert (add_colored_blur save_error jewel_path "right" shadow_length
                           shadow_opacity fs
          = match save_error jewel_path with
            | None => Return (<[jewel_path := out]> fs)
            | Some e => Raise e
            end) as Hsave.
  { rewrite Hrun. unfold pil_save. by destruct (save_error jewel_path). }
  clear Hrun. rename Hsave into Hrun.
  change (bool_decide ("right"%string = "right"%string)) with true in Hrows.
  fold a in Hrows.
  assert (∀ c y, (c < w + shadow_length)%nat -> (y < length stored)%nat ->
            (∀ e, edge_x true a w y = Some e ->
                  ¬ (e <= c < e + shadow_length)%nat) ->
            pixel_xy out c y =
            if decide (c < shadow_length)%nat then [0; 0; 0; 0]
            else pixel_xy a (c - shadow_length) y) as Hother.
  { intros c y Hc Hy Hout.
    rewrite <- Hla in Hy.
    destruct (lookup_lt_is_Some_2 a y Hy) as [row Hrow].
    assert (length row = w) as Hrl.
    { rewrite Forall_lookup in Ha. by eapply Ha. }
    rewrite !pixel_xy_lookup_total, Hrows, Hrow. simpl.
    assert (shadowed_row true shadow_length shadow_opacity a w y
              (replicate shadow_length [0; 0; 0; 0] ++ row) !! c
            = (replicate shadow_length [0; 0; 0; 0] ++ row) !! c) as ->.
    { unfold shadowed_row.
      destruct (edge_x true a w y) as [e|] eqn:He; [|done].
      rewrite lookup_fill_row. rewrite decide_False; [done|].
      intros [(i & Hi & ->)%elem_of_shadow_xs _].
      apply (Hout e eq_refl). lia. }
    destruct (decide (c < shadow_length)%nat) as [Hlt|Hge].
    - rewrite lookup_app_l by by rewrite length_replicate.
      by rewrite lookup_replicate_2.
    - rewrite lookup_app_r by (rewrite length_replicate; lia).
      by rewrite length_replicate. }
  exists out. split; [exact Hrun|]. split; [exact Hlen|].
  split; [|split; [|split; [|exact Hother]]].
  - apply Forall_lookup. intros y r Hr.
    rewrite Hrows in Hr.
    destruct (a !! y) as [row|] eqn:Hrow; [|done].
    injection Hr as <-.
    assert (length row = w) as Hrl.
    { rewrite Forall_lookup in Ha. by eapply Ha. }
    unfold shadowed_row. destruct (edge_x true a w y);
      rewrite ?length_fill_row, length_app, length_replicate; lia.
  - intros x y Hx Ho.
    rewrite Hother.
    + rewrite decide_False by lia. f_equal. lia.
    + lia.
    + rewrite <- Hla. by eapply opaque_at_row.
    + intros e He.
      pose proof (edge_x_Some _ _ _ _ _ He) as (_ & _ & Hfirst).
      specialize (Hfirst x Hx Ho). simpl in Hfirst. lia.
  - intros y e j He Hj.
    pose proof (edge_x_Some _ _ _ _ _ He) as (Hew & Heo & _).
    pose proof (opaque_at_row _ _ _ Heo) as Hy.
    destruct (lookup_lt_is_Some_2 a y Hy) as [row Hrow].
    assert (length row = w) as Hrl.
    { rewrite Forall_lookup in Ha. by eapply Ha. }
    rewrite (pixel_xy_lookup_total out), Hrows, Hrow. simpl.
    unfold shadowed_row. rewrite He, lookup_fill_row.
    rewrite decide_True; [done|]. split.
    + apply elem_of_shadow_xs. exists (shadow_length - j)%nat.
      split; lia.
    + rewrite length_app, length_replicate. lia.
Qed.

Lemma add_colored_blur_right_witness :
  ∃ out,
    add_colored_blur (save_only_at "e.png") "e.png" "right" 3 64
                     {[ "e.png"%string := small_earring ]}
      = Return (<[ "e.png"%string := out ]>
                  {[ "e.png"%string := small_earring ]}) ∧
    pixel_xy out 4 0 = [200; 0; 0; 255] ∧
    pixel_xy out 3 0 = [200; 0; 0; 64].
Proof.
  destruct (add_colored_blur_right (save_only_at "e.png") "e.png" 3 64
              {[ "e.png"%string := small_earring ]} small_earring 3)
    as (out & Hrun & _ & _ & Hkeep & Hshadow & _).
  - reflexivity.
  - repeat constructor.
  - lia.
  - exists 1%nat, 0%nat. split; [lia|reflexivity].
  - exists out. split; [exact Hrun|]. split.
    + exact (Hkeep 1%nat 0%nat ltac:(lia) eq_refl).
    + exact (Hshadow 0%nat 1%nat 2%nat eq_refl ltac:(lia)).
Defined.

(** At a path for which PIL knows no format the shadow is computed and the
    save raises: nothing is written. *)
Example add_colored_blur_unknown_extension :
  add_colored_blur (save_only_at "e.png") "e" "right" 3 64
                   {[ "e"%string := small_earring ]}
  = Raise ValueError.
Proof. vm_compute. reflexivity. Qed.

(** X22: with the light from the left ([light_direction] anything but
    ["right"]), when in every row the rightmost visible pixel has
    [shadow_length] columns to its right, [add_colored_blur] raises nothing
    before it saves: it ends as the save of its output image at the path
    ends, with the file written when the format of the path accepts the
    image and with the error of the save otherwise.  The output image has
    the size of the input; in it the [shadow_length] pixels right of
    that pixel carry its colour with the shadow opacity and every other
    pixel is the input pixel. *)
Theorem add_colored_blur_left (save_error : string -> option exn)
    (jewel_path light_direction : string) (shadow_length : nat)
    (shadow_opacity : Z) (fs : files)
    (stored : ndarray) (w : nat) :
  let a := convert_rgba stored in
  light_direction ≠ "right"%string ->
  fs !! jewel_path = Some stored ->
  Forall (fun row => length row = w) stored ->
  0 <= shadow_opacity <= 255 ->
  (∃ x y, (x < w)%nat ∧ opaque_at a x y = true) ->
  (∀ y e, edge_x false a w y = Some e -> (0 < shadow_length)%nat ->
          (e + shadow_length < w)%nat) ->
  ∃ out,
    add_colored_blur save_error jewel_path light_direction shadow_length
                     shadow_opacity fs
      = match save_error jewel_path with
        | None => Return (<[jewel_path := out]> fs)
        | Some e => Raise e
        end ∧
    length out = length stored ∧
    Forall (fun row => length row = w) out ∧
    (∀ y e i, edge_x false a w y = Some e ->
              (1 <= i <= shadow_length)%nat ->
              pixel_xy out (e + i) y
              = take 3 (pixel_xy a e y) ++ [shadow_opacity]) ∧
    (∀ c y, (∀ e, edge_x false a w y = Some e ->
                  ¬ (e < c <= e + shadow_length)%nat) ->
            pixel_xy out c y = pixel_xy a c y).
Proof.
  intros a Hdir Hfs Hrect _ Hvis Hfit.
  assert (Forall (fun row => length row = w) a) as Ha
    by by apply convert_rgba_rect.
  destruct (add_colored_blur_rows save_error jewel_path light_direction
              shadow_length shadow_opacity fs stored w Hfs Hrect Hvis)
    as (out & Hrun & Hlen & Hrows).
  { rewrite bool_decide_eq_false_2 by done.
    intros y e He HL. right. exact (Hfit y e He HL). }
  rewrite bool_decide_eq_false_2 in Hrows by done.
  fold a in Hrows.
  exists out. split.
  { rewrite Hrun. unfold pil_save. by destruct (save_error jewel_path). }
  split; [exact Hlen|].
  split; [|split].
  - apply Forall_lookup. intros y r Hr.
    rewrite Hrows in Hr.
    destruct (a !! y) as [row|] eqn:Hrow; [|done].
    injection Hr as <-.
    assert (length row = w) as Hrl.
    { rewrite Forall_lookup in Ha. by eapply Ha. }
    unfold shadowed_row. destruct (edge_x false a w y);
      rewrite ?length_fill_row; simpl; lia.
  - intros y e i He Hi.
    pose proof (edge_x_Some _ _ _ _ _ He) as (Hew & Heo & _).
    pose proof (opaque_at_row _ _ _ Heo) as Hy.
    destruct (lookup_lt_is_Some_2 a y Hy) as [row Hrow].
    assert (length row = w) as Hrl.
    { rewrite Forall_lookup in Ha. by eapply Ha. }
    rewrite (pixel_xy_lookup_total out), Hrows, Hrow. simpl.
    unfold shadowed_row. rewrite He, lookup_fill_row.
    rewrite decide_True; [done|]. split.
    + apply elem_of_shadow_xs. by exists i.
    + specialize (Hfit y e He ltac:(lia)). lia.
  - intros c y Hout.
    rewrite !pixel_xy_lookup_total, Hrows.
    destruct (a !! y) as [row|] eqn:Hrow; [|done]. simpl.
    unfold shadowed_row.
    destruct (edge_x false a w y) as [e|] eqn:He; [|done].
    rewrite lookup_fill_row. rewrite decide_False; [done|].
    intros [(i & Hi & ->)%elem_of_shadow_xs _].
    apply (Hout e eq_refl). lia.
Qed.

Lemma add_colored_blur_left_witness :
  ∃ out,
    add_colored_blur (save_only_at "e.png") "e.png" "left" 1 64
      {[ "e.png"%string := [[[0; 0; 0; 0]; [200; 0; 0; 255]; [0; 0; 0; 0]]] ]}
      = Return (<[ "e.png"%string := out ]>
                  {[ "e.png"%string :=
                       [[[0; 0; 0; 0]; [200; 0; 0; 255]; [0; 0; 0; 0]]] ]}) ∧
    pixel_xy out 2 0 = [200; 0; 0; 64].
Proof.
  destruct (add_colored_blur_left (save_only_at "e.png") "e.png" "left" 1 64
              {[ "e.png"%string :=
                   [[[0; 0; 0; 0]; [200; 0; 0; 255]; [0; 0; 0; 0]]] ]}
              [[[0; 0; 0; 0]; [200; 0; 0; 255]; [0; 0; 0; 0]]] 3)
    as (out & Hrun & _ & _ & Hshadow & _).
  - discriminate.
  - reflexivity.
  - repeat constructor.
  - lia.
  - exists 1%nat, 0%nat. split; [lia|reflexivity].
  - intros [|[|y]] e; cbv; intros [= <-] _; lia.
  - exists out. split; [exact Hrun|].
    exact (Hshadow 0%nat 1%nat 1%nat eq_refl ltac:(lia)).
Defined.

(** X23: with the light from the left, a row whose rightmost visible pixel
    is less than [shadow_length] columns away from the right border makes
    [add_colored_blur] raise [IndexError]; nothing is saved. *)
Theorem add_colored_blur_index_error (save_error : string -> option exn)
    (jewel_path light_direction : string) (shadow_length : nat)
    (shadow_opacity : Z) (fs : files)
    (stored : ndarray) (w y e : nat) :
  let a := convert_rgba stored in
  light_direction ≠ "right"%string ->
  fs !! jewel_path = Some stored ->
  Forall (fun row => length row = w) stored ->
  0 <= shadow_opacity <= 255 ->
  edge_x false a w y = Some e ->
  (0 < shadow_length)%nat -> (w <= e + shadow_length)%nat ->
  add_colored_blur save_error jewel_path light_direction shadow_length
                   shadow_opacity fs
  = Raise IndexError.
Proof.
  intros a Hdir Hfs Hrect _ He HL Hw.
  assert (Forall (fun row => length row = w) a) as Ha
    by by apply convert_rgba_rect.
  pose proof (edge_x_Some _ _ _ _ _ He) as (Hew & Heo & _).
  pose proof (opaque_at_row _ _ _ Heo) as Hy.
  assert (shape1 a = w) as Hsw by by eapply shape1_rect.
  unfold add_colored_blur. rewrite Hfs. fold a. rewrite Hsw.
  unfold shape0. cbv zeta.
  rewrite bool_decide_eq_false_2 by done.
  set (ys := y_coords a w (length a)).
  assert (y ∈ ys) as Hyin.
  { apply elem_of_y_coords. split; [done|]. by exists e. }
  destruct (decide (ys = [])) as [Hnil|_].
  { rewrite Hnil in Hyin. inversion Hyin. }
  rewrite (shadow_rows_fail shadow_length shadow_opacity a w _ y e);
    [done| |by apply y_coords_range|done..].
  apply Forall_fmap. eapply Forall_impl; [exact Ha|].
  intros row Hrow. simpl. done.
Qed.

Lemma add_colored_blur_index_error_witness :
  add_colored_blur (save_only_at "e.png") "e.png" "left" 1 64
                   {[ "e.png"%string := small_earring ]}
  = Raise IndexError.
Proof.
  apply (add_colored_blur_index_error (save_only_at "e.png") "e.png" "left"
           1 64 _ small_earring
           3 1 2).
  - discriminate.
  - reflexivity.
  - repeat constructor.
  - lia.
  - reflexivity.
  - lia.
  - lia.
Defined.
